(** * The transposition table of src/tt.cpp

    A shallow embedding of [TranspositionTable] (set_size, clear, store,
    retrieve, first_entry, new_search, insert_pv, full) together with the
    properties of the table that its description states.

    Integers of the C++ code are [Z] with the wrap-around of their width
    written out; the entry array is a [list] indexed with stdpp's lookup and
    insert; a [TTEntry*] is the index of the entry in that array. *)

From Stdlib Require Import ZArith Lia Bool.
From Stdlib Require Import Floats.SpecFloat.
From stdpp Require Import base tactics option list.

Local Open Scope Z_scope.

(** ** Machine integers *)

Module Machine.

(** [unsigned]: 32 bits, arithmetic modulo 2^32. *)
Definition u32 (z : Z) : Z := z mod 2 ^ 32.

(** [uint8_t]: the width of the generation counter. *)
Definition u8 (z : Z) : Z := z mod 2 ^ 8.

(** [size_t] on the 64-bit targets of the engine. *)
Definition u64 (z : Z) : Z := z mod 2 ^ 64.

(** The conversion [int(x)] of an unsigned quantity: two's complement. *)
Definition to_int (z : Z) : Z :=
  let w := z mod 2 ^ 32 in if w <? 2 ^ 31 then w else w - 2 ^ 32.

Definition INT_MIN : Z := - 2 ^ 31.
Definition INT_MAX : Z := 2 ^ 31 - 1.

End Machine.

(** ** Doubles

    IEEE 754 binary64 as [spec_float] with precision 53 and maximal
    exponent 1024; the operations are the round-to-nearest-even ones of
    SpecFloat. *)

Module Double.

Definition double : Type := spec_float.

Definition prec : Z := 53.
Definition emax : Z := 1024.

Definition mul : double -> double -> double := SFmul prec emax.
Definition sub : double -> double -> double := SFsub prec emax.
Definition div : double -> double -> double := SFdiv prec emax.

(** Conversion of an integer, as in [double(size)] and in the implicit
    conversions of [1000], [1] and [writes]. *)
Definition of_Z (z : Z) : double := binary_normalize prec emax z 0 false.

Definition is_finite (x : double) : bool :=
  match x with
  | S754_zero _ | S754_finite _ _ _ => true
  | S754_infinity _ | S754_nan => false
  end.

(** A positive, finite, normalised number other than zero. *)
Definition is_positive_finite (x : double) : bool :=
  match x with
  | S754_finite false m e => bounded prec emax m e
  | _ => false
  end.

(** [int(x)]: truncation towards zero.  The conversion of a NaN, of an
    infinity or of a value outside the range of [int] is undefined:
    [None]. *)
Definition to_int (x : double) : option Z :=
  match x with
  | S754_zero _ => Some 0
  | S754_finite s m e =>
      let a := if 0 <=? e then Z.pos m * 2 ^ e else Z.pos m / 2 ^ (- e) in
      let v := if s then - a else a in
      if (Machine.INT_MIN <=? v) && (v <=? Machine.INT_MAX) then Some v else None
  | S754_infinity _ | S754_nan => None
  end.

(** *** The values of doubles, as integers *)

(** Round to nearest, ties to even, of [m / 2^k]. *)
Definition rne (m k : Z) : Z :=
  let q := m / 2 ^ k in
  let rem := m mod 2 ^ k in
  if 2 * rem <? 2 ^ k then q
  else if 2 * rem =? 2 ^ k then (if Z.even q then q else q + 1)
  else q + 1.

(** The value of a finite double, in units of 2^-1074: every finite double
    is a multiple of it. *)
Definition value (x : double) : Z :=
  match x with
  | S754_finite s m e => (if s then -1 else 1) * (Z.pos m * 2 ^ (e + 1074))
  | _ => 0
  end.

(** A zero or a normalised finite number. *)
Definition valid (x : double) : bool :=
  is_finite x && valid_binary prec emax x.

(** The exponent at which a positive number of [v] units of 2^-2148 is
    rounded: 53 digits are kept, and nothing below 2^-1074. *)
Definition cexp (v : Z) : Z := Z.max (Zdigits2 v - 53) 1074.

(** The double nearest to [v] units of 2^-2148, in units of 2^-1074. *)
Definition round (v : Z) : Z :=
  Z.sgn v * (rne (Z.abs v) (cexp (Z.abs v)) * 2 ^ (cexp (Z.abs v) - 1074)).

End Double.

(** ** Types of the engine *)

Definition Key : Type := Z.     (* 64-bit position signature *)
Definition Value : Type := Z.
Definition Depth : Type := Z.
Definition Move : Type := Z.

(** Modelled from the spec: the enumeration [ValueType] is declared in a
    header that is not part of the sources; the five bound types of the data
    model, in the code's names ([VALUE_TYPE_EVAL] is the static evaluation). *)
Inductive ValueType : Type :=
  | VALUE_TYPE_NONE
  | VALUE_TYPE_UPPER
  | VALUE_TYPE_LOWER
  | VALUE_TYPE_EXACT
  | VALUE_TYPE_EVAL.

Definition ValueType_eqb (a b : ValueType) : bool :=
  match a, b with
  | VALUE_TYPE_NONE, VALUE_TYPE_NONE
  | VALUE_TYPE_UPPER, VALUE_TYPE_UPPER
  | VALUE_TYPE_LOWER, VALUE_TYPE_LOWER
  | VALUE_TYPE_EXACT, VALUE_TYPE_EXACT
  | VALUE_TYPE_EVAL, VALUE_TYPE_EVAL => true
  | _, _ => false
  end.

(** Modelled from the spec: the class [TTEntry] is declared in tt.h, which is
    not part of the sources.  An entry records a signature, a value, a bound
    type, a depth, a move and the generation copied from the table when it
    was written; the constructor stores its six arguments and the accessors
    return them.  The all-zero entry is the empty slot. *)
Module TTEntry.

Record t : Type := make {
  key : Key;
  value : Value;
  type : ValueType;
  depth : Depth;
  move : Move;
  generation : Z
}.

(** What [memset(.., 0, ..)] leaves in a slot. *)
Definition zero : t := make 0 0 VALUE_TYPE_NONE 0 0 0.

End TTEntry.

#[global] Instance TTEntry_inhabited : Inhabited TTEntry.t :=
  populate TTEntry.zero.

(** The fields of [TranspositionTable].  [entries] is the array the pointer
    of the same name refers to ([[]] for the null pointer of the
    constructor). *)
Record TranspositionTable : Type := mkTT {
  size : Z;
  writes : Z;
  entries : list TTEntry.t;
  generation : Z
}.

(** What the code takes from the rest of the engine and from the C library:
    constants of other headers, the size of an entry, the position class
    with its signature and its move application, and [exp] and [log] of
    <cmath>. *)
Class Engine : Type := {
  MOVE_NONE : Move;
  VALUE_NONE : Value;
  OnePly : Depth;
  sizeof_TTEntry : Z;
  Position : Type;
  get_key : Position -> Key;
  do_move : Position -> Move -> Position;
  exp : Double.double -> Double.double;
  log : Double.double -> Double.double
}.

(** What the scan of a cluster in [store] decides. *)
Inductive scan_result : Type :=
  | Abort                              (* the first [return]: nothing written *)
  | Write (tte : nat) (m : Move)       (* [*tte = TTEntry(..)], then [return] *)
  | Evict (replace : nat).             (* [*replace = TTEntry(..)], [writes++] *)

Section Table.

Context `{E : Engine}.

(** [TranspositionTable::TranspositionTable] *)
Definition TranspositionTable_new : TranspositionTable :=
  mkTT 0 0 [] 0.

(** [TranspositionTable::clear]: the first [size * 4] entries are zeroed. *)
Definition clear (t : TranspositionTable) : TranspositionTable :=
  let n := Z.to_nat (Machine.u32 (size t * 4)) in
  mkTT (size t) (writes t)
       (replicate n TTEntry.zero ++ drop n (entries t))
       (generation t).

(** The loop of [set_size]: [newSize] is doubled while twice as many
    clusters still fit.  [None] when the fuel runs out. *)
Fixpoint set_size_loop (fuel : nat) (mbSize newSize : Z) : option Z :=
  match fuel with
  | O => None
  | S fuel' =>
      if Machine.u64 (Machine.u32 (Machine.u32 (2 * newSize) * 4) * sizeof_TTEntry)
           <=? Machine.u32 (Z.shiftl mbSize 20)
      then set_size_loop fuel' mbSize (Machine.u32 (newSize * 2))
      else Some newSize
  end.

(** [TranspositionTable::set_size].  [None] when the assertion fails or
    the loop does not end; the allocation is assumed to succeed (the code
    exits the process otherwise). *)
Definition set_size (mbSize : Z) (t : TranspositionTable)
  : option TranspositionTable :=
  if negb ((4 <=? mbSize) && (mbSize <=? 4096)) then None
  else
    newSize ← set_size_loop 64 mbSize 1024;
    if negb (newSize =? size t)
    then Some (clear (mkTT newSize (writes t)
                        (replicate (Z.to_nat (Machine.u32 (newSize * 4))) TTEntry.zero)
                        (generation t)))
    else Some t.

(** [TranspositionTable::first_entry]: the index of the first entry of the
    cluster of [posKey]. *)
Definition first_entry (t : TranspositionTable) (posKey : Key) : Z :=
  Z.shiftl (Machine.to_int (Z.land posKey (Machine.u32 (size t - 1)))) 2.

(** The loop of [store], [n] iterations from slot [i] on. *)
Fixpoint store_scan (es : list TTEntry.t) (gen : Z) (posKey : Key)
    (ty : ValueType) (m : Move) (first : nat) (i : nat) (replace : nat)
    (n : nat) : scan_result :=
  match n with
  | O => Evict replace
  | S n' =>
      let tte := (first + i)%nat in
      let e := es !!! tte in
      if (TTEntry.key e =? 0) || (TTEntry.key e =? posKey) then
        if negb (TTEntry.key e =? 0) && ValueType_eqb ty VALUE_TYPE_EVAL
        then Abort
        else Write tte (if m =? MOVE_NONE then TTEntry.move e else m)
      else if (i =? 0)%nat then
        store_scan es gen posKey ty m first (S i) replace n'
      else
        let r := es !!! replace in
        let c1 := if TTEntry.generation r =? gen then 2 else 0 in
        let c2 := if TTEntry.generation e =? gen then -2 else 0 in
        let c3 := if TTEntry.depth e <? TTEntry.depth r then 1 else 0 in
        store_scan es gen posKey ty m first (S i)
                   (if c1 + c2 + c3 >? 0 then tte else replace) n'
  end.

(** [TranspositionTable::store] *)
Definition store (t : TranspositionTable) (posKey : Key) (v : Value)
    (ty : ValueType) (d : Depth) (m : Move) : TranspositionTable :=
  let first := Z.to_nat (first_entry t posKey) in
  match store_scan (entries t) (generation t) posKey ty m first 0 first 4 with
  | Abort => t
  | Write tte m' =>
      mkTT (size t) (writes t)
           (<[tte := TTEntry.make posKey v ty d m' (generation t)]> (entries t))
           (generation t)
  | Evict replace =>
      mkTT (size t) (Machine.u32 (writes t + 1))
           (<[replace := TTEntry.make posKey v ty d m (generation t)]> (entries t))
           (generation t)
  end.

(** The loop of [retrieve]. *)
Fixpoint retrieve_scan (es : list TTEntry.t) (posKey : Key) (first : nat)
    (i : nat) (n : nat) : option nat :=
  match n with
  | O => None
  | S n' =>
      let tte := (first + i)%nat in
      if TTEntry.key (es !!! tte) =? posKey then Some tte
      else retrieve_scan es posKey first (S i) n'
  end.

(** [TranspositionTable::retrieve]: the entry pointer, or [None] for
    [NULL]. *)
Definition retrieve (t : TranspositionTable) (posKey : Key) : option nat :=
  retrieve_scan (entries t) posKey (Z.to_nat (first_entry t posKey)) 0 4.

(** The entry a successful [retrieve] points to. *)
Definition retrieve_entry (t : TranspositionTable) (posKey : Key)
  : option TTEntry.t :=
  (fun tte => entries t !!! tte) <$> retrieve t posKey.

(** [TranspositionTable::new_search] *)
Definition new_search (t : TranspositionTable) : TranspositionTable :=
  mkTT (size t) 0 (entries t) (Machine.u8 (generation t + 1)).

(** [TranspositionTable::insert_pv].  [pv] is the array of moves; reading
    past its end without having met [MOVE_NONE] is undefined: [None]. *)
Fixpoint insert_pv (t : TranspositionTable) (p : Position) (pv : list Move)
  : option TranspositionTable :=
  match pv with
  | [] => None
  | m :: pv' =>
      if m =? MOVE_NONE then Some t
      else insert_pv
             (store t (get_key p) VALUE_NONE VALUE_TYPE_NONE (-127 * OnePly) m)
             (do_move p m) pv'
  end.

(** [TranspositionTable::full] *)
Definition full (t : TranspositionTable) : option Z :=
  let N := Double.mul (Double.of_Z (size t)) (Double.of_Z 4) in
  Double.to_int
    (Double.mul (Double.of_Z 1000)
       (Double.sub (Double.of_Z 1)
          (exp (Double.mul (Double.of_Z (writes t))
                  (log (Double.sub (Double.of_Z 1)
                          (Double.div (Double.of_Z 1) N))))))).

(** The estimate of (1 - 1/N)^writes that [full] subtracts from 1: the
    value [exp] returns. *)
Definition survival (t : TranspositionTable) : Double.double :=
  exp (Double.mul (Double.of_Z (writes t))
         (log (Double.sub (Double.of_Z 1)
                 (Double.div (Double.of_Z 1)
                    (Double.mul (Double.of_Z (size t)) (Double.of_Z 4)))))).

(** ** Notions used to state the properties *)

(** A table that [set_size] has sized: a power of two of clusters, four
    entries each. *)
Definition sized (t : TranspositionTable) : Prop :=
  exists j, 0 <= j <= 29 /\ size t = 2 ^ j /\
            length (entries t) = Z.to_nat (4 * size t).

(** Slot [i] of cluster [c]. *)
Definition slot (t : TranspositionTable) (c : Z) (i : nat) : TTEntry.t :=
  entries t !!! (Z.to_nat (4 * c) + i)%nat.

(** The cluster a signature is mapped to: its low bits. *)
Definition cluster_of (t : TranspositionTable) (posKey : Key) : Z :=
  Z.land posKey (size t - 1).

(** An entry of the current search, for a table of generation [gen]. *)
Definition current (gen : Z) (e : TTEntry.t) : Prop :=
  TTEntry.generation e = gen.

(** The signatures at which [insert_pv] stores: those of the states the
    moves before the terminator are played from. *)
Fixpoint pv_keys (p : Position) (pv : list Move) : list Key :=
  match pv with
  | [] => []
  | m :: pv' =>
      if m =? MOVE_NONE then [] else get_key p :: pv_keys (do_move p m) pv'
  end.

(** The signatures of a cluster, by slot: the occupied slots come first,
    and no signature occupies two slots. *)
Definition cluster_inv (f : nat -> Key) : Prop :=
  (forall i j, (i < j < 4)%nat -> f i = 0 -> f j = 0) /\
  (forall i j, (i < 4)%nat -> (j < 4)%nat -> f i <> 0 -> f i = f j -> i = j).

Definition table_inv (t : TranspositionTable) : Prop :=
  sized t /\
  forall c, 0 <= c < size t -> cluster_inv (fun i => TTEntry.key (slot t c i)).

(** Slot [i] of a cluster overwritten with signature [k]. *)
Definition upd (f : nat -> Key) (i : nat) (k : Key) : nat -> Key :=
  fun j => if decide (j = i) then k else f j.

(** Every occupied slot holds a signature that is mapped to its cluster. *)
Definition placed (t : TranspositionTable) : Prop :=
  forall c i, 0 <= c < size t -> (i < 4)%nat ->
    TTEntry.key (slot t c i) <> 0 ->
    cluster_of t (TTEntry.key (slot t c i)) = c.

(** The tables the interface produces once the table is sized: [clear],
    then any sequence of [store], [new_search], [insert_pv] and [clear],
    with signatures different from 0. *)
Inductive reachable : TranspositionTable -> Prop :=
  | reach_clear t :
      sized t -> reachable (clear t)
  | reach_store t k v ty d m :
      reachable t -> k <> 0 -> reachable (store t k v ty d m)
  | reach_new_search t :
      reachable t -> reachable (new_search t)
  | reach_insert_pv t p pv t' :
      reachable t -> Forall (fun k => k <> 0) (pv_keys p pv) ->
      insert_pv t p pv = Some t' -> reachable t'.

(** The states a sequence of moves is replayed through: the state each
    move is played from. *)
Fixpoint replay (p : Position) (moves : list Move) : list Position :=
  match moves with
  | [] => []
  | m :: ms => p :: replay (do_move p m) ms
  end.

(** A call of [store]. *)
Record StoreCall : Type := mkCall {
  call_key : Key;
  call_value : Value;
  call_type : ValueType;
  call_depth : Depth;
  call_move : Move
}.

Definition run_store (t : TranspositionTable) (c : StoreCall)
  : TranspositionTable :=
  store t (call_key c) (call_value c) (call_type c) (call_depth c) (call_move c).

(** The placeholder written for move [m] at state [p]. *)
Definition pv_call (p : Position) (m : Move) : StoreCall :=
  mkCall (get_key p) VALUE_NONE VALUE_TYPE_NONE (-127 * OnePly) m.

(** The order in which the victim of an eviction is chosen: entries of a
    previous search before entries of the current one, then by depth. *)
Definition more_evictable (gen : Z) (e r : TTEntry.t) : Prop :=
  (TTEntry.generation e <> gen /\ TTEntry.generation r = gen) \/
  ((TTEntry.generation e = gen <-> TTEntry.generation r = gen) /\
   TTEntry.depth e < TTEntry.depth r).

(** The integer part of 1000 * (1 - (1 - 1/N)^w), the number the
    specification gives for the occupancy: the fraction
    1000 * (N^w - (N-1)^w) / N^w, rounded down. *)
Definition occupancy_formula (N w : Z) : Z :=
  1000 * (N ^ w - (N - 1) ^ w) / N ^ w.

End Table.

(** ** A sample engine and sample tables *)

(** Positions are their signatures and a move perturbs the signature.
    [exp] and [log] are stand-ins with the two properties of the functions
    of <cmath> that [full] relies on when no write has been counted: [exp]
    maps a zero to 1 and [log] returns a finite number. *)
Definition sample_engine : Engine := {|
  MOVE_NONE := 0;
  VALUE_NONE := 30002;
  OnePly := 2;
  sizeof_TTEntry := 16;
  Position := Key;
  get_key := fun p => p;
  do_move := fun p m => Z.lxor (2 * p) m;
  exp := fun _ => Double.of_Z 1;
  log := fun _ => S754_zero false
|}.

(** A table of 4 clusters (16 slots) of generation 1 whose cluster 0 holds
    [A = 4], written in the current search with depth 5, and three entries
    of the previous search with depth 1. *)
Definition scenario_table : TranspositionTable :=
  mkTT 4 0
    ([ TTEntry.make 4 100 VALUE_TYPE_EXACT 5 77 1;
       TTEntry.make 8 10 VALUE_TYPE_UPPER 1 0 0;
       TTEntry.make 12 20 VALUE_TYPE_LOWER 1 0 0;
       TTEntry.make 16 30 VALUE_TYPE_EXACT 1 0 0 ]
     ++ replicate 12 TTEntry.zero)
    1.

(** A reachable sample table: one cluster, cleared, then a store for the
    signature 5. *)
Definition one_cluster : TranspositionTable :=
  mkTT 1 0 (replicate 4 TTEntry.zero) 0.

Definition sample_table : TranspositionTable :=
  store (E := sample_engine) (clear one_cluster) 5 40 VALUE_TYPE_EXACT 6 11.

(** An array with an empty slot before the slot that holds the signature 5.
    No sequence of calls with signatures other than 0 produces it. *)
Definition holed_table : TranspositionTable :=
  mkTT 1 0
    [ TTEntry.zero; TTEntry.make 5 40 VALUE_TYPE_EXACT 6 11 0;
      TTEntry.zero; TTEntry.zero ]
    0.

(** What [set_size 4] makes of a new table when an entry takes 16 bytes:
    65536 clusters. *)
Definition new_table_4mb : TranspositionTable :=
  clear (mkTT 65536 0
           (replicate (Z.to_nat (Machine.u32 (65536 * 4))) TTEntry.zero) 0).

(** That table after a [store] for the signature 1. *)
Definition table_4mb : TranspositionTable :=
  store (E := sample_engine) new_table_4mb 1 40 VALUE_TYPE_EXACT 6 11.

(** [sample_table] filled up: the four slots of its cluster hold the
    signatures 5, 6, 7 and 8, with depths 6, 4, 3 and 2. *)
Definition full_table : TranspositionTable :=
  store (E := sample_engine)
    (store (E := sample_engine)
       (store (E := sample_engine) sample_table 6 41 VALUE_TYPE_LOWER 4 12)
       7 42 VALUE_TYPE_UPPER 3 13)
    8 43 VALUE_TYPE_EXACT 2 14.

(** A cleared table of two clusters. *)
Definition two_clusters : TranspositionTable :=
  clear (mkTT 2 0 (replicate 8 TTEntry.zero) 0).

(** [sample_engine] with stand-ins for [exp] and [log] that follow the
    functions of <cmath> at the special values: a NaN is passed on, the
    logarithm of a negative number is a NaN. *)
Definition special_values_engine : Engine := {|
  MOVE_NONE := 0;
  VALUE_NONE := 30002;
  OnePly := 2;
  sizeof_TTEntry := 16;
  Position := Key;
  get_key := fun p => p;
  do_move := fun p m => Z.lxor (2 * p) m;
  exp := fun x => match x with S754_nan => S754_nan | _ => Double.of_Z 1 end;
  log := fun x =>
    match x with
    | S754_zero _ => S754_infinity true
    | S754_finite false _ _ => S754_zero false
    | S754_infinity false => S754_infinity false
    | _ => S754_nan
    end
|}.

(** [full_table] after one more [store], which evicts: the write counter
    is 1. *)
Definition evicted_table : TranspositionTable :=
  store (E := sample_engine) full_table 9 44 VALUE_TYPE_EXACT 1 15.

(** A table of 1024 clusters, the smallest [set_size] gives, after 200000
    evictions. *)
Definition saturated_table : TranspositionTable :=
  mkTT 1024 200000 (replicate 4096 TTEntry.zero) 0.

(** [sample_engine] with step functions for [exp] and [log]: the logarithm
    is -1/4 everywhere, the exponential is 1 from 0 on, 1/2 between -1 and
    0, and 1/4 up to -1. *)
Definition coarse_engine : Engine := {|
  MOVE_NONE := 0;
  VALUE_NONE := 30002;
  OnePly := 2;
  sizeof_TTEntry := 16;
  Position := Key;
  get_key := fun p => p;
  do_move := fun p m => Z.lxor (2 * p) m;
  exp := fun a =>
    if SFleb a (Double.of_Z (-1)) then Double.div (Double.of_Z 1) (Double.of_Z 4)
    else if SFleb (Double.of_Z 0) a then Double.of_Z 1
    else Double.div (Double.of_Z 1) (Double.of_Z 2);
  log := fun _ => Double.div (Double.of_Z (-1)) (Double.of_Z 4)
|}.

(** [sample_engine] with [exp] and [log] tabulated at the arguments [full]
    passes them for 1024 clusters and 200000 writes: the doubles nearest to
    log(4095/4096) = -0.000244170432... and to exp(-48.8340864...)
    = 6.18907481...e-22, which the C library returns. *)
Definition tabulated_engine : Engine := {|
  MOVE_NONE := 0;
  VALUE_NONE := 30002;
  OnePly := 2;
  sizeof_TTEntry := 16;
  Position := Key;
  get_key := fun p => p;
  do_move := fun p m => Z.lxor (2 * p) m;
  exp := fun a =>
    if SFeqb a (S754_finite true 6872786670958339 (-47))
    then S754_finite false 6581353209811518 (-123)
    else Double.of_Z 1;
  log := fun x =>
    if SFeqb x (S754_finite false 9005000231485440 (-53))
    then S754_finite true 4504149472679257 (-64)
    else S754_zero false
|}.

(** ** Proof steps shared by the facts below *)

(** The four slots of a cluster, one goal each. *)
Ltac slots i :=
  destruct i as [|[|[|[|i]]]]; try lia.

Ltac conjs :=
  repeat match goal with |- _ /\ _ => split end.

(** ** Facts about the scan of a cluster *)

Section ScanFacts.

Context `{E : Engine}.

Lemma ValueType_eqb_eq a b : ValueType_eqb a b = true <-> a = b.
Proof. destruct a, b; simpl; split; congruence. Qed.

(** The arithmetic of [c1 + c2 + c3 > 0] is the comparison of
    [more_evictable]. *)
Lemma more_evictable_test gen (e r : TTEntry.t) :
  ((if TTEntry.generation r =? gen then 2 else 0)
   + (if TTEntry.generation e =? gen then -2 else 0)
   + (if TTEntry.depth e <? TTEntry.depth r then 1 else 0) >? 0) = true
  <-> more_evictable gen e r.
Proof.
  unfold more_evictable.
  destruct (Z.eqb_spec (TTEntry.generation r) gen),
           (Z.eqb_spec (TTEntry.generation e) gen),
           (Z.ltb_spec (TTEntry.depth e) (TTEntry.depth r));
    rewrite Z.gtb_ltb, Z.ltb_lt; lia.
Qed.

Ltac hit_done n :=
  exists n; rewrite ?Nat.add_0_r; conjs;
  first [ lia | congruence | reflexivity | tauto
        | intros j Hj; slots j; rewrite ?Nat.add_0_r; split; congruence ].

Ltac hit_slot e k ty :=
  destruct (Z.eqb_spec (TTEntry.key e) 0) as [?|?],
           (Z.eqb_spec (TTEntry.key e) k) as [?|?];
  cbn [orb negb andb];
  [ | | destruct (ValueType_eqb ty VALUE_TYPE_EVAL) eqn:Hty;
        [ apply ValueType_eqb_eq in Hty
        | assert (ty <> VALUE_TYPE_EVAL)
            by (rewrite <- ValueType_eqb_eq; congruence) ] | ].

Ltac pick_case a b :=
  match goal with
  | |- context [if ?c >? 0 then a else b] =>
      let H := fresh "Hpick" in
      destruct (c >? 0) eqn:H;
      [ apply more_evictable_test in H
      | apply not_true_iff_false in H; rewrite more_evictable_test in H ]
  end.

Ltac order_done :=
  repeat match goal with H : TTEntry.key _ <> _ |- _ => clear H end;
  unfold more_evictable in *; lia.

Ltac evict_done n :=
  exists n; rewrite ?Nat.add_0_r; conjs;
  [ lia | reflexivity
  | intros j Hj; slots j; rewrite ?Nat.add_0_r; split; assumption
  | intros j Hj; slots j; rewrite ?Nat.add_0_r; order_done
  | intros j Hj; slots j; rewrite ?Nat.add_0_r; order_done ].

(** What the four iterations of the loop of [store] decide, in terms of
    the four slots [e 0 .. e 3] of the cluster:
    - it aborts at the first slot that is empty or holds the signature,
      when that slot holds the signature and the type is the static
      evaluation;
    - it writes that slot otherwise;
    - when no slot is empty or holds the signature, it evicts the first
      slot that no other slot is more evictable than. *)
Lemma store_scan_spec es gen k ty m first :
  let e i := es !!! (first + i)%nat in
  match store_scan es gen k ty m first 0 first 4 with
  | Abort =>
      exists i, (i < 4)%nat /\ TTEntry.key (e i) = k /\ k <> 0 /\
        ty = VALUE_TYPE_EVAL /\
        forall j, (j < i)%nat ->
          TTEntry.key (e j) <> 0 /\ TTEntry.key (e j) <> k
  | Write tte m' =>
      exists i, (i < 4)%nat /\ tte = (first + i)%nat /\
        (TTEntry.key (e i) = 0 \/ TTEntry.key (e i) = k) /\
        (TTEntry.key (e i) <> 0 -> ty <> VALUE_TYPE_EVAL) /\
        m' = (if m =? MOVE_NONE then TTEntry.move (e i) else m) /\
        forall j, (j < i)%nat ->
          TTEntry.key (e j) <> 0 /\ TTEntry.key (e j) <> k
  | Evict r =>
      exists i, (i < 4)%nat /\ r = (first + i)%nat /\
        (forall j, (j < 4)%nat ->
           TTEntry.key (e j) <> 0 /\ TTEntry.key (e j) <> k) /\
        (forall j, (j < 4)%nat -> ~ more_evictable gen (e j) (e i)) /\
        (forall j, (j < i)%nat -> more_evictable gen (e i) (e j))
  end.
Proof.
  intros e; subst e; cbn [store_scan].
  rewrite Nat.add_0_r; simpl Nat.eqb; cbv iota beta.
  hit_slot (es !!! first) k ty; [ hit_done 0%nat .. | ].
  hit_slot (es !!! (first + 1)%nat) k ty; [ hit_done 1%nat .. | ].
  hit_slot (es !!! (first + 2)%nat) k ty; [ hit_done 2%nat .. | ].
  hit_slot (es !!! (first + 3)%nat) k ty; [ hit_done 3%nat .. | ].
  pick_case (first + 1)%nat first;
    (match goal with
     | |- context [if _ >? 0 then (first + 2)%nat else ?r] =>
         pick_case (first + 2)%nat r
     end);
    (match goal with
     | |- context [if _ >? 0 then (first + 3)%nat else ?r] =>
         pick_case (first + 3)%nat r
     end);
    match goal with
    | |- exists i, _ /\ first = _ /\ _ => evict_done 0%nat
    | |- exists i, _ /\ (first + 1)%nat = _ /\ _ => evict_done 1%nat
    | |- exists i, _ /\ (first + 2)%nat = _ /\ _ => evict_done 2%nat
    | |- exists i, _ /\ (first + 3)%nat = _ /\ _ => evict_done 3%nat
    end.
Qed.

(** What the loop of [retrieve] returns. *)
Lemma retrieve_scan_spec es k first :
  let e i := es !!! (first + i)%nat in
  match retrieve_scan es k first 0 4 with
  | Some tte =>
      exists i, (i < 4)%nat /\ tte = (first + i)%nat /\
        TTEntry.key (e i) = k /\
        forall j, (j < i)%nat -> TTEntry.key (e j) <> k
  | None => forall j, (j < 4)%nat -> TTEntry.key (e j) <> k
  end.
Proof.
  intros e; subst e; cbn [retrieve_scan].
  destruct (Z.eqb_spec (TTEntry.key (es !!! (first + 0)%nat)) k);
    [ exists 0%nat; conjs; [ lia | reflexivity | assumption | intros j Hj; lia ] | ].
  destruct (Z.eqb_spec (TTEntry.key (es !!! (first + 1)%nat)) k);
    [ exists 1%nat; conjs; [ lia | reflexivity | assumption
                           | intros j Hj; slots j; assumption ] | ].
  destruct (Z.eqb_spec (TTEntry.key (es !!! (first + 2)%nat)) k);
    [ exists 2%nat; conjs; [ lia | reflexivity | assumption
                           | intros j Hj; slots j; assumption ] | ].
  destruct (Z.eqb_spec (TTEntry.key (es !!! (first + 3)%nat)) k);
    [ exists 3%nat; conjs; [ lia | reflexivity | assumption
                           | intros j Hj; slots j; assumption ] | ].
  intros j Hj; slots j; assumption.
Qed.

End ScanFacts.

(** ** Facts about [store], [retrieve] and the tables they work on *)

Section StoreFacts.
Context `{E : Engine}.

Lemma sized_bounds t : sized t -> 1 <= size t <= 2 ^ 29.
Proof.
  intros (j & Hj & Hs & _). rewrite Hs. split.
  - assert (0 < 2 ^ j) by (apply Z.pow_pos_nonneg; lia). lia.
  - apply Z.pow_le_mono_r; lia.
Qed.

Lemma cluster_of_range t k : sized t -> 0 <= cluster_of t k < size t.
Proof.
  intros (j & Hj & Hs & _). unfold cluster_of. rewrite Hs.
  replace (2 ^ j - 1) with (Z.ones j) by (rewrite Z.ones_equiv; lia).
  rewrite Z.land_ones by lia. apply Z.mod_pos_bound.
  apply Z.pow_pos_nonneg; lia.
Qed.

Lemma first_entry_sized t k :
  sized t -> first_entry t k = 4 * cluster_of t k.
Proof.
  intros Hs. pose proof (sized_bounds t Hs) as Hb.
  pose proof (cluster_of_range t k Hs) as Hc.
  unfold first_entry, cluster_of in *. unfold Machine.u32, Machine.to_int.
  rewrite (Z.mod_small (size t - 1)) by lia.
  rewrite (Z.mod_small (Z.land k (size t - 1))) by lia.
  destruct (Z.ltb_spec (Z.land k (size t - 1)) (2 ^ 31)); [ | lia ].
  rewrite Z.shiftl_mul_pow2 by lia. lia.
Qed.

Lemma first_entry_slot t k i :
  sized t ->
  entries t !!! (Z.to_nat (first_entry t k) + i)%nat = slot t (cluster_of t k) i.
Proof. intros Hs. unfold slot. now rewrite first_entry_sized. Qed.

Lemma slot_in_range t c i :
  sized t -> 0 <= c < size t -> (i < 4)%nat ->
  (Z.to_nat (4 * c) + i < length (entries t))%nat.
Proof. intros (j & Hj & Hs & Hl) Hc Hi. rewrite Hl. lia. Qed.

Lemma slot_index_inj c c' i i' :
  0 <= c -> 0 <= c' -> (i < 4)%nat -> (i' < 4)%nat ->
  (Z.to_nat (4 * c) + i)%nat = (Z.to_nat (4 * c') + i')%nat -> c = c' /\ i = i'.
Proof. lia. Qed.

(** The three ways [store] ends. *)
Lemma store_cases t k v ty d m :
  let first := Z.to_nat (first_entry t k) in
  let e i := entries t !!! (first + i)%nat in
  (store t k v ty d m = t /\
   exists i, (i < 4)%nat /\ TTEntry.key (e i) = k /\ k <> 0 /\
     ty = VALUE_TYPE_EVAL /\
     forall j, (j < i)%nat -> TTEntry.key (e j) <> 0 /\ TTEntry.key (e j) <> k)
  \/
  (exists i, (i < 4)%nat /\
     store t k v ty d m =
       mkTT (size t) (writes t)
         (<[(first + i)%nat :=
              TTEntry.make k v ty d
                (if m =? MOVE_NONE then TTEntry.move (e i) else m)
                (generation t)]> (entries t))
         (generation t) /\
     (TTEntry.key (e i) = 0 \/ TTEntry.key (e i) = k) /\
     (TTEntry.key (e i) <> 0 -> ty <> VALUE_TYPE_EVAL) /\
     forall j, (j < i)%nat -> TTEntry.key (e j) <> 0 /\ TTEntry.key (e j) <> k)
  \/
  (exists i, (i < 4)%nat /\
     store t k v ty d m =
       mkTT (size t) (Machine.u32 (writes t + 1))
         (<[(first + i)%nat := TTEntry.make k v ty d m (generation t)]> (entries t))
         (generation t) /\
     (forall j, (j < 4)%nat -> TTEntry.key (e j) <> 0 /\ TTEntry.key (e j) <> k) /\
     (forall j, (j < 4)%nat -> ~ more_evictable (generation t) (e j) (e i)) /\
     (forall j, (j < i)%nat -> more_evictable (generation t) (e i) (e j))).
Proof.
  intros first e. unfold store. fold first.
  pose proof (store_scan_spec (entries t) (generation t) k ty m first) as H.
  cbv zeta in H.
  destruct (store_scan (entries t) (generation t) k ty m first 0 first 4)
    as [ | tte m' | r ].
  - left. split; [ reflexivity | exact H ].
  - right; left. destruct H as (i & Hi & -> & Hk & Hty & -> & Hbefore).
    exists i. subst e. cbv beta. auto.
  - right; right. destruct H as (i & Hi & -> & Hall & Hmin & Hfirst).
    exists i. auto.
Qed.

Lemma store_size t k v ty d m : size (store t k v ty d m) = size t.
Proof.
  unfold store.
  destruct (store_scan _ _ _ _ _ _ _ _ _); reflexivity.
Qed.

Lemma store_generation t k v ty d m :
  generation (store t k v ty d m) = generation t.
Proof.
  unfold store.
  destruct (store_scan _ _ _ _ _ _ _ _ _); reflexivity.
Qed.

Lemma store_length t k v ty d m :
  length (entries (store t k v ty d m)) = length (entries t).
Proof.
  unfold store.
  destruct (store_scan _ _ _ _ _ _ _ _ _); simpl;
    rewrite ?length_insert; reflexivity.
Qed.

Lemma store_sized t k v ty d m : sized t -> sized (store t k v ty d m).
Proof.
  intros (j & Hj & Hs & Hl). exists j.
  rewrite store_size, store_length. auto.
Qed.

Lemma store_first_entry t k v ty d m k' :
  first_entry (store t k v ty d m) k' = first_entry t k'.
Proof. unfold first_entry. now rewrite store_size. Qed.


Lemma cluster_inv_ext f g :
  (forall j, (j < 4)%nat -> f j = g j) -> cluster_inv f -> cluster_inv g.
Proof.
  intros Hfg [Hp Hd]. split.
  - intros i j Hij. rewrite <- !Hfg by lia. apply Hp; lia.
  - intros i j Hi Hj. rewrite <- !Hfg by lia. apply Hd; lia.
Qed.

(** Writing the first slot that is empty or holds [k]. *)
Lemma cluster_inv_write f i k :
  cluster_inv f -> (i < 4)%nat -> k <> 0 ->
  (f i = 0 \/ f i = k) ->
  (forall j, (j < i)%nat -> f j <> 0 /\ f j <> k) ->
  cluster_inv (upd f i k).
Proof.
  intros [Hp Hd] Hi Hk Hhit Hbefore. unfold upd. split.
  - intros a b Hab. destruct (decide (a = i)) as [->|Ha]; [ congruence | ].
    intros Hfa. destruct (decide (b = i)) as [->|Hb].
    + destruct (Hbefore a) as [Hnz _]; [ lia | congruence ].
    + apply (Hp a b); auto.
  - intros a b Ha Hb.
    destruct (decide (a = i)) as [->|Hai], (decide (b = i)) as [->|Hbi];
      try congruence.
    + intros _ Hkb. exfalso.
      destruct (Nat.lt_ge_cases b i) as [Hlt|Hge].
      * destruct (Hbefore b Hlt); congruence.
      * destruct Hhit as [Hz|Hik].
        -- assert (f b = 0) by (apply (Hp i b); [ lia | exact Hz ]). congruence.
        -- apply Hbi. symmetry. apply Hd; congruence.
    + intros Hnz Hak. exfalso.
      destruct (Nat.lt_ge_cases a i) as [Hlt|Hge].
      * destruct (Hbefore a Hlt); congruence.
      * destruct Hhit as [Hz|Hik].
        -- assert (f a = 0) by (apply (Hp i a); [ lia | exact Hz ]). congruence.
        -- apply Hai. symmetry. apply Hd; congruence.
    + apply Hd; auto.
Qed.

(** Overwriting a slot of a cluster that is full of other signatures. *)
Lemma cluster_inv_evict f i k :
  cluster_inv f -> (i < 4)%nat -> k <> 0 ->
  (forall j, (j < 4)%nat -> f j <> 0 /\ f j <> k) ->
  cluster_inv (upd f i k).
Proof.
  intros [Hp Hd] Hi Hk Hall. unfold upd. split.
  - intros a b Hab. destruct (decide (a = i)) as [->|Ha]; [ congruence | ].
    intros Hfa. destruct (Hall a) as [Hnz _]; [ lia | congruence ].
  - intros a b Ha Hb.
    destruct (decide (a = i)) as [->|Hai], (decide (b = i)) as [->|Hbi];
      try congruence.
    + intros _ Hkb. destruct (Hall b Hb); congruence.
    + intros _ Hak. destruct (Hall a Ha); congruence.
    + apply Hd; auto.
Qed.

(** The slots of a table after one entry of cluster [c] is overwritten. *)
Lemma slot_insert t s w g c i x c' j :
  sized t -> 0 <= c < size t -> 0 <= c' -> (i < 4)%nat -> (j < 4)%nat ->
  slot (mkTT s w (<[(Z.to_nat (4 * c) + i)%nat := x]> (entries t)) g) c' j =
  if decide (c' = c /\ j = i) then x else slot t c' j.
Proof.
  intros Hs Hc Hc' Hi Hj. unfold slot; simpl.
  destruct (decide (c' = c /\ j = i)) as [[-> ->]|Hne].
  - apply list_lookup_total_insert_eq. now apply slot_in_range.
  - apply list_lookup_total_insert_ne. intros Heq.
    apply slot_index_inj in Heq; [ | lia ..]. destruct Heq. auto.
Qed.

Lemma store_inv t k v ty d m :
  table_inv t -> k <> 0 -> table_inv (store t k v ty d m).
Proof.
  intros [Hs Hinv] Hk. split; [ now apply store_sized | ].
  rewrite store_size. intros c Hc.
  pose proof (cluster_of_range t k Hs) as Hc0.
  pose proof (store_cases t k v ty d m) as Hcases. cbv zeta in Hcases.
  rewrite (first_entry_sized t k Hs) in Hcases.
  fold (slot t (cluster_of t k)) in Hcases.
  destruct Hcases as [[-> _] | [(i & Hi & -> & Hhit & _ & Hbefore)
                              | (i & Hi & -> & Hall & _)]].
  - now apply Hinv.
  - destruct (decide (c = cluster_of t k)) as [->|Hne].
    + eapply cluster_inv_ext;
        [ | apply (cluster_inv_write _ i k (Hinv _ Hc0) Hi Hk Hhit Hbefore) ].
      intros j Hj. unfold upd. rewrite slot_insert by (auto; lia).
      destruct (decide (j = i)) as [->|].
      * rewrite decide_True by auto. reflexivity.
      * rewrite decide_False by tauto. reflexivity.
    + eapply cluster_inv_ext; [ | apply (Hinv c Hc) ].
      intros j Hj. rewrite slot_insert by (auto; lia).
      rewrite decide_False by tauto. reflexivity.
  - destruct (decide (c = cluster_of t k)) as [->|Hne].
    + eapply cluster_inv_ext;
        [ | apply (cluster_inv_evict _ i k (Hinv _ Hc0) Hi Hk Hall) ].
      intros j Hj. unfold upd. rewrite slot_insert by (auto; lia).
      destruct (decide (j = i)) as [->|].
      * rewrite decide_True by auto. reflexivity.
      * rewrite decide_False by tauto. reflexivity.
    + eapply cluster_inv_ext; [ | apply (Hinv c Hc) ].
      intros j Hj. rewrite slot_insert by (auto; lia).
      rewrite decide_False by tauto. reflexivity.
Qed.


Lemma clear_entries t :
  sized t -> entries (clear t) = replicate (Z.to_nat (4 * size t)) TTEntry.zero.
Proof.
  intros Hs. pose proof (sized_bounds t Hs) as Hb.
  destruct Hs as (j & Hj & Hsz & Hl). unfold clear; simpl.
  unfold Machine.u32. rewrite Z.mod_small by lia.
  replace (size t * 4) with (4 * size t) by lia.
  rewrite drop_ge by lia. apply app_nil_r.
Qed.

Lemma clear_sized t : sized t -> sized (clear t).
Proof.
  intros Hs. pose proof (clear_entries t Hs) as He.
  destruct Hs as (j & Hj & Hsz & Hl). exists j.
  rewrite He, length_replicate. auto.
Qed.

Lemma clear_slot t c i :
  sized t -> 0 <= c < size t -> (i < 4)%nat -> slot (clear t) c i = TTEntry.zero.
Proof.
  intros Hs Hc Hi. unfold slot. rewrite clear_entries by assumption.
  apply lookup_total_replicate_2. lia.
Qed.

Lemma clear_inv t : sized t -> table_inv (clear t).
Proof.
  intros Hs. split; [ now apply clear_sized | ].
  intros c Hc. change (size (clear t)) with (size t) in Hc. split.
  - intros i j Hij _. rewrite clear_slot by (auto; lia). reflexivity.
  - intros i j Hi Hj Hnz. rewrite clear_slot in Hnz by (auto; lia).
    now destruct Hnz.
Qed.

Lemma new_search_inv t : table_inv t -> table_inv (new_search t).
Proof. intros [Hs Hinv]. split; [ exact Hs | exact Hinv ]. Qed.

Lemma insert_pv_inv pv : forall t p t',
  table_inv t -> Forall (fun k => k <> 0) (pv_keys p pv) ->
  insert_pv t p pv = Some t' -> table_inv t'.
Proof.
  induction pv as [|m pv IH]; intros t p t' Hinv Hkeys Hrun; simpl in *.
  - discriminate.
  - destruct (m =? MOVE_NONE).
    + congruence.
    + inversion Hkeys as [|? ? Hk Hrest]; subst.
      eapply IH; [ | exact Hrest | exact Hrun ].
      now apply store_inv.
Qed.

Lemma reachable_inv t : reachable t -> table_inv t.
Proof.
  induction 1 as [ t Hs | t k v ty d m _ IH Hk | t _ IH | t p pv t' _ IH Hkeys Hrun ].
  - now apply clear_inv.
  - now apply store_inv.
  - now apply new_search_inv.
  - eapply insert_pv_inv; eauto.
Qed.

Lemma reachable_sized t : reachable t -> sized t.
Proof. intros H. apply reachable_inv in H. apply H. Qed.

(** What [retrieve] returns, in terms of the slots of the cluster. *)
Lemma retrieve_cases t k :
  sized t ->
  let c := cluster_of t k in
  match retrieve t k with
  | Some tte =>
      exists i, (i < 4)%nat /\ tte = (Z.to_nat (4 * c) + i)%nat /\
        TTEntry.key (slot t c i) = k /\
        forall j, (j < i)%nat -> TTEntry.key (slot t c j) <> k
  | None => forall j, (j < 4)%nat -> TTEntry.key (slot t c j) <> k
  end.
Proof.
  intros Hs c. unfold retrieve.
  pose proof (retrieve_scan_spec (entries t) k (Z.to_nat (first_entry t k))) as H.
  cbv zeta in H. rewrite (first_entry_sized t k Hs) in *.
  exact H.
Qed.

(** A table whose slot [i] of the cluster of [k] was just overwritten with
    an entry for [k], no earlier slot holding [k]: [retrieve] finds that
    slot. *)
Lemma retrieve_insert t k x i w :
  sized t -> (i < 4)%nat -> TTEntry.key x = k ->
  let c := cluster_of t k in
  (forall j, (j < i)%nat -> TTEntry.key (slot t c j) <> k) ->
  retrieve (mkTT (size t) w (<[(Z.to_nat (4 * c) + i)%nat := x]> (entries t))
              (generation t)) k
  = Some (Z.to_nat (4 * c) + i)%nat.
Proof.
  intros Hs Hi Hx c Hbefore.
  pose proof (cluster_of_range t k Hs) as Hc. fold c in Hc.
  set (t' := mkTT _ _ _ _).
  assert (Hs' : sized t').
  { destruct Hs as (j & Hj & Hsz & Hl). exists j. subst t'; simpl.
    rewrite length_insert. auto. }
  pose proof (retrieve_cases t' k Hs') as H. cbv zeta in H.
  change (cluster_of t' k) with c in H.
  assert (Hslot : forall j, (j < 4)%nat ->
            slot t' c j = if decide (j = i) then x else slot t c j).
  { intros j Hj. subst t'. rewrite slot_insert by (auto; lia).
    destruct (decide (j = i)) as [->|].
    - rewrite decide_True by auto. reflexivity.
    - rewrite decide_False by tauto. reflexivity. }
  destruct (retrieve t' k) as [tte|].
  - destruct H as (i' & Hi' & -> & Hk' & Hfirst). f_equal. f_equal.
    destruct (Nat.lt_trichotomy i' i) as [Hlt|[Heq|Hgt]]; [ | exact Heq | ].
    + rewrite Hslot in Hk' by lia. rewrite decide_False in Hk' by lia.
      now destruct (Hbefore i' Hlt).
    + specialize (Hfirst i Hgt). rewrite Hslot in Hfirst by lia.
      rewrite decide_True in Hfirst by reflexivity. contradiction.
  - specialize (H i Hi). rewrite Hslot in H by lia.
    rewrite decide_True in H by reflexivity. contradiction.
Qed.

(** In a table that satisfies the invariant, the slot at which the scan
    of [store] stops is the one [retrieve] returns. *)
Lemma first_hit_retrieved t k tte i :
  table_inv t -> k <> 0 -> retrieve t k = Some tte -> (i < 4)%nat ->
  let c := cluster_of t k in
  (TTEntry.key (slot t c i) = 0 \/ TTEntry.key (slot t c i) = k) ->
  (forall j, (j < i)%nat ->
     TTEntry.key (slot t c j) <> 0 /\ TTEntry.key (slot t c j) <> k) ->
  tte = (Z.to_nat (4 * c) + i)%nat /\ TTEntry.key (slot t c i) = k.
Proof.
  intros [Hs Hinv] Hk Hret Hi c Hhit Hbefore.
  pose proof (cluster_of_range t k Hs) as Hc. fold c in Hc.
  destruct (Hinv c Hc) as [Hp Hd].
  pose proof (retrieve_cases t k Hs) as H. cbv zeta in H. fold c in H.
  rewrite Hret in H. destruct H as (i' & Hi' & -> & Hk' & Hfirst).
  destruct (Nat.lt_trichotomy i' i) as [Hlt|[->|Hgt]].
  - destruct (Hbefore i' Hlt). contradiction.
  - auto.
  - destruct Hhit as [Hz|Hik].
    + assert (TTEntry.key (slot t c i') = 0) by (apply (Hp i i'); [ lia | exact Hz ]).
      congruence.
    + now destruct (Hfirst i Hgt).
Qed.


(** A [store] that does not abort writes one slot, and [retrieve] then
    returns that slot. *)
Lemma store_written t k v ty d m :
  sized t -> (ty = VALUE_TYPE_EVAL -> retrieve t k = None) ->
  let c := cluster_of t k in
  exists i w m', (i < 4)%nat /\
    store t k v ty d m =
      mkTT (size t) w
        (<[(Z.to_nat (4 * c) + i)%nat := TTEntry.make k v ty d m' (generation t)]>
           (entries t))
        (generation t) /\
    retrieve (store t k v ty d m) k = Some (Z.to_nat (4 * c) + i)%nat /\
    (m' = m \/ (m = MOVE_NONE /\ m' = TTEntry.move (slot t c i))) /\
    (forall j, (j < i)%nat -> TTEntry.key (slot t c j) <> k).
Proof.
  intros Hs Hty c.
  pose proof (store_cases t k v ty d m) as Hcases. cbv zeta in Hcases.
  rewrite (first_entry_sized t k Hs) in Hcases.
  fold (slot t (cluster_of t k)) in Hcases. fold c in Hcases.
  destruct Hcases as [[_ (i & Hi & Hki & _ & Hev & _)]
                     | [(i & Hi & Hst & _ & _ & Hbefore)
                       | (i & Hi & Hst & Hall & _)]].
  - exfalso. pose proof (retrieve_cases t k Hs) as H. cbv zeta in H.
    rewrite (Hty Hev) in H. now apply (H i Hi).
  - exists i, (writes t),
      (if m =? MOVE_NONE then TTEntry.move (slot t c i) else m).
    split; [ exact Hi | ]. split; [ exact Hst | ]. split; [ | split ].
    + rewrite Hst. apply retrieve_insert; auto.
      intros j Hj. now apply Hbefore.
    + destruct (Z.eqb_spec m MOVE_NONE); auto.
    + intros j Hj. now apply Hbefore.
  - exists i, (Machine.u32 (writes t + 1)), m.
    split; [ exact Hi | ]. split; [ exact Hst | ]. split; [ | split ].
    + rewrite Hst. apply retrieve_insert; auto.
      intros j Hj. apply Hall. lia.
    + auto.
    + intros j Hj. apply Hall. lia.
Qed.

(** When the first slot of the cluster that is empty or holds [k] holds
    [k], a [store] of a static evaluation changes nothing. *)
Lemma store_eval_aborts t k v d m i :
  sized t -> k <> 0 -> (i < 4)%nat ->
  let c := cluster_of t k in
  TTEntry.key (slot t c i) = k ->
  (forall j, (j < i)%nat -> TTEntry.key (slot t c j) <> 0) ->
  store t k v VALUE_TYPE_EVAL d m = t.
Proof.
  intros Hs Hk Hi c Hki Hbefore.
  pose proof (store_cases t k v VALUE_TYPE_EVAL d m) as Hcases. cbv zeta in Hcases.
  rewrite (first_entry_sized t k Hs) in Hcases.
  fold (slot t (cluster_of t k)) in Hcases. fold c in Hcases.
  destruct Hcases as [[Hst _]
                     | [(i2 & Hi2 & _ & Hhit & Hne & Hbefore2)
                       | (i2 & Hi2 & _ & Hall & _)]].
  - exact Hst.
  - exfalso.
    assert (Hz : TTEntry.key (slot t c i2) = 0).
    { destruct (Z.eq_dec (TTEntry.key (slot t c i2)) 0) as [Hz|Hnz]; [ exact Hz | ].
      now destruct (Hne Hnz). }
    destruct (Nat.lt_trichotomy i2 i) as [Hlt|[->|Hgt]].
    + now apply (Hbefore i2).
    + congruence.
    + destruct (Hbefore2 i Hgt). contradiction.
  - exfalso. destruct (Hall i Hi). contradiction.
Qed.

Lemma inserted_entry t c i x :
  sized t -> 0 <= c < size t -> (i < 4)%nat ->
  <[(Z.to_nat (4 * c) + i)%nat := x]> (entries t) !!! (Z.to_nat (4 * c) + i)%nat = x.
Proof.
  intros Hs Hc Hi. apply list_lookup_total_insert_eq. now apply slot_in_range.
Qed.

End StoreFacts.

(** Side conditions on the shape of a table. *)
Create HintDb tt.
#[global] Hint Resolve store_sized clear_sized reachable_sized reachable_inv
  store_inv clear_inv new_search_inv : tt.

(** ** Eviction *)

Section Eviction.
Context `{E : Engine}.

(** C1.  When the four slots of the cluster hold signatures other than the
    stored one, [store] evicts one slot [i] of the cluster.  If the cluster
    holds an entry of a previous generation, the victim is of a previous
    generation (so no entry of the current generation is the victim); among
    the entries as stale as the victim none is shallower than it. *)
Theorem store_evicts_stale_shallow t k v ty d m :
  let first := Z.to_nat (first_entry t k) in
  let e i := entries t !!! (first + i)%nat in
  (forall i, (i < 4)%nat -> TTEntry.key (e i) <> 0 /\ TTEntry.key (e i) <> k) ->
  exists i, (i < 4)%nat /\
    store t k v ty d m =
      mkTT (size t) (Machine.u32 (writes t + 1))
        (<[(first + i)%nat := TTEntry.make k v ty d m (generation t)]> (entries t))
        (generation t) /\
    ((exists j, (j < 4)%nat /\ TTEntry.generation (e j) <> generation t) ->
     TTEntry.generation (e i) <> generation t /\
     forall a, (a < 4)%nat -> TTEntry.generation (e a) = generation t -> i <> a) /\
    (forall j, (j < 4)%nat ->
       (TTEntry.generation (e j) = generation t <->
        TTEntry.generation (e i) = generation t) ->
       TTEntry.depth (e i) <= TTEntry.depth (e j)).
Proof.
  intros first e Hfull.
  pose proof (store_cases t k v ty d m) as Hcases. cbv zeta in Hcases.
  fold first in Hcases. fold e in Hcases.
  destruct Hcases as [[_ (i & Hi & Hki & _)]
                     | [(i & Hi & _ & Hhit & _)
                       | (i & Hi & Hst & _ & Hmin & _)]].
  - destruct (Hfull i Hi). contradiction.
  - destruct (Hfull i Hi). tauto.
  - exists i. split; [ exact Hi | ]. split; [ exact Hst | ].
    assert (Hstale : (exists j, (j < 4)%nat /\ TTEntry.generation (e j) <> generation t) ->
                     TTEntry.generation (e i) <> generation t).
    { intros (j & Hj & Hgen) Hcur. apply (Hmin j Hj). left. auto. }
    split.
    + intros Hex. split; [ now apply Hstale | ].
      intros a Ha Hcur ->. now apply Hstale.
    + intros j Hj Hsame.
      destruct (Z.le_gt_cases (TTEntry.depth (e i)) (TTEntry.depth (e j)))
        as [Hle|Hgt]; [ exact Hle | ].
      exfalso. apply (Hmin j Hj). right. split; [ exact Hsame | lia ].
Qed.

End Eviction.

Lemma store_evicts_stale_shallow_witness :
  (forall i, (i < 4)%nat ->
     TTEntry.key (entries scenario_table !!! (0 + i)%nat) <> 0 /\
     TTEntry.key (entries scenario_table !!! (0 + i)%nat) <> 20) /\
  exists i, (i < 4)%nat /\
    store (E := sample_engine) scenario_table 20 50 VALUE_TYPE_LOWER 3 9 =
      mkTT 4 1
        (<[(0 + i)%nat := TTEntry.make 20 50 VALUE_TYPE_LOWER 3 9 1]>
           (entries scenario_table)) 1 /\
    TTEntry.generation (entries scenario_table !!! (0 + i)%nat) <> 1.
Proof.
  assert (Hfull : forall i, (i < 4)%nat ->
     TTEntry.key (entries scenario_table !!! (0 + i)%nat) <> 0 /\
     TTEntry.key (entries scenario_table !!! (0 + i)%nat) <> 20).
  { intros i Hi. slots i; vm_compute; split; discriminate. }
  split; [ exact Hfull | ].
  destruct (store_evicts_stale_shallow (E := sample_engine)
              scenario_table 20 50 VALUE_TYPE_LOWER 3 9 Hfull)
    as (i & Hi & Hst & Hstale & _).
  exists i. split; [ exact Hi | ]. split; [ exact Hst | ].
  apply Hstale. exists 1%nat. split; [ lia | vm_compute; discriminate ].
Defined.

(** The scenario evaluated: the new entry replaces the depth-1 entry of
    slot 1, and [A] stays in slot 0. *)
Example scenario_evicts_slot_1 :
  store (E := sample_engine) scenario_table 20 50 VALUE_TYPE_LOWER 3 9 =
    mkTT 4 1
      ([ TTEntry.make 4 100 VALUE_TYPE_EXACT 5 77 1;
         TTEntry.make 20 50 VALUE_TYPE_LOWER 3 9 1;
         TTEntry.make 12 20 VALUE_TYPE_LOWER 1 0 0;
         TTEntry.make 16 30 VALUE_TYPE_EXACT 1 0 0 ]
       ++ replicate 12 TTEntry.zero)
      1.
Proof. vm_compute. reflexivity. Qed.

(** ** Store and retrieve *)

Section StoreRetrieve.
Context `{E : Engine}.

(** In a table that satisfies the invariant, a [store] for a signature the
    cluster holds, of a type other than the static evaluation, overwrites
    the slot [retrieve] returns. *)
Lemma store_overwrites t S v ty d m tte :
  table_inv t -> S <> 0 -> retrieve t S = Some tte ->
  ty <> VALUE_TYPE_EVAL ->
  store t S v ty d m =
    mkTT (size t) (writes t)
      (<[tte := TTEntry.make S v ty d
                  (if m =? MOVE_NONE then TTEntry.move (entries t !!! tte) else m)
                  (generation t)]> (entries t))
      (generation t).
Proof.
  intros Hinv HS Hret Hty. pose proof Hinv as [Hs _].
  pose proof (store_cases t S v ty d m) as Hcases. cbv zeta in Hcases.
  rewrite (first_entry_sized t S Hs) in Hcases.
  fold (slot t (cluster_of t S)) in Hcases.
  destruct Hcases as [[_ (? & _ & _ & _ & Hev & _)]
                     | [(i & Hi & Hst & Hhit & _ & Hbefore)
                       | (i & Hi & _ & Hall & _)]].
  - contradiction.
  - destruct (first_hit_retrieved t S tte i Hinv HS Hret Hi Hhit Hbefore)
      as [-> _].
    exact Hst.
  - exfalso. pose proof (retrieve_cases t S Hs) as H. cbv zeta in H.
    rewrite Hret in H. destruct H as (i' & Hi' & _ & Hk & _).
    destruct (Hall i' Hi'). contradiction.
Qed.

(** [store] with a signature other than 0 leaves no occupied slot empty. *)
Lemma store_keeps_occupied t k v ty d m idx :
  k <> 0 -> TTEntry.key (entries t !!! idx) <> 0 ->
  TTEntry.key (entries (store t k v ty d m) !!! idx) <> 0.
Proof.
  intros Hk Hocc. unfold store.
  destruct (store_scan _ _ _ _ _ _ _ _ _); simpl;
    rewrite ?list_lookup_total_insert; try case_decide; simpl; auto.
Qed.

Lemma insert_pv_keeps_occupied pv : forall t p t' idx,
  Forall (fun k => k <> 0) (pv_keys p pv) ->
  insert_pv t p pv = Some t' ->
  TTEntry.key (entries t !!! idx) <> 0 ->
  TTEntry.key (entries t' !!! idx) <> 0.
Proof.
  induction pv as [|m pv IH]; intros t p t' idx Hkeys Hrun Hocc; simpl in *.
  - discriminate.
  - destruct (m =? MOVE_NONE).
    + congruence.
    + inversion Hkeys as [|? ? Hk Hrest]; subst.
      eapply IH; [ exact Hrest | exact Hrun | ].
      now apply store_keeps_occupied.
Qed.

(** A [store] that does not abort, and the [retrieve] that follows: the
    slot written, what it holds, and where its move comes from on each path
    of the scan. *)
Lemma store_written_move t S v ty d m :
  sized t -> (ty = VALUE_TYPE_EVAL -> retrieve t S = None) ->
  let c := cluster_of t S in
  exists i m', (i < 4)%nat /\
    let tte := (Z.to_nat (4 * c) + i)%nat in
    retrieve (store t S v ty d m) S = Some tte /\
    entries (store t S v ty d m)
    = <[tte := TTEntry.make S v ty d m' (generation t)]> (entries t) /\
    retrieve_entry (store t S v ty d m) S
    = Some (TTEntry.make S v ty d m' (generation t)) /\
    (forall j, (j < i)%nat ->
       TTEntry.key (slot t c j) <> 0 /\ TTEntry.key (slot t c j) <> S) /\
    (m <> MOVE_NONE -> m' = m) /\
    (m = MOVE_NONE ->
     (exists j, (j < 4)%nat /\
        (TTEntry.key (slot t c j) = 0 \/ TTEntry.key (slot t c j) = S)) ->
     m' = TTEntry.move (entries t !!! tte)) /\
    (m = MOVE_NONE ->
     (forall j, (j < 4)%nat ->
        TTEntry.key (slot t c j) <> 0 /\ TTEntry.key (slot t c j) <> S) ->
     m' = MOVE_NONE) /\
    (table_inv t -> S <> 0 -> forall old, retrieve t S = Some old ->
     old = tte /\ (m = MOVE_NONE -> m' = TTEntry.move (entries t !!! old))).
Proof.
  intros Hs Hty c.
  pose proof (cluster_of_range t S Hs) as Hc. fold c in Hc.
  pose proof (store_cases t S v ty d m) as Hcases. cbv zeta in Hcases.
  rewrite (first_entry_sized t S Hs) in Hcases.
  fold (slot t (cluster_of t S)) in Hcases. fold c in Hcases.
  destruct Hcases as [[_ (i & Hi & Hki & _ & Hev & _)]
                     | [(i & Hi & Hst & Hhit & _ & Hbefore)
                       | (i & Hi & Hst & Hall & _)]].
  - exfalso. pose proof (retrieve_cases t S Hs) as H. cbv zeta in H.
    rewrite (Hty Hev) in H. now apply (H i Hi).
  - exists i, (if m =? MOVE_NONE then TTEntry.move (slot t c i) else m).
    split; [ exact Hi | ]. cbv zeta.
    assert (Hret : retrieve (store t S v ty d m) S = Some (Z.to_nat (4 * c) + i)%nat).
    { rewrite Hst. apply retrieve_insert; auto. intros j Hj. now apply Hbefore. }
    split; [ exact Hret | ]. split; [ now rewrite Hst | ].
    split; [ unfold retrieve_entry; rewrite Hret; simpl; rewrite Hst; simpl;
             now rewrite inserted_entry | ].
    split; [ exact Hbefore | ].
    split; [ intros Hm; destruct (Z.eqb_spec m MOVE_NONE); congruence | ].
    split; [ intros -> _; now rewrite Z.eqb_refl | ].
    split; [ intros _ Hfull; destruct (Hfull i Hi); tauto | ].
    intros Hinv HS old Hold.
    destruct (first_hit_retrieved t S old i Hinv HS Hold Hi Hhit Hbefore) as [-> _].
    split; [ reflexivity | ]. intros ->. now rewrite Z.eqb_refl.
  - exists i, m. split; [ exact Hi | ]. cbv zeta.
    assert (Hret : retrieve (store t S v ty d m) S = Some (Z.to_nat (4 * c) + i)%nat).
    { rewrite Hst. apply retrieve_insert; auto. intros j Hj. apply Hall. lia. }
    split; [ exact Hret | ]. split; [ now rewrite Hst | ].
    split; [ unfold retrieve_entry; rewrite Hret; simpl; rewrite Hst; simpl;
             now rewrite inserted_entry | ].
    split; [ intros j Hj; apply Hall; lia | ].
    split; [ auto | ].
    split; [ intros _ (j & Hj & Hhit); destruct (Hall j Hj); tauto | ].
    split; [ auto | ].
    intros _ _ old Hold. exfalso.
    pose proof (retrieve_cases t S Hs) as H. cbv zeta in H. fold c in H.
    rewrite Hold in H. destruct H as (i' & Hi' & _ & Hk & _).
    destruct (Hall i' Hi'). contradiction.
Qed.

(** C2, as the code has it.  In a reachable table whose cluster holds an
    entry for [A], a [store] of a static evaluation for [A] leaves the table
    as it is, and [retrieve] returns the entry it returned before.  After
    [store(A, v1, Exact, d1, m1)], a [store(A, v2, StaticEval, d2, m2)]
    changes nothing and [retrieve(A)] returns the entry [(v1, Exact, d1, m)]:
    [m] is [m1] when [m1] is a move; when [m1] is [MOVE_NONE] it is the move
    the slot written by the first store held before (in a reachable table
    that holds an entry for [A], the move of that entry), and [MOVE_NONE]
    when the first store evicts. *)
Theorem store_eval_keeps_entry :
  (forall t A v d m tte,
     reachable t -> A <> 0 -> retrieve t A = Some tte ->
     store t A v VALUE_TYPE_EVAL d m = t /\
     retrieve (store t A v VALUE_TYPE_EVAL d m) A = Some tte /\
     retrieve_entry (store t A v VALUE_TYPE_EVAL d m) A = Some (entries t !!! tte))
  /\
  (forall t A v1 d1 m1 v2 d2 m2,
     sized t -> A <> 0 ->
     let c := cluster_of t A in
     let t1 := store t A v1 VALUE_TYPE_EXACT d1 m1 in
     store t1 A v2 VALUE_TYPE_EVAL d2 m2 = t1 /\
     exists tte m,
       retrieve (store t1 A v2 VALUE_TYPE_EVAL d2 m2) A = Some tte /\
       retrieve_entry (store t1 A v2 VALUE_TYPE_EVAL d2 m2) A
       = Some (TTEntry.make A v1 VALUE_TYPE_EXACT d1 m (generation t)) /\
       (m1 <> MOVE_NONE -> m = m1) /\
       (m1 = MOVE_NONE ->
        (exists j, (j < 4)%nat /\
           (TTEntry.key (slot t c j) = 0 \/ TTEntry.key (slot t c j) = A)) ->
        m = TTEntry.move (entries t !!! tte)) /\
       (m1 = MOVE_NONE ->
        (forall j, (j < 4)%nat ->
           TTEntry.key (slot t c j) <> 0 /\ TTEntry.key (slot t c j) <> A) ->
        m = MOVE_NONE) /\
       (reachable t -> forall old, retrieve t A = Some old ->
        old = tte /\ (m1 = MOVE_NONE -> m = TTEntry.move (entries t !!! old)))).
Proof.
  split.
  - intros t A v d m tte Hreach HA Hret.
    pose proof (reachable_inv t Hreach) as [Hs Hinv].
    pose proof (cluster_of_range t A Hs) as Hc.
    pose proof (retrieve_cases t A Hs) as H. cbv zeta in H. rewrite Hret in H.
    destruct H as (i & Hi & -> & Hki & Hfirst).
    assert (Hst : store t A v VALUE_TYPE_EVAL d m = t).
    { apply (store_eval_aborts t A v d m i Hs HA Hi Hki).
      intros j Hj Hz. destruct (Hinv _ Hc) as [Hp _].
      assert (TTEntry.key (slot t (cluster_of t A) i) = 0)
        by (apply (Hp j i); [ lia | exact Hz ]).
      congruence. }
    rewrite Hst. unfold retrieve_entry. rewrite Hret. auto.
  - intros t A v1 d1 m1 v2 d2 m2 Hs HA c t1.
    destruct (store_written_move t A v1 VALUE_TYPE_EXACT d1 m1 Hs)
      as (i & m & Hi & Hret & Hent & Hfound & Hbefore & Hmove & Hhit & Hfull & Hold);
      [ discriminate | ].
    fold c in Hret, Hent, Hbefore, Hhit, Hfull, Hold. fold t1 in Hret, Hent, Hfound.
    pose proof (cluster_of_range t A Hs) as Hc. fold c in Hc.
    assert (Hs1 : sized t1) by (unfold t1; auto with tt).
    assert (Hc1 : cluster_of t1 A = c)
      by (unfold cluster_of, t1, c; now rewrite store_size).
    assert (Hslot1 : forall j, (j < 4)%nat ->
              slot t1 c j = if decide (j = i)
                            then TTEntry.make A v1 VALUE_TYPE_EXACT d1 m (generation t)
                            else slot t c j).
    { intros j Hj. unfold slot at 1. rewrite Hent.
      rewrite list_lookup_total_insert.
      destruct (decide (j = i)) as [->|Hne].
      - rewrite decide_True; [ reflexivity | ].
        split; [ reflexivity | now apply slot_in_range ].
      - rewrite decide_False by lia. reflexivity. }
    assert (Hsame : store t1 A v2 VALUE_TYPE_EVAL d2 m2 = t1).
    { apply (store_eval_aborts t1 A v2 d2 m2 i Hs1 HA Hi); rewrite Hc1.
      - rewrite Hslot1 by exact Hi. now rewrite decide_True by reflexivity.
      - intros j Hj. rewrite Hslot1 by lia. rewrite decide_False by lia.
        now apply Hbefore. }
    split; [ exact Hsame | ]. rewrite Hsame.
    exists (Z.to_nat (4 * c) + i)%nat, m.
    split; [ exact Hret | ]. split; [ exact Hfound | ].
    split; [ exact Hmove | ]. split; [ exact Hhit | ]. split; [ exact Hfull | ].
    intros Hreach. apply Hold; [ now apply reachable_inv | exact HA ].
Qed.

(** Why the tables are the reachable ones: in [holed_table] the scan stops
    at the empty slot 0, before the slot that holds the signature, and the
    static evaluation is written. *)
Example eval_store_fills_hole :
  store (E := sample_engine) holed_table 5 99 VALUE_TYPE_EVAL 9 3 =
    mkTT 1 0
      [ TTEntry.make 5 99 VALUE_TYPE_EVAL 9 3 0;
        TTEntry.make 5 40 VALUE_TYPE_EXACT 6 11 0;
        TTEntry.zero; TTEntry.zero ]
      0.
Proof. reflexivity. Qed.

(** C3.  In a sized table, a [store] for [S] that is not the abort of a
    static evaluation on an existing entry writes an entry that an
    immediately following [retrieve(S)] returns: it holds [S], the value,
    the bound type and the depth of the call and the generation of the
    table.  Its move is the move of the call; when that is [MOVE_NONE], it
    is the move previously recorded in the slot that is written, the first
    slot that was empty or held [S] (in a reachable table that held an entry
    for [S], the move of that entry); on the eviction path, where nothing
    was recorded for [S], it is [MOVE_NONE], the move of the call. *)
Theorem retrieve_after_store t S v ty d m :
  sized t -> S <> 0 ->
  (ty = VALUE_TYPE_EVAL -> retrieve t S = None) ->
  let c := cluster_of t S in
  exists tte m',
    retrieve (store t S v ty d m) S = Some tte /\
    retrieve_entry (store t S v ty d m) S
    = Some (TTEntry.make S v ty d m' (generation t)) /\
    (m <> MOVE_NONE -> m' = m) /\
    (m = MOVE_NONE ->
     (exists j, (j < 4)%nat /\
        (TTEntry.key (slot t c j) = 0 \/ TTEntry.key (slot t c j) = S)) ->
     m' = TTEntry.move (entries t !!! tte)) /\
    (m = MOVE_NONE ->
     (forall j, (j < 4)%nat ->
        TTEntry.key (slot t c j) <> 0 /\ TTEntry.key (slot t c j) <> S) ->
     m' = MOVE_NONE) /\
    (reachable t -> forall old, retrieve t S = Some old ->
     old = tte /\ (m = MOVE_NONE -> m' = TTEntry.move (entries t !!! old))).
Proof.
  intros Hs HS Hty c.
  destruct (store_written_move t S v ty d m Hs Hty)
    as (i & m' & Hi & Hret & _ & Hfound & _ & Hmove & Hhit & Hfull & Hold).
  fold c in Hret, Hhit, Hfull, Hold.
  exists (Z.to_nat (4 * c) + i)%nat, m'.
  split; [ exact Hret | ]. split; [ exact Hfound | ].
  split; [ exact Hmove | ]. split; [ exact Hhit | ]. split; [ exact Hfull | ].
  intros Hreach. apply Hold; [ now apply reachable_inv | exact HS ].
Qed.

(** C4.  In a reachable table whose cluster holds an entry for [S], a
    [store] for [S] with [MOVE_NONE] and a type other than the static
    evaluation overwrites the slot [retrieve] returns with the new value,
    type and depth and the generation of the table, and keeps the move the
    slot held; nothing else changes. *)
Theorem store_no_move_keeps_move t S v ty d tte :
  reachable t -> S <> 0 -> retrieve t S = Some tte ->
  ty <> VALUE_TYPE_EVAL ->
  store t S v ty d MOVE_NONE =
    mkTT (size t) (writes t)
      (<[tte := TTEntry.make S v ty d (TTEntry.move (entries t !!! tte))
                  (generation t)]> (entries t))
      (generation t).
Proof.
  intros Hreach HS Hret Hty.
  rewrite (store_overwrites t S v ty d MOVE_NONE tte (reachable_inv t Hreach) HS Hret Hty).
  now rewrite Z.eqb_refl.
Qed.


(** C6.  After a [store] for a signature [S] other than 0 in a reachable
    table, at most one of the four slots of the cluster of [S] holds [S]:
    two slots that hold it are the same slot. *)
Theorem store_one_slot_per_signature t S v ty d m :
  reachable t -> S <> 0 ->
  let t' := store t S v ty d m in
  let c := cluster_of t' S in
  forall i j, (i < 4)%nat -> (j < 4)%nat ->
    TTEntry.key (slot t' c i) = S -> TTEntry.key (slot t' c j) = S -> i = j.
Proof.
  intros Hreach HS t' c i j Hi Hj Hki Hkj.
  assert (Hinv : table_inv t') by (apply reachable_inv; now constructor).
  destruct Hinv as [Hs Hinv].
  destruct (Hinv c (cluster_of_range t' S Hs)) as [_ Hd].
  apply Hd; congruence.
Qed.

(** C10.  In every table reached from a cleared one by [store],
    [insert_pv], [new_search] and [clear] with signatures other than 0, the
    occupied slots of each cluster come first: a slot after an empty slot is
    empty.  Neither [store] nor [insert_pv] leaves an occupied slot empty. *)
Theorem occupied_slots_first :
  (forall t, reachable t ->
     forall c, 0 <= c < size t ->
     forall i j, (i < j < 4)%nat ->
       TTEntry.key (slot t c i) = 0 -> TTEntry.key (slot t c j) = 0)
  /\
  (forall t k v ty d m idx,
     k <> 0 -> TTEntry.key (entries t !!! idx) <> 0 ->
     TTEntry.key (entries (store t k v ty d m) !!! idx) <> 0)
  /\
  (forall t p pv t' idx,
     Forall (fun k => k <> 0) (pv_keys p pv) ->
     insert_pv t p pv = Some t' ->
     TTEntry.key (entries t !!! idx) <> 0 ->
     TTEntry.key (entries t' !!! idx) <> 0).
Proof.
  split; [ | split ].
  - intros t Hreach c Hc i j Hij.
    destruct (reachable_inv t Hreach) as [_ Hinv].
    destruct (Hinv c Hc) as [Hp _]. now apply Hp.
  - intros. now apply store_keeps_occupied.
  - intros. eapply insert_pv_keeps_occupied; eauto.
Qed.

End StoreRetrieve.

Lemma one_cluster_sized : sized one_cluster.
Proof. exists 0. split; [ lia | split; reflexivity ]. Defined.

Lemma sample_table_reachable : reachable (E := sample_engine) sample_table.
Proof.
  apply reach_store; [ apply reach_clear; exact one_cluster_sized | discriminate ].
Defined.

Lemma store_eval_keeps_entry_witness :
  reachable (E := sample_engine) sample_table /\ 5 <> 0 /\
  retrieve sample_table 5 = Some 0%nat /\
  store (E := sample_engine) sample_table 5 99 VALUE_TYPE_EVAL 9 3 = sample_table /\
  sized one_cluster /\
  store (E := sample_engine)
    (store (E := sample_engine) one_cluster 5 7 VALUE_TYPE_EXACT 3 11)
    5 8 VALUE_TYPE_EVAL 9 12
  = store (E := sample_engine) one_cluster 5 7 VALUE_TYPE_EXACT 3 11.
Proof.
  assert (Hret : retrieve sample_table 5 = Some 0%nat) by reflexivity.
  split; [ exact sample_table_reachable | ].
  split; [ discriminate | ]. split; [ exact Hret | ].
  split; [ apply (proj1 (store_eval_keeps_entry (E := sample_engine))
                    sample_table 5 99 9 3 0%nat sample_table_reachable);
           [ discriminate | exact Hret ] | ].
  split; [ exact one_cluster_sized | ].
  apply (proj2 (store_eval_keeps_entry (E := sample_engine))
           one_cluster 5 7 3 11 8 9 12 one_cluster_sized).
  discriminate.
Defined.

(** C2, what fails.  [sample_table] holds the signature 5 with the move 11.
    [store(5, 7, Exact, 3, MOVE_NONE)] then [store(5, 8, StaticEval, 9, 12)]
    then [retrieve(5)] returns the move 11 the entry held, not the move
    [MOVE_NONE] of the first call. *)
Lemma store_eval_scenario_counterexample :
  retrieve_entry sample_table 5 = Some (TTEntry.make 5 40 VALUE_TYPE_EXACT 6 11 0) /\
  MOVE_NONE (Engine := sample_engine) = 0 /\
  retrieve_entry
    (store (E := sample_engine)
       (store (E := sample_engine) sample_table 5 7 VALUE_TYPE_EXACT 3 0)
       5 8 VALUE_TYPE_EVAL 9 12) 5
  = Some (TTEntry.make 5 7 VALUE_TYPE_EXACT 3 11 0) /\
  TTEntry.make 5 7 VALUE_TYPE_EXACT 3 11 0 <> TTEntry.make 5 7 VALUE_TYPE_EXACT 3 0 0.
Proof. repeat split; try reflexivity. discriminate. Qed.

Lemma retrieve_after_store_witness :
  sized sample_table /\ 5 <> 0 /\
  exists tte m',
    retrieve (store (E := sample_engine) sample_table 5 41 VALUE_TYPE_LOWER 8 0) 5
    = Some tte /\
    retrieve_entry (store (E := sample_engine) sample_table 5 41 VALUE_TYPE_LOWER 8 0) 5
    = Some (TTEntry.make 5 41 VALUE_TYPE_LOWER 8 m' 0) /\
    m' = TTEntry.move (entries sample_table !!! tte).
Proof.
  assert (Hs : sized sample_table)
    by (exists 0; split; [ lia | split; reflexivity ]).
  split; [ exact Hs | ]. split; [ discriminate | ].
  destruct (retrieve_after_store (E := sample_engine)
              sample_table 5 41 VALUE_TYPE_LOWER 8 0 Hs)
    as (tte & m' & Hret & Hent & _ & Hhit & _); [ discriminate | discriminate | ].
  exists tte, m'. split; [ exact Hret | ]. split; [ exact Hent | ].
  apply Hhit; [ reflexivity | ].
  exists 0%nat. split; [ lia | right; reflexivity ].
Defined.

Lemma store_no_move_keeps_move_witness :
  reachable (E := sample_engine) sample_table /\ 5 <> 0 /\
  retrieve sample_table 5 = Some 0%nat /\
  store (E := sample_engine) sample_table 5 41 VALUE_TYPE_LOWER 8 0 =
    mkTT 1 0
      (<[0%nat := TTEntry.make 5 41 VALUE_TYPE_LOWER 8 11 0]> (entries sample_table))
      0.
Proof.
  assert (Hret : retrieve sample_table 5 = Some 0%nat) by reflexivity.
  split; [ exact sample_table_reachable | ].
  split; [ discriminate | ]. split; [ exact Hret | ].
  apply (store_no_move_keeps_move (E := sample_engine)
           sample_table 5 41 VALUE_TYPE_LOWER 8 0%nat sample_table_reachable);
    [ discriminate | exact Hret | discriminate ].
Defined.

Lemma store_one_slot_per_signature_witness :
  reachable (E := sample_engine) sample_table /\ 5 <> 0 /\
  forall i j, (i < 4)%nat -> (j < 4)%nat ->
    TTEntry.key (slot (store (E := sample_engine) sample_table 5 41 VALUE_TYPE_LOWER 8 0) 0 i) = 5 ->
    TTEntry.key (slot (store (E := sample_engine) sample_table 5 41 VALUE_TYPE_LOWER 8 0) 0 j) = 5 ->
    i = j.
Proof.
  split; [ exact sample_table_reachable | ]. split; [ discriminate | ].
  apply (store_one_slot_per_signature (E := sample_engine)
           sample_table 5 41 VALUE_TYPE_LOWER 8 0 sample_table_reachable).
  discriminate.
Defined.

Lemma occupied_slots_first_witness :
  reachable (E := sample_engine) sample_table /\
  forall i j, (i < j < 4)%nat ->
    TTEntry.key (slot sample_table 0 i) = 0 -> TTEntry.key (slot sample_table 0 j) = 0.
Proof.
  split; [ exact sample_table_reachable | ].
  apply (proj1 (occupied_slots_first (E := sample_engine))
           sample_table sample_table_reachable 0).
  vm_compute. split; [ discriminate | reflexivity ].
Defined.

(** ** Principal variation *)

Section PrincipalVariation.
Context `{E : Engine}.

Lemma insert_pv_run moves : forall rest t p,
  Forall (fun m => m <> MOVE_NONE) moves ->
  insert_pv t p (moves ++ MOVE_NONE :: rest)
  = Some (foldl run_store t (zip_with pv_call (replay p moves) moves)).
Proof.
  induction moves as [|m moves IH]; intros rest t p Hmoves; simpl.
  - now rewrite Z.eqb_refl.
  - inversion Hmoves as [|? ? Hm Hrest]; subst.
    destruct (Z.eqb_spec m MOVE_NONE); [ contradiction | ].
    now rewrite IH.
Qed.

Lemma replay_length p moves : length (replay p moves) = length moves.
Proof. revert p. induction moves; intros; simpl; auto. Qed.

(** C9.  For a sequence of moves ended by [MOVE_NONE], [insert_pv] is the
    run, in order, of one [store] per move: at the signature of the state
    the move is played from, with [VALUE_NONE], [VALUE_TYPE_NONE], the depth
    [-127 * OnePly] and the move.  In a reachable table that holds an entry
    for the signature of the starting state, the call overwrites that entry
    (its value, type, depth and move) with the placeholder. *)
Theorem insert_pv_stores_placeholders :
  (forall moves rest t p,
     Forall (fun m => m <> MOVE_NONE) moves ->
     let calls := zip_with pv_call (replay p moves) moves in
     insert_pv t p (moves ++ MOVE_NONE :: rest) = Some (foldl run_store t calls) /\
     length calls = length moves /\
     forall i m, moves !! i = Some m ->
       exists s, replay p moves !! i = Some s /\
         calls !! i
         = Some (mkCall (get_key s) VALUE_NONE VALUE_TYPE_NONE (-127 * OnePly) m))
  /\
  (forall t p m rest tte,
     reachable t -> get_key p <> 0 -> m <> MOVE_NONE ->
     retrieve t (get_key p) = Some tte ->
     insert_pv t p (m :: MOVE_NONE :: rest)
     = Some (mkTT (size t) (writes t)
               (<[tte := TTEntry.make (get_key p) VALUE_NONE VALUE_TYPE_NONE
                           (-127 * OnePly) m (generation t)]> (entries t))
               (generation t))).
Proof.
  split.
  - intros moves rest t p Hmoves calls. split; [ | split ].
    + now apply insert_pv_run.
    + subst calls. rewrite length_zip_with, replay_length. lia.
    + intros i m Hi.
      assert (Hlt : (i < length (replay p moves))%nat).
      { rewrite replay_length. eapply lookup_lt_Some; eauto. }
      destruct (lookup_lt_is_Some_2 _ _ Hlt) as [s Hs].
      exists s. split; [ exact Hs | ].
      subst calls. rewrite lookup_zip_with, Hs, Hi. reflexivity.
  - intros t p m rest tte Hreach Hk Hm Hret. simpl.
    destruct (Z.eqb_spec m MOVE_NONE); [ contradiction | ].
    rewrite Z.eqb_refl.
    rewrite (store_overwrites t (get_key p) VALUE_NONE VALUE_TYPE_NONE
               (-127 * OnePly) m tte (reachable_inv t Hreach) Hk Hret)
      by discriminate.
    destruct (Z.eqb_spec m MOVE_NONE); [ contradiction | reflexivity ].
Qed.

End PrincipalVariation.

Lemma insert_pv_stores_placeholders_witness :
  Forall (fun m => m <> 0) [9; 3] /\
  insert_pv (E := sample_engine) sample_table 5 ([9; 3] ++ 0 :: [])
  = Some (foldl (run_store (E := sample_engine)) sample_table
            [ mkCall 5 30002 VALUE_TYPE_NONE (-254) 9;
              mkCall 3 30002 VALUE_TYPE_NONE (-254) 3 ]) /\
  retrieve_entry sample_table 5 = Some (TTEntry.make 5 40 VALUE_TYPE_EXACT 6 11 0) /\
  insert_pv (E := sample_engine) sample_table 5 (9 :: 0 :: [])
  = Some (mkTT 1 0
            (<[0%nat := TTEntry.make 5 30002 VALUE_TYPE_NONE (-254) 9 0]>
               (entries sample_table)) 0).
Proof.
  assert (Hmoves : Forall (fun m => m <> 0) [9; 3])
    by (repeat constructor; discriminate).
  split; [ exact Hmoves | ]. split; [ | split ].
  - apply (proj1 (insert_pv_stores_placeholders (E := sample_engine))
             [9; 3] [] sample_table 5 Hmoves).
  - reflexivity.
  - apply (proj2 (insert_pv_stores_placeholders (E := sample_engine))
             sample_table 5 9 [] 0%nat sample_table_reachable);
      [ discriminate | discriminate | reflexivity ].
Defined.

(** ** Generation and occupancy *)

Section Occupancy.
Context `{E : Engine}.

(** The argument of [log] in [full] is a positive finite double for every
    size [set_size] can give. *)
Lemma log_argument_positive j :
  0 <= j <= 29 ->
  Double.is_positive_finite
    (Double.sub (Double.of_Z 1)
       (Double.div (Double.of_Z 1)
          (Double.mul (Double.of_Z (2 ^ j)) (Double.of_Z 4)))) = true.
Proof.
  intros Hj.
  assert (Hall : forallb (fun n =>
            Double.is_positive_finite
              (Double.sub (Double.of_Z 1)
                 (Double.div (Double.of_Z 1)
                    (Double.mul (Double.of_Z (2 ^ Z.of_nat n)) (Double.of_Z 4)))))
            (seq 0 30) = true) by (vm_compute; reflexivity).
  rewrite forallb_forall in Hall.
  specialize (Hall (Z.to_nat j)). rewrite Z2Nat.id in Hall by lia.
  apply Hall. apply in_seq. lia.
Qed.

(** C7.  [new_search] adds one to the generation, modulo 2^8, sets the
    write counter to zero and leaves the entries and the size as they are;
    for a sized table [full] then returns 0.  The last part uses two facts
    about <cmath>, stated as its hypotheses: [exp] maps a zero to 1, and
    [log] of a positive finite double is finite. *)
Theorem new_search_spec t :
  generation (new_search t) = (generation t + 1) mod 2 ^ 8 /\
  writes (new_search t) = 0 /\
  entries (new_search t) = entries t /\
  size (new_search t) = size t /\
  (sized t ->
   (forall s, exp (S754_zero s) = Double.of_Z 1) ->
   (forall x, Double.is_positive_finite x = true ->
              Double.is_finite (log x) = true) ->
   full (new_search t) = Some 0).
Proof.
  repeat (split; [ reflexivity | ]).
  intros (j & Hj & Hs & _) Hexp Hlog. unfold full, new_search; simpl.
  rewrite Hs.
  pose proof (Hlog _ (log_argument_positive j Hj)) as Hfin.
  change (Double.of_Z 0) with (S754_zero false).
  destruct (log _) as [s|s| |s m e]; try discriminate; simpl;
    rewrite Hexp; reflexivity.
Qed.

(** Beyond [writes = 0] the result of [full] is a matter of the rounding of
    [exp] and [log].  For one: when [exp] returns 2^-60 (about its value
    for 1024 clusters and 170000 writes), [1 - exp ..] rounds to 1 and
    [full] returns 1000, which the real number
    1000 * (1 - (1 - 1/N)^writes) never reaches. *)
Lemma full_saturates t :
  exp (Double.mul (Double.of_Z (writes t))
         (log (Double.sub (Double.of_Z 1)
                 (Double.div (Double.of_Z 1)
                    (Double.mul (Double.of_Z (size t)) (Double.of_Z 4))))))
  = S754_finite false 4503599627370496 (-112) ->
  full t = Some 1000.
Proof. intros Hexp. unfold full. rewrite Hexp. reflexivity. Qed.

End Occupancy.

Lemma new_search_spec_witness :
  sized sample_table /\
  (forall s, exp (Engine := sample_engine) (S754_zero s) = Double.of_Z 1) /\
  (forall x, Double.is_positive_finite x = true ->
             Double.is_finite (log (Engine := sample_engine) x) = true) /\
  generation (new_search sample_table) = 1 /\
  writes (new_search sample_table) = 0 /\
  full (E := sample_engine) (new_search sample_table) = Some 0.
Proof.
  assert (Hs : sized sample_table)
    by (exists 0; split; [ lia | split; reflexivity ]).
  assert (Hexp : forall s, exp (Engine := sample_engine) (S754_zero s) = Double.of_Z 1)
    by reflexivity.
  assert (Hlog : forall x, Double.is_positive_finite x = true ->
             Double.is_finite (log (Engine := sample_engine) x) = true)
    by reflexivity.
  split; [ exact Hs | ]. split; [ exact Hexp | ]. split; [ exact Hlog | ].
  destruct (new_search_spec (E := sample_engine) sample_table)
    as (Hg & Hw & _ & _ & Hfull).
  split; [ exact Hg | ]. split; [ exact Hw | ].
  exact (Hfull Hs Hexp Hlog).
Defined.

(** ** Rounding to binary64 *)

(** The operations of [Double] return the double nearest to the exact
    result.  Values are integers: a finite double in units of 2^-1074, an
    exact product in units of 2^-2148. *)

(** *** Digits *)


Lemma digits2_pos_bounds p :
  2 ^ (Z.pos (digits2_pos p) - 1) <= Z.pos p < 2 ^ Z.pos (digits2_pos p).
Proof.
  induction p as [p IH|p IH|]; cbn [digits2_pos].
  - rewrite Pos2Z.inj_succ.
    replace (Z.succ (Z.pos (digits2_pos p)) - 1)
      with ((Z.pos (digits2_pos p) - 1) + 1) by lia.
    rewrite Z.pow_succ_r, Z.pow_add_r by lia. lia.
  - rewrite Pos2Z.inj_succ.
    replace (Z.succ (Z.pos (digits2_pos p)) - 1)
      with ((Z.pos (digits2_pos p) - 1) + 1) by lia.
    rewrite Z.pow_succ_r, Z.pow_add_r by lia. lia.
  - simpl. lia.
Qed.

Lemma Zdigits2_bounds m :
  0 < m -> 2 ^ (Zdigits2 m - 1) <= m < 2 ^ Zdigits2 m.
Proof. destruct m as [|p|p]; try lia. intros _. apply digits2_pos_bounds. Qed.

Lemma Zdigits2_pos m : 0 < m -> 0 < Zdigits2 m.
Proof. destruct m; simpl; lia. Qed.

Lemma Zdigits2_unique m d :
  0 < m -> 2 ^ (d - 1) <= m < 2 ^ d -> Zdigits2 m = d.
Proof.
  intros Hm Hd. pose proof (Zdigits2_bounds m Hm) as Hb.
  pose proof (Zdigits2_pos m Hm) as Hp.
  assert (Hd0 : 0 < d).
  { destruct (Z.lt_ge_cases 0 d) as [?|Hle]; [ assumption | exfalso ].
    assert (2 ^ d <= 2 ^ 0) by (destruct (Z.eq_dec d 0) as [->|];
      [ lia | rewrite Z.pow_neg_r by lia; simpl; lia ]).
    simpl in *. lia. }
  destruct (Z.lt_trichotomy (Zdigits2 m) d) as [Hlt|[Heq|Hgt]];
    [ exfalso | exact Heq | exfalso ].
  - assert (2 ^ Zdigits2 m <= 2 ^ (d - 1)) by (apply Z.pow_le_mono_r; lia). lia.
  - assert (2 ^ d <= 2 ^ (Zdigits2 m - 1)) by (apply Z.pow_le_mono_r; lia). lia.
Qed.

Lemma Zdigits2_shift m j :
  0 < m -> 0 <= j -> Zdigits2 (m * 2 ^ j) = Zdigits2 m + j.
Proof.
  intros Hm Hj. pose proof (Zdigits2_bounds m Hm) as Hb.
  pose proof (Zdigits2_pos m Hm) as Hp.
  assert (0 < 2 ^ j) by (apply Z.pow_pos_nonneg; lia).
  apply Zdigits2_unique; [ nia | ].
  replace (Zdigits2 m + j - 1) with ((Zdigits2 m - 1) + j) by lia.
  rewrite !Z.pow_add_r by lia. nia.
Qed.

Lemma Zdigits2_le m1 m2 : 0 < m1 <= m2 -> Zdigits2 m1 <= Zdigits2 m2.
Proof.
  intros Hm.
  pose proof (Zdigits2_bounds m1 ltac:(lia)) as H1.
  pose proof (Zdigits2_bounds m2 ltac:(lia)) as H2.
  destruct (Z.le_gt_cases (Zdigits2 m1) (Zdigits2 m2)) as [?|Hgt]; [ assumption | ].
  exfalso.
  assert (2 ^ Zdigits2 m2 <= 2 ^ (Zdigits2 m1 - 1))
    by (apply Z.pow_le_mono_r; lia).
  lia.
Qed.

(** *** The shift of [binary_round_aux] *)

Lemma iter_pos_nat {A} (f : A -> A) p x :
  SpecFloat.iter_pos f p x = Nat.iter (Pos.to_nat p) f x.
Proof.
  revert x. induction p as [p IH|p IH|]; intros x; cbn [SpecFloat.iter_pos].
  - rewrite !IH, Pos2Nat.inj_xI.
    replace (S (2 * Pos.to_nat p)) with ((Pos.to_nat p + Pos.to_nat p) + 1)%nat by lia.
    rewrite !Nat.iter_add. reflexivity.
  - rewrite !IH, Pos2Nat.inj_xO.
    replace (2 * Pos.to_nat p)%nat with (Pos.to_nat p + Pos.to_nat p)%nat by lia.
    rewrite Nat.iter_add. reflexivity.
  - reflexivity.
Qed.

Lemma shr_1_spec m r s :
  0 <= m ->
  shr_1 (Build_shr_record m r s) = Build_shr_record (m / 2) (Z.odd m) (r || s).
Proof.
  intros Hm. destruct m as [|p|p]; [ reflexivity | | lia ].
  destruct p as [p|p|]; cbn [shr_1].
  - f_equal. apply (Z.div_unique (Z.pos p~1) 2 (Z.pos p) 1); lia.
  - f_equal. apply (Z.div_unique (Z.pos p~0) 2 (Z.pos p) 0); lia.
  - reflexivity.
Qed.


Lemma mod_pow2_succ m n :
  0 <= n ->
  m mod 2 ^ (n + 1) = m mod 2 ^ n + 2 ^ n * ((m / 2 ^ n) mod 2).
Proof.
  intros Hn. rewrite Z.pow_add_r by lia. change (2 ^ 1) with 2.
  apply Z.rem_mul_r; [ | lia ].
  assert (0 < 2 ^ n) by (apply Z.pow_pos_nonneg; lia). lia.
Qed.

(** After [n + 1] steps: the quotient, the round bit and the sticky bit. *)
Lemma shr_iter n m :
  0 <= m ->
  Nat.iter (S n) shr_1 (Build_shr_record m false false)
  = Build_shr_record (m / 2 ^ (Z.of_nat n + 1))
      (Z.odd (m / 2 ^ Z.of_nat n))
      (negb (m mod 2 ^ Z.of_nat n =? 0)).
Proof.
  intros Hm. induction n as [|n IH].
  - rewrite Nat.iter_succ. cbn [Nat.iter nat_rect].
    rewrite shr_1_spec by exact Hm. simpl Z.of_nat.
    change (2 ^ 0) with 1. rewrite Z.div_1_r, Z.mod_1_r. reflexivity.
  - rewrite Nat.iter_succ, IH.
    assert (H2n : 0 < 2 ^ Z.of_nat n) by (apply Z.pow_pos_nonneg; lia).
    rewrite shr_1_spec by (apply Z.div_pos; [ lia | apply Z.pow_pos_nonneg; lia ]).
    rewrite Nat2Z.inj_succ. unfold Z.succ.
    f_equal.
    + rewrite Z.div_div by lia.
      f_equal. rewrite (Z.pow_add_r 2 (Z.of_nat n + 1) 1) by lia. reflexivity.
    + rewrite (mod_pow2_succ m (Z.of_nat n)) by lia.
      pose proof (Z.mod_pos_bound m (2 ^ Z.of_nat n) H2n) as Hlow.
      pose proof (Z.mod_pos_bound (m / 2 ^ Z.of_nat n) 2 ltac:(lia)) as Hbit.
      rewrite (Zmod_odd (m / 2 ^ Z.of_nat n)) in *.
      destruct (Z.odd (m / 2 ^ Z.of_nat n));
        destruct (Z.eqb_spec (m mod 2 ^ Z.of_nat n) 0) as [H0|H0];
        cbn [orb negb];
        match goal with
        | |- _ = negb (?x =? 0) => destruct (Z.eqb_spec x 0)
        end; cbn [negb]; try reflexivity; exfalso; lia.
Qed.

(** The mantissa [round_nearest_even] makes of the shifted record. *)
Lemma round_shr n m :
  0 <= m ->
  let mrs := Nat.iter (S n) shr_1 (Build_shr_record m false false) in
  round_nearest_even (shr_m mrs) (loc_of_shr_record mrs)
  = Double.rne m (Z.of_nat n + 1).
Proof.
  intros Hm mrs. subst mrs. rewrite shr_iter by exact Hm.
  unfold Double.rne. cbv zeta.
  assert (H2n : 0 < 2 ^ Z.of_nat n) by (apply Z.pow_pos_nonneg; lia).
  rewrite (mod_pow2_succ m (Z.of_nat n)) by lia.
  rewrite (Z.pow_add_r 2 (Z.of_nat n) 1) by lia. change (2 ^ 1) with 2.
  pose proof (Z.mod_pos_bound m (2 ^ Z.of_nat n) H2n) as Hlow.
  rewrite (Zmod_odd (m / 2 ^ Z.of_nat n)).
  set (q := m / (2 ^ Z.of_nat n * 2)).
  destruct (Z.odd (m / 2 ^ Z.of_nat n));
    destruct (Z.eqb_spec (m mod 2 ^ Z.of_nat n) 0) as [H0|H0];
    cbn [negb loc_of_shr_record shr_m shr_r shr_s round_nearest_even].
  - destruct (Z.ltb_spec (2 * (m mod 2 ^ Z.of_nat n + 2 ^ Z.of_nat n * 1))
                (2 ^ Z.of_nat n * 2)); [ lia | ].
    destruct (Z.eqb_spec (2 * (m mod 2 ^ Z.of_nat n + 2 ^ Z.of_nat n * 1))
                (2 ^ Z.of_nat n * 2)); [ reflexivity | lia ].
  - destruct (Z.ltb_spec (2 * (m mod 2 ^ Z.of_nat n + 2 ^ Z.of_nat n * 1))
                (2 ^ Z.of_nat n * 2)); [ lia | ].
    destruct (Z.eqb_spec (2 * (m mod 2 ^ Z.of_nat n + 2 ^ Z.of_nat n * 1))
                (2 ^ Z.of_nat n * 2)); [ lia | reflexivity ].
  - destruct (Z.ltb_spec (2 * (m mod 2 ^ Z.of_nat n + 2 ^ Z.of_nat n * 0))
                (2 ^ Z.of_nat n * 2)); [ reflexivity | lia ].
  - destruct (Z.ltb_spec (2 * (m mod 2 ^ Z.of_nat n + 2 ^ Z.of_nat n * 0))
                (2 ^ Z.of_nat n * 2)); [ reflexivity | lia ].
Qed.

Lemma rne_0 m : Double.rne m 0 = m.
Proof.
  unfold Double.rne. change (2 ^ 0) with 1. rewrite Z.div_1_r, Z.mod_1_r. reflexivity.
Qed.

(** The first shift and the rounding of [binary_round_aux]. *)
Lemma shr_round m e k :
  0 <= m -> 0 <= k ->
  let '(mrs, e') := shr (Build_shr_record m false false) e k in
  round_nearest_even (shr_m mrs) (loc_of_shr_record mrs) = Double.rne m k /\ e' = e + k.
Proof.
  intros Hm Hk. destruct k as [|p|p]; [ | | lia ].
  - cbn [shr shr_m loc_of_shr_record round_nearest_even].
    rewrite rne_0. split; [ reflexivity | lia ].
  - cbn [shr]. rewrite iter_pos_nat.
    destruct (Pos2Nat.is_succ p) as [n Hn]. rewrite Hn.
    split; [ | reflexivity ].
    rewrite (round_shr n m Hm). f_equal. lia.
Qed.


(** *** Rounding to nearest *)

Lemma pow2_pos k : 0 <= k -> 0 < 2 ^ k.
Proof. intros. apply Z.pow_pos_nonneg; lia. Qed.

Lemma rne_bounds m k :
  0 <= k -> m / 2 ^ k <= Double.rne m k <= m / 2 ^ k + 1.
Proof.
  intros Hk. unfold Double.rne. cbv zeta.
  destruct (_ <? _); [ lia | ].
  destruct (_ =? _); [ destruct (Z.even _); lia | lia ].
Qed.

Lemma rne_exact q k : 0 <= k -> Double.rne (q * 2 ^ k) k = q.
Proof.
  intros Hk. pose proof (pow2_pos k Hk). unfold Double.rne. cbv zeta.
  rewrite Z.mod_mul, Z.div_mul by lia.
  destruct (Z.ltb_spec (2 * 0) (2 ^ k)); [ reflexivity | lia ].
Qed.

Lemma rne_mono m1 m2 k : 0 <= k -> m1 <= m2 -> Double.rne m1 k <= Double.rne m2 k.
Proof.
  intros Hk Hle. pose proof (pow2_pos k Hk) as Hp.
  pose proof (rne_bounds m1 k Hk) as B1. pose proof (rne_bounds m2 k Hk) as B2.
  pose proof (Z.div_le_mono m1 m2 (2 ^ k) Hp Hle) as Hq.
  destruct (Z.eq_dec (m1 / 2 ^ k) (m2 / 2 ^ k)) as [Heq|Hne]; [ | lia ].
  pose proof (Z.div_mod m1 (2 ^ k) ltac:(lia)) as E1.
  pose proof (Z.div_mod m2 (2 ^ k) ltac:(lia)) as E2.
  assert (Hr : m1 mod 2 ^ k <= m2 mod 2 ^ k) by (rewrite Heq in E1; lia).
  unfold Double.rne in *. cbv zeta in *. rewrite Heq in *.
  destruct (Z.ltb_spec (2 * (m1 mod 2 ^ k)) (2 ^ k));
    destruct (Z.ltb_spec (2 * (m2 mod 2 ^ k)) (2 ^ k)); try lia;
    destruct (Z.eqb_spec (2 * (m1 mod 2 ^ k)) (2 ^ k));
    destruct (Z.eqb_spec (2 * (m2 mod 2 ^ k)) (2 ^ k)); try lia;
    destruct (Z.even (m2 / 2 ^ k)); lia.
Qed.

Lemma rne_scale m k j :
  0 <= k -> 0 <= j -> Double.rne (m * 2 ^ j) (k + j) = Double.rne m k.
Proof.
  intros Hk Hj. pose proof (pow2_pos k Hk). pose proof (pow2_pos j Hj).
  unfold Double.rne. cbv zeta. rewrite Z.pow_add_r by lia.
  rewrite Z.div_mul_cancel_r, Z.mul_mod_distr_r by lia.
  set (r := m mod 2 ^ k). set (q := m / 2 ^ k).
  destruct (Z.ltb_spec (2 * r) (2 ^ k));
    destruct (Z.ltb_spec (2 * (r * 2 ^ j)) (2 ^ k * 2 ^ j)); try nia;
    destruct (Z.eqb_spec (2 * r) (2 ^ k));
    destruct (Z.eqb_spec (2 * (r * 2 ^ j)) (2 ^ k * 2 ^ j)); try nia;
    reflexivity.
Qed.


(** *** [binary_round_aux] *)

Lemma fexp_eq x : fexp 53 1024 x = Z.max (x - 53) (-1074).
Proof. reflexivity. Qed.

Lemma Zdigits2_pow2 n : 0 <= n -> Zdigits2 (2 ^ n) = n + 1.
Proof.
  intros Hn. pose proof (pow2_pos n Hn).
  apply Zdigits2_unique; [ lia | ].
  replace (n + 1 - 1) with n by lia. rewrite Z.pow_add_r by lia. lia.
Qed.

Lemma Zdigits2_lt_pow2 m d : 0 < m -> 0 <= d -> m < 2 ^ d -> Zdigits2 m <= d.
Proof.
  intros Hm Hd Hlt. pose proof (Zdigits2_bounds m Hm) as [Hlo _].
  destruct (Z_le_gt_dec (Zdigits2 m) d) as [|Hgt]; [ assumption | exfalso ].
  assert (2 ^ d <= 2 ^ (Zdigits2 m - 1)) by (apply Z.pow_le_mono_r; lia). lia.
Qed.

Lemma Zdigits2_ge_pow2 m d : 0 <= d -> 2 ^ d <= m -> d + 1 <= Zdigits2 m.
Proof.
  intros Hd Hle. pose proof (pow2_pos d Hd).
  pose proof (Zdigits2_bounds m ltac:(lia)) as [_ Hhi].
  pose proof (Zdigits2_pos m ltac:(lia)).
  destruct (Z_le_gt_dec (d + 1) (Zdigits2 m)) as [|Hgt]; [ assumption | exfalso ].
  assert (2 ^ Zdigits2 m <= 2 ^ d) by (apply Z.pow_le_mono_r; lia). lia.
Qed.

Lemma shr_nonpos mrs e n : n <= 0 -> shr mrs e n = (mrs, e).
Proof. intros Hn. destruct n as [|p|p]; [ reflexivity | lia | reflexivity ]. Qed.

(** What [binary_round_aux] makes of the exact number [M * 2^E]: the
    mantissa is rounded at the exponent [fexp] gives; a mantissa that reaches
    2^53 is halved. *)
Lemma binary_round_aux_cases s M E :
  0 < M ->
  E <= fexp 53 1024 (Zdigits2 M + E) ->
  Zdigits2 M + E <= 1000 ->
  let e' := fexp 53 1024 (Zdigits2 M + E) in
  let q := Double.rne M (e' - E) in
  (q = 0 /\ binary_round_aux 53 1024 s M E loc_Exact = S754_zero s) \/
  (exists p, q = Z.pos p /\ Z.pos p < 2 ^ 53 /\
     (e' = -1074 \/ 2 ^ 52 <= Z.pos p) /\
     binary_round_aux 53 1024 s M E loc_Exact = S754_finite s p e') \/
  (q = 2 ^ 53 /\
     binary_round_aux 53 1024 s M E loc_Exact
     = S754_finite s 4503599627370496 (e' + 1)).
Proof.
  intros HM Hk Hd e' q.
  pose proof (Zdigits2_bounds M HM) as [HMlo HMhi].
  pose proof (Zdigits2_pos M HM) as HdM.
  assert (He' : e' = Z.max (Zdigits2 M + E - 53) (-1074)) by reflexivity.
  assert (Hk0 : 0 <= e' - E) by (unfold e'; lia).
  (* the rounded mantissa is at most 2^53 *)
  assert (Hq53 : 0 <= q <= 2 ^ 53).
  { split.
    - pose proof (rne_bounds M (e' - E) Hk0).
      pose proof (Z.div_pos M (2 ^ (e' - E)) ltac:(lia) (pow2_pos _ Hk0)).
      unfold q. lia.
    - set (D := Z.max (Zdigits2 M) (e' - E)).
      assert (HMD : M <= 2 ^ (D - (e' - E)) * 2 ^ (e' - E)).
      { rewrite <- Z.pow_add_r by lia.
        replace (D - (e' - E) + (e' - E)) with D by lia.
        assert (2 ^ Zdigits2 M <= 2 ^ D) by (apply Z.pow_le_mono_r; lia). lia. }
      pose proof (rne_mono _ _ (e' - E) Hk0 HMD) as Hle.
      rewrite rne_exact in Hle by exact Hk0.
      assert (2 ^ (D - (e' - E)) <= 2 ^ 53) by (apply Z.pow_le_mono_r; lia).
      unfold q. lia. }
  (* above the smallest exponent the mantissa has 53 digits *)
  assert (Hnorm : e' = -1074 \/ 2 ^ 52 <= q).
  { destruct (Z.eq_dec e' (-1074)) as [|Hne]; [ now left | right ].
    assert (Hke : e' - E = Zdigits2 M - 53) by lia.
    assert (HMlo' : 2 ^ 52 * 2 ^ (e' - E) <= M).
    { rewrite <- Z.pow_add_r by lia.
      replace (52 + (e' - E)) with (Zdigits2 M - 1) by lia. exact HMlo. }
    pose proof (rne_mono _ _ (e' - E) Hk0 HMlo') as Hle.
    rewrite rne_exact in Hle by exact Hk0. exact Hle. }
  unfold binary_round_aux, shr_fexp. cbn [shr_record_of_loc].
  fold e'.
  pose proof (shr_round M E (e' - E) ltac:(lia) Hk0) as Hshr.
  destruct (shr _ E (e' - E)) as [mrs e1]. destruct Hshr as [Hrne He1].
  fold q in Hrne. rewrite Hrne.
  replace e1 with e' by lia. clear He1 e1 Hrne mrs.
  destruct (Z.eq_dec q 0) as [Hq0|Hq0].
  - left. split; [ exact Hq0 | ]. rewrite Hq0.
    rewrite fexp_eq, shr_nonpos by (cbn [Zdigits2]; lia). reflexivity.
  - destruct (Z.eq_dec q (2 ^ 53)) as [Hq1|Hq1].
    + right; right. split; [ exact Hq1 | ]. rewrite Hq1.
      rewrite (Zdigits2_pow2 53) by lia. rewrite fexp_eq.
      replace (Z.max (53 + 1 + e' - 53) (-1074) - e') with 1 by lia.
      change (2 ^ 53) with 9007199254740992.
      cbn [shr SpecFloat.iter_pos shr_1 shr_m].
      replace (e' + 1 <=? 1024 - 53) with true by (symmetry; apply Z.leb_le; lia).
      reflexivity.
    + right; left.
      destruct q as [|p|p] eqn:Hq; [ lia | | lia ].
      exists p. split; [ reflexivity | ]. split; [ lia | ].
      split; [ exact Hnorm | ].
      assert (Hdq : Zdigits2 (Z.pos p) <= 53)
        by (apply Zdigits2_lt_pow2; lia).
      rewrite fexp_eq, shr_nonpos by lia. cbn [shr_m].
      replace (e' <=? 1024 - 53) with true by (symmetry; apply Z.leb_le; lia).
      reflexivity.
Qed.


Lemma valid_finite s p e :
  Z.pos p < 2 ^ 53 -> -1074 <= e <= 971 ->
  e = -1074 \/ 2 ^ 52 <= Z.pos p ->
  Double.valid (S754_finite s p e) = true.
Proof.
  intros Hp He Hn. unfold Double.valid. cbn [Double.is_finite valid_binary andb].
  unfold bounded, canonical_mantissa. rewrite fexp_eq.
  change (Z.pos (digits2_pos p)) with (Zdigits2 (Z.pos p)).
  assert (Hd : Zdigits2 (Z.pos p) <= 53) by (apply Zdigits2_lt_pow2; lia).
  assert (Hd' : e = -1074 \/ Zdigits2 (Z.pos p) = 53).
  { destruct Hn as [|Hn]; [ now left | right ].
    pose proof (Zdigits2_ge_pow2 (Z.pos p) 52 ltac:(lia) Hn). lia. }
  apply andb_true_intro. split; [ apply Z.eqb_eq | apply Z.leb_le ].
  - lia.
  - unfold Double.emax, Double.prec. lia.
Qed.

(** A valid finite double: its mantissa has at most 53 digits, and 53 of
    them above the smallest exponent. *)
Lemma valid_finite_inv s p e :
  Double.valid (S754_finite s p e) = true ->
  Z.pos p < 2 ^ 53 /\ -1074 <= e <= 971 /\ (e = -1074 \/ 2 ^ 52 <= Z.pos p).
Proof.
  unfold Double.valid. cbn [Double.is_finite valid_binary andb].
  unfold bounded, canonical_mantissa. rewrite fexp_eq.
  change (Z.pos (digits2_pos p)) with (Zdigits2 (Z.pos p)).
  intros H. apply andb_prop in H as [Hc Hb].
  apply Z.eqb_eq in Hc. apply Z.leb_le in Hb.
  unfold Double.emax, Double.prec in Hb.
  pose proof (Zdigits2_bounds (Z.pos p) ltac:(lia)) as [Hlo Hhi].
  assert (Hd : Zdigits2 (Z.pos p) <= 53) by lia.
  split; [ | split; [ lia | ] ].
  - assert (2 ^ Zdigits2 (Z.pos p) <= 2 ^ 53) by (apply Z.pow_le_mono_r; lia). lia.
  - destruct (Z.eq_dec e (-1074)) as [|Hne]; [ now left | right ].
    replace (Zdigits2 (Z.pos p)) with 53 in Hlo by lia. exact Hlo.
Qed.

Lemma cexp_shift M j :
  0 < M -> 0 <= j ->
  Double.cexp (M * 2 ^ j) = fexp 53 1024 (Zdigits2 M + (j - 2148)) + 2148.
Proof.
  intros HM Hj. unfold Double.cexp. rewrite Zdigits2_shift, fexp_eq by lia. lia.
Qed.

(** [binary_round_aux] returns the double nearest to [M * 2^E]. *)
Lemma binary_round_aux_value s M E :
  0 < M -> -2148 <= E ->
  E <= fexp 53 1024 (Zdigits2 M + E) ->
  Zdigits2 M + E <= 1000 ->
  Double.valid (binary_round_aux 53 1024 s M E loc_Exact) = true /\
  Double.value (binary_round_aux 53 1024 s M E loc_Exact)
  = Double.round ((if s then -1 else 1) * (M * 2 ^ (E + 2148))).
Proof.
  intros HM HE Hk Hd.
  pose proof (pow2_pos (E + 2148) ltac:(lia)) as Hj.
  assert (HV : 0 < M * 2 ^ (E + 2148)) by lia.
  assert (Hround : Double.round ((if s then -1 else 1) * (M * 2 ^ (E + 2148)))
          = (if s then -1 else 1)
            * (Double.rne M (fexp 53 1024 (Zdigits2 M + E) - E)
               * 2 ^ (fexp 53 1024 (Zdigits2 M + E) + 1074))).
  { unfold Double.round.
    replace (Z.abs ((if s then -1 else 1) * (M * 2 ^ (E + 2148))))
      with (M * 2 ^ (E + 2148)) by (destruct s; lia).
    replace (Z.sgn ((if s then -1 else 1) * (M * 2 ^ (E + 2148))))
      with (if s then -1 else 1) by (destruct s; lia).
    rewrite cexp_shift by lia.
    replace (E + 2148 - 2148) with E by lia.
    replace (fexp 53 1024 (Zdigits2 M + E) + 2148)
      with ((fexp 53 1024 (Zdigits2 M + E) - E) + (E + 2148)) at 1 by lia.
    rewrite rne_scale by lia.
    do 3 f_equal. lia. }
  rewrite Hround. clear Hround.
  pose proof (binary_round_aux_cases s M E HM Hk Hd) as Hcases.
  cbv zeta in Hcases. rewrite fexp_eq in *.
  set (e' := Z.max (Zdigits2 M + E - 53) (-1074)) in *.
  destruct Hcases as [[Hq ->]|[(p & Hq & Hp & Hn & ->)|[Hq ->]]]; rewrite Hq.
  - split; [ reflexivity | ]. cbn [Double.value]. lia.
  - split; [ apply valid_finite; lia | ]. cbn [Double.value]. reflexivity.
  - split; [ apply valid_finite; [ reflexivity | lia | right; reflexivity ] | ].
    cbn [Double.value]. change 4503599627370496 with (2 ^ 52).
    replace (e' + 1 + 1074) with (1 + (e' + 1074)) by lia.
    rewrite (Z.pow_add_r 2 1 (e' + 1074)) by lia.
    change (2 ^ 53) with (2 ^ 52 * 2 ^ 1). lia.
Qed.

(** *** The rounding function *)

Lemma round_pos_eq v :
  0 < v -> Double.round v = Double.rne v (Double.cexp v) * 2 ^ (Double.cexp v - 1074).
Proof.
  intros Hv. unfold Double.round. rewrite Z.abs_eq, Z.sgn_pos by lia. lia.
Qed.

Lemma round_0 : Double.round 0 = 0.
Proof. reflexivity. Qed.

Lemma round_opp v : Double.round (- v) = - Double.round v.
Proof. unfold Double.round. rewrite Z.abs_opp, Z.sgn_opp. lia. Qed.

Lemma cexp_ge v : 1074 <= Double.cexp v.
Proof. unfold Double.cexp. lia. Qed.

Lemma round_pos_nonneg v : 0 < v -> 0 <= Double.round v.
Proof.
  intros Hv. rewrite round_pos_eq by exact Hv.
  pose proof (cexp_ge v) as Hc.
  pose proof (rne_bounds v (Double.cexp v) ltac:(lia)) as [Hlo _].
  pose proof (pow2_pos (Double.cexp v) ltac:(lia)) as Hp.
  pose proof (Z.div_pos v (2 ^ Double.cexp v) ltac:(lia) Hp).
  pose proof (pow2_pos (Double.cexp v - 1074) ltac:(lia)).
  apply Z.mul_nonneg_nonneg; lia.
Qed.

Lemma round_pos_mono v1 v2 : 0 < v1 <= v2 -> Double.round v1 <= Double.round v2.
Proof.
  intros [H1 H12]. rewrite !round_pos_eq by lia.
  pose proof (Zdigits2_le v1 v2 (conj H1 H12)) as Hd.
  pose proof (Zdigits2_bounds v1 H1) as [_ Hhi1].
  pose proof (Zdigits2_bounds v2 ltac:(lia)) as [Hlo2 _].
  pose proof (Zdigits2_pos v1 H1) as Hd1.
  unfold Double.cexp.
  set (d1 := Zdigits2 v1) in *. set (d2 := Zdigits2 v2) in *.
  set (c1 := Z.max (d1 - 53) 1074). set (c2 := Z.max (d2 - 53) 1074).
  assert (Hc1 : 1074 <= c1) by (unfold c1; lia).
  assert (Hc2 : 1074 <= c2) by (unfold c2; lia).
  destruct (Z.eq_dec c1 c2) as [Heq|Hne].
  - rewrite Heq. apply Z.mul_le_mono_nonneg_r.
    + pose proof (pow2_pos (c2 - 1074) ltac:(lia)). lia.
    + apply rne_mono; lia.
  - assert (Hlt : c1 < c2) by (unfold c1, c2 in *; lia).
    assert (Hc2' : c2 = d2 - 53) by (unfold c1, c2 in *; lia).
    set (D1 := Z.max d1 c1).
    assert (Hup : Double.rne v1 c1 <= 2 ^ (D1 - c1)).
    { assert (Hv1 : v1 <= 2 ^ (D1 - c1) * 2 ^ c1).
      { rewrite <- Z.pow_add_r by (unfold D1; lia).
        replace (D1 - c1 + c1) with D1 by lia.
        assert (2 ^ d1 <= 2 ^ D1) by (apply Z.pow_le_mono_r; unfold D1; lia). lia. }
      pose proof (rne_mono _ _ c1 ltac:(lia) Hv1) as Hle.
      rewrite rne_exact in Hle by lia. exact Hle. }
    assert (Hlow : 2 ^ 52 <= Double.rne v2 c2).
    { assert (Hv2 : 2 ^ 52 * 2 ^ c2 <= v2).
      { rewrite <- Z.pow_add_r by lia.
        replace (52 + c2) with (d2 - 1) by lia. exact Hlo2. }
      pose proof (rne_mono _ _ c2 ltac:(lia) Hv2) as Hle.
      rewrite rne_exact in Hle by lia. exact Hle. }
    pose proof (pow2_pos (c1 - 1074) ltac:(lia)) as Hp1.
    pose proof (pow2_pos (c2 - 1074) ltac:(lia)) as Hp2.
    apply Z.le_trans with (2 ^ (D1 - c1) * 2 ^ (c1 - 1074)).
    { apply Z.mul_le_mono_nonneg_r; lia. }
    apply Z.le_trans with (2 ^ 52 * 2 ^ (c2 - 1074)).
    2:{ apply Z.mul_le_mono_nonneg_r; lia. }
    rewrite <- !Z.pow_add_r by (unfold D1; lia).
    apply Z.pow_le_mono_r; [ lia | unfold D1; lia ].
Qed.

(** Rounding is monotone. *)
Lemma round_mono v1 v2 : v1 <= v2 -> Double.round v1 <= Double.round v2.
Proof.
  intros Hle.
  destruct (Z.lt_trichotomy v1 0) as [Hn1|[->|Hp1]];
    destruct (Z.lt_trichotomy v2 0) as [Hn2|[->|Hp2]]; try lia.
  - replace v1 with (- (- v1)) by lia. replace v2 with (- (- v2)) by lia.
    rewrite (round_opp (- v1)), (round_opp (- v2)).
    pose proof (round_pos_mono (- v2) (- v1) ltac:(lia)). lia.
  - replace v1 with (- (- v1)) by lia. rewrite round_opp, round_0.
    pose proof (round_pos_nonneg (- v1) ltac:(lia)). lia.
  - replace v1 with (- (- v1)) by lia. rewrite round_opp.
    pose proof (round_pos_nonneg (- v1) ltac:(lia)).
    pose proof (round_pos_nonneg v2 Hp2). lia.
  - rewrite round_0. apply round_pos_nonneg. exact Hp2.
  - apply round_pos_mono. lia.
Qed.

(** A number of at most 53 digits, at an exponent of 2^-1074 or more, is
    rounded to itself. *)
Lemma round_exact z e :
  Z.abs z < 2 ^ 53 -> 1074 <= e -> Double.round (z * 2 ^ e) = z * 2 ^ (e - 1074).
Proof.
  assert (Hpos : forall m, 0 < m < 2 ^ 53 -> 1074 <= e ->
            Double.round (m * 2 ^ e) = m * 2 ^ (e - 1074)).
  { intros m Hm He. pose proof (pow2_pos e ltac:(lia)).
    rewrite round_pos_eq by nia.
    unfold Double.cexp. rewrite Zdigits2_shift by lia.
    pose proof (Zdigits2_lt_pow2 m 53 ltac:(lia) ltac:(lia) ltac:(lia)) as Hd.
    pose proof (Zdigits2_pos m ltac:(lia)) as Hd0.
    set (c := Z.max (Zdigits2 m + e - 53) 1074).
    assert (Hc : 1074 <= c <= e) by (unfold c; lia).
    replace (m * 2 ^ e) with ((m * 2 ^ (e - c)) * 2 ^ c).
    2:{ rewrite <- Z.mul_assoc, <- Z.pow_add_r by lia. do 2 f_equal. lia. }
    rewrite rne_exact by lia.
    rewrite <- Z.mul_assoc, <- Z.pow_add_r by lia. do 2 f_equal. lia. }
  intros Hz He.
  destruct (Z.lt_trichotomy z 0) as [Hn|[->|Hp]].
  - replace (z * 2 ^ e) with (- ((- z) * 2 ^ e)) by lia.
    rewrite round_opp, Hpos by lia. lia.
  - reflexivity.
  - apply Hpos; lia.
Qed.

(** *** Values and the order of doubles *)

Lemma valid_cases x :
  Double.valid x = true ->
  (exists s, x = S754_zero s) \/
  (exists s m e, x = S754_finite s m e /\
     Z.pos m < 2 ^ 53 /\ -1074 <= e <= 971 /\ (e = -1074 \/ 2 ^ 52 <= Z.pos m)).
Proof.
  intros Hx. destruct x as [s|s| |s m e]; try discriminate Hx.
  - left. now exists s.
  - right. exists s, m, e. split; [ reflexivity | ]. exact (valid_finite_inv s m e Hx).
Qed.

Lemma value_zero x :
  Double.valid x = true -> Double.value x = 0 -> exists s, x = S754_zero s.
Proof.
  intros Hx Hv. destruct (valid_cases x Hx) as [Hz|(s & m & e & -> & _ & He & _)];
    [ exact Hz | exfalso ].
  cbn [Double.value] in Hv. pose proof (pow2_pos (e + 1074) ltac:(lia)).
  destruct s; nia.
Qed.

(** Of two normalised numbers the one with the larger exponent is the
    larger. *)
Lemma canonical_lt m1 e1 m2 e2 :
  Z.pos m1 < 2 ^ 53 -> -1074 <= e1 ->
  (e2 = -1074 \/ 2 ^ 52 <= Z.pos m2) ->
  e1 < e2 ->
  Z.pos m1 * 2 ^ (e1 + 1074) < Z.pos m2 * 2 ^ (e2 + 1074).
Proof.
  intros Hm1 He1 Hn2 Hlt. destruct Hn2 as [|Hn2]; [ lia | ].
  pose proof (pow2_pos (e1 + 1074) ltac:(lia)) as Hp1.
  pose proof (pow2_pos (e2 + 1074) ltac:(lia)) as Hp2.
  apply Z.lt_le_trans with (2 ^ 53 * 2 ^ (e1 + 1074)).
  { apply Z.mul_lt_mono_pos_r; lia. }
  apply Z.le_trans with (2 ^ 52 * 2 ^ (e2 + 1074)).
  2:{ apply Z.mul_le_mono_nonneg_r; lia. }
  rewrite <- !Z.pow_add_r by lia. apply Z.pow_le_mono_r; lia.
Qed.

(** On finite doubles [SFleb] is the order of the values. *)
Lemma SFleb_value x y :
  Double.valid x = true -> Double.valid y = true ->
  SFleb x y = (Double.value x <=? Double.value y).
Proof.
  intros Hx Hy.
  destruct (valid_cases x Hx) as [[sx ->]|(sx & mx & ex & -> & Hmx & Hex & Hnx)];
    destruct (valid_cases y Hy) as [[sy ->]|(sy & my & ey & -> & Hmy & Hey & Hny)].
  - reflexivity.
  - pose proof (pow2_pos (ey + 1074) ltac:(lia)).
    unfold SFleb, SFcompare. cbn [Double.value].
    set (Y := Z.pos my * 2 ^ (ey + 1074)). assert (0 < Y) by (unfold Y; lia).
    destruct sy; symmetry; [ apply Z.leb_gt | apply Z.leb_le ]; lia.
  - pose proof (pow2_pos (ex + 1074) ltac:(lia)).
    unfold SFleb, SFcompare. cbn [Double.value].
    set (X := Z.pos mx * 2 ^ (ex + 1074)). assert (0 < X) by (unfold X; lia).
    destruct sx; symmetry; [ apply Z.leb_le | apply Z.leb_gt ]; lia.
  - pose proof (pow2_pos (ex + 1074) ltac:(lia)).
    pose proof (pow2_pos (ey + 1074) ltac:(lia)).
    pose proof (canonical_lt mx ex my ey Hmx ltac:(lia) Hny) as Hlt.
    pose proof (canonical_lt my ey mx ex Hmy ltac:(lia) Hnx) as Hgt.
    unfold SFleb, SFcompare. cbn [Double.value].
    change (Pos.compare_cont Eq mx my) with (Pos.compare mx my).
    destruct (Z.compare_spec ex ey) as [Heq|Hc|Hc].
    + subst ey. clear Hlt Hgt.
      set (a := 2 ^ (ex + 1074)) in *.
      destruct (Pos.compare_spec mx my) as [Hm|Hm|Hm].
      * subst my. destruct sx, sy; symmetry;
          first [ apply Z.leb_le; lia | apply Z.leb_gt; lia ].
      * assert (Z.pos mx * a < Z.pos my * a) by (apply Z.mul_lt_mono_pos_r; lia).
        destruct sx, sy; cbn [CompOpp]; symmetry;
          first [ apply Z.leb_le; lia | apply Z.leb_gt; lia ].
      * assert (Z.pos my * a < Z.pos mx * a) by (apply Z.mul_lt_mono_pos_r; lia).
        destruct sx, sy; cbn [CompOpp]; symmetry;
          first [ apply Z.leb_le; lia | apply Z.leb_gt; lia ].
    + specialize (Hlt Hc). clear Hgt.
      set (X := Z.pos mx * 2 ^ (ex + 1074)) in *.
      set (Y := Z.pos my * 2 ^ (ey + 1074)) in *.
      assert (0 < X) by (unfold X; lia).
      destruct sx, sy; symmetry;
        first [ apply Z.leb_le; lia | apply Z.leb_gt; lia ].
    + specialize (Hgt Hc). clear Hlt.
      set (X := Z.pos mx * 2 ^ (ex + 1074)) in *.
      set (Y := Z.pos my * 2 ^ (ey + 1074)) in *.
      assert (0 < Y) by (unfold Y; lia).
      destruct sx, sy; symmetry;
        first [ apply Z.leb_le; lia | apply Z.leb_gt; lia ].
Qed.

Lemma SFleb_le x y :
  Double.valid x = true -> Double.valid y = true ->
  SFleb x y = true <-> Double.value x <= Double.value y.
Proof.
  intros Hx Hy. rewrite (SFleb_value x y Hx Hy). apply Z.leb_le.
Qed.

(** A finite double is the rounding of its value. *)
Lemma round_value x :
  Double.valid x = true ->
  Double.round (Double.value x * 2 ^ 1074) = Double.value x.
Proof.
  intros Hx.
  destruct (valid_cases x Hx) as [[s ->]|(s & m & e & -> & Hm & He & _)].
  - reflexivity.
  - cbn [Double.value].
    replace ((if s then -1 else 1) * (Z.pos m * 2 ^ (e + 1074)) * 2 ^ 1074)
      with (((if s then -1 else 1) * Z.pos m) * 2 ^ (e + 2148)).
    2:{ replace (e + 2148) with ((e + 1074) + 1074) by lia.
        rewrite Z.pow_add_r by lia. ring. }
    rewrite round_exact by (destruct s; lia).
    replace (e + 2148 - 1074) with (e + 1074) by lia. ring.
Qed.

(** *** The operations *)

Lemma Zdigits2_plus_le m j b :
  0 < m -> 0 <= j -> 0 <= b -> m * 2 ^ j < 2 ^ b -> Zdigits2 m + j <= b.
Proof.
  intros Hm Hj Hb Hlt. rewrite <- Zdigits2_shift by lia.
  pose proof (pow2_pos j Hj). apply Zdigits2_lt_pow2; nia.
Qed.

(** The product of a zero or a normal number with a finite double is the
    rounding of the product of the values. *)
Lemma mul_value x y :
  Double.valid x = true -> Double.valid y = true ->
  Double.value x = 0 \/ 2 ^ 52 <= Z.abs (Double.value x) ->
  Z.abs (Double.value x * Double.value y) < 2 ^ 3148 ->
  Double.valid (Double.mul x y) = true /\
  Double.value (Double.mul x y) = Double.round (Double.value x * Double.value y).
Proof.
  intros Hx Hy Hnorm Hbound.
  destruct (valid_cases x Hx) as [[sx ->]|(sx & mx & ex & -> & Hmx & Hex & Hnx)];
    destruct (valid_cases y Hy) as [[sy ->]|(sy & my & ey & -> & Hmy & Hey & Hny)].
  - split; reflexivity.
  - split; reflexivity.
  - split; [ reflexivity | ]. cbn [Double.mul SFmul Double.value].
    rewrite Z.mul_0_r. reflexivity.
  - unfold Double.mul, Double.prec, Double.emax. cbn [SFmul].
    cbn [Double.value] in Hnorm, Hbound |- *.
    pose proof (pow2_pos (ex + 1074) ltac:(lia)) as Hpx.
    pose proof (pow2_pos (ey + 1074) ltac:(lia)) as Hpy.
    assert (Hpow : 2 ^ (ex + ey + 2148) = 2 ^ (ex + 1074) * 2 ^ (ey + 1074)).
    { rewrite <- Z.pow_add_r by lia. f_equal. lia. }
    assert (Hmx52 : 2 ^ 52 <= Z.pos mx).
    { destruct Hnx as [->|]; [ | assumption ].
      change (2 ^ (-1074 + 1074)) with 1 in Hnorm. destruct sx; lia. }
    assert (Harg : (if sx then -1 else 1) * (Z.pos mx * 2 ^ (ex + 1074))
                   * ((if sy then -1 else 1) * (Z.pos my * 2 ^ (ey + 1074)))
                   = (if xorb sx sy then -1 else 1)
                     * (Z.pos (mx * my) * 2 ^ (ex + ey + 2148))).
    { rewrite Hpow, Pos2Z.inj_mul. destruct sx, sy; cbn [xorb]; ring. }
    rewrite Harg in *.
    assert (HM : 0 < Z.pos (mx * my)) by lia.
    apply binary_round_aux_value.
    + exact HM.
    + lia.
    + rewrite fexp_eq.
      assert (53 <= Zdigits2 (Z.pos (mx * my))).
      { apply (Zdigits2_ge_pow2 _ 52); [ lia | ]. rewrite Pos2Z.inj_mul. nia. }
      lia.
    + assert (Zdigits2 (Z.pos (mx * my)) + (ex + ey + 2148) <= 3148).
      { apply Zdigits2_plus_le; [ lia | lia | lia | ].
        pose proof (pow2_pos (ex + ey + 2148) ltac:(lia)).
        destruct (xorb sx sy); lia. }
      lia.
Qed.

Lemma pos_iter_xO m d : Z.pos (Pos.iter xO m d) = Z.pos m * 2 ^ Z.pos d.
Proof.
  induction d as [|d IH] using Pos.peano_ind.
  - cbn [Pos.iter]. change (2 ^ 1) with 2. lia.
  - rewrite Pos.iter_succ, Pos2Z.inj_succ, Z.pow_succ_r by lia.
    rewrite Pos2Z.inj_xO, IH. ring.
Qed.

Lemma shl_align_spec mx ex ex' :
  snd (shl_align mx ex ex') = Z.min ex ex' /\
  Z.pos (fst (shl_align mx ex ex')) = Z.pos mx * 2 ^ (ex - Z.min ex ex').
Proof.
  unfold shl_align. destruct (ex' - ex) as [|d|d] eqn:Hd; cbn [fst snd].
  - replace (Z.min ex ex') with ex by lia. rewrite Z.sub_diag. lia.
  - replace (Z.min ex ex') with ex by lia. rewrite Z.sub_diag. lia.
  - replace (Z.min ex ex') with ex' by lia. rewrite pos_iter_xO.
    split; [ reflexivity | ]. do 2 f_equal. lia.
Qed.

Lemma binary_round_value s m e :
  -2148 <= e -> Zdigits2 (Z.pos m) + e <= 1000 ->
  Double.valid (binary_round 53 1024 s m e) = true /\
  Double.value (binary_round 53 1024 s m e)
  = Double.round ((if s then -1 else 1) * (Z.pos m * 2 ^ (e + 2148))).
Proof.
  intros He Hd. unfold binary_round.
  change (Z.pos (digits2_pos m)) with (Zdigits2 (Z.pos m)).
  pose proof (shl_align_spec m e (fexp 53 1024 (Zdigits2 (Z.pos m) + e)))
    as [Hez Hmz].
  destruct (shl_align m e _) as [mz ez]. cbn [fst snd] in Hez, Hmz.
  rewrite fexp_eq in Hez, Hmz.
  assert (Hdz : Zdigits2 (Z.pos mz) + ez = Zdigits2 (Z.pos m) + e).
  { rewrite Hmz, Zdigits2_shift by lia. lia. }
  replace (Z.pos m * 2 ^ (e + 2148)) with (Z.pos mz * 2 ^ (ez + 2148)).
  2:{ rewrite Hmz, <- Z.mul_assoc, <- Z.pow_add_r by lia. do 2 f_equal. lia. }
  apply binary_round_aux_value.
  - lia.
  - lia.
  - rewrite Hdz, fexp_eq. lia.
  - lia.
Qed.

Lemma binary_normalize_value m e :
  -2148 <= e -> Z.abs m * 2 ^ (e + 2148) < 2 ^ 3148 ->
  Double.valid (binary_normalize 53 1024 m e false) = true /\
  Double.value (binary_normalize 53 1024 m e false) = Double.round (m * 2 ^ (e + 2148)).
Proof.
  intros He Hb. destruct m as [|p|p]; cbn [binary_normalize].
  - split; reflexivity.
  - replace (Z.pos p * 2 ^ (e + 2148)) with (1 * (Z.pos p * 2 ^ (e + 2148))) by lia.
    apply (binary_round_value false); [ lia | ].
    assert (Zdigits2 (Z.pos p) + (e + 2148) <= 3148)
      by (apply Zdigits2_plus_le; lia).
    lia.
  - replace (Z.neg p * 2 ^ (e + 2148)) with (-1 * (Z.pos p * 2 ^ (e + 2148))) by lia.
    apply (binary_round_value true); [ lia | ].
    assert (Zdigits2 (Z.pos p) + (e + 2148) <= 3148)
      by (apply Zdigits2_plus_le; lia).
    lia.
Qed.

(** The conversion of an integer of at most 53 bits is exact. *)
Lemma of_Z_value z :
  Z.abs z < 2 ^ 53 ->
  Double.valid (Double.of_Z z) = true /\ Double.value (Double.of_Z z) = z * 2 ^ 1074.
Proof.
  intros Hz. unfold Double.of_Z, Double.prec, Double.emax.
  destruct (binary_normalize_value z 0) as [Hv Hval].
  - lia.
  - change (2 ^ (0 + 2148)) with (2 ^ 2148).
    assert (2 ^ 53 * 2 ^ 2148 < 2 ^ 3148) by (rewrite <- Z.pow_add_r by lia;
      apply Z.pow_lt_mono_r; lia).
    pose proof (pow2_pos 2148 ltac:(lia)). nia.
  - split; [ exact Hv | ]. rewrite Hval.
    change (0 + 2148) with 2148. rewrite round_exact by lia. reflexivity.
Qed.

(** The difference of two finite doubles is the rounding of the difference
    of the values. *)
Lemma sub_value x y :
  Double.valid x = true -> Double.valid y = true ->
  Z.abs (Double.value x - Double.value y) < 2 ^ 2074 ->
  Double.valid (Double.sub x y) = true /\
  Double.value (Double.sub x y) = Double.round ((Double.value x - Double.value y) * 2 ^ 1074).
Proof.
  intros Hx Hy Hbound.
  pose proof (round_value x Hx) as Hrx. pose proof (round_value y Hy) as Hry.
  destruct (valid_cases x Hx) as [[sx ->]|(sx & mx & ex & -> & Hmx & Hex & Hnx)];
    destruct (valid_cases y Hy) as [[sy ->]|(sy & my & ey & -> & Hmy & Hey & Hny)].
  - cbn [Double.sub SFsub Double.value]. destruct sx, sy; split; reflexivity.
  - unfold Double.sub. cbn [SFsub]. split; [ exact Hy | ].
    replace ((Double.value (S754_zero sx) - Double.value (S754_finite sy my ey)) * 2 ^ 1074)
      with (- (Double.value (S754_finite sy my ey) * 2 ^ 1074)) by (cbn [Double.value]; ring).
    rewrite round_opp, Hry. cbn [Double.value]. destruct sy; cbn [negb]; ring.
  - unfold Double.sub. cbn [SFsub]. split; [ exact Hx | ].
    replace (Double.value (S754_finite sx mx ex) - Double.value (S754_zero sy))
      with (Double.value (S754_finite sx mx ex)) by (cbn [Double.value]; ring).
    symmetry. exact Hrx.
  - unfold Double.sub, Double.prec, Double.emax. cbn [SFsub]. cbv zeta.
    pose proof (shl_align_spec mx ex (Z.min ex ey)) as [_ Hax].
    pose proof (shl_align_spec my ey (Z.min ex ey)) as [_ Hay].
    rewrite Hax, Hay.
    replace (Z.min ex (Z.min ex ey)) with (Z.min ex ey) by lia.
    replace (Z.min ey (Z.min ex ey)) with (Z.min ex ey) by lia.
    set (ez := Z.min ex ey).
    assert (Hez : -1074 <= ez) by (unfold ez; lia).
    pose proof (pow2_pos (ez + 1074) ltac:(lia)) as Hpz.
    assert (Hvx : Double.value (S754_finite sx mx ex)
                  = cond_Zopp sx (Z.pos mx * 2 ^ (ex - ez)) * 2 ^ (ez + 1074)).
    { cbn [Double.value]. replace (ex + 1074) with ((ex - ez) + (ez + 1074)) by lia.
      rewrite Z.pow_add_r by (unfold ez; lia).
      destruct sx; cbn [cond_Zopp]; ring. }
    assert (Hvy : Double.value (S754_finite sy my ey)
                  = cond_Zopp sy (Z.pos my * 2 ^ (ey - ez)) * 2 ^ (ez + 1074)).
    { cbn [Double.value]. replace (ey + 1074) with ((ey - ez) + (ez + 1074)) by lia.
      rewrite Z.pow_add_r by (unfold ez; lia).
      destruct sy; cbn [cond_Zopp]; ring. }
    rewrite Hvx, Hvy in Hbound |- *.
    set (a := cond_Zopp sx (Z.pos mx * 2 ^ (ex - ez))) in *.
    set (b := cond_Zopp sy (Z.pos my * 2 ^ (ey - ez))) in *.
    replace ((a * 2 ^ (ez + 1074) - b * 2 ^ (ez + 1074)) * 2 ^ 1074)
      with ((a - b) * 2 ^ (ez + 2148)).
    2:{ replace (ez + 2148) with ((ez + 1074) + 1074) by lia.
        rewrite Z.pow_add_r by lia. ring. }
    apply binary_normalize_value; [ lia | ].
    replace (ez + 2148) with ((ez + 1074) + 1074) by lia.
    rewrite Z.pow_add_r, Z.mul_assoc by lia.
    replace (a * 2 ^ (ez + 1074) - b * 2 ^ (ez + 1074))
      with ((a - b) * 2 ^ (ez + 1074)) in Hbound by ring.
    rewrite Z.abs_mul, (Z.abs_eq (2 ^ (ez + 1074))) in Hbound by lia.
    change (2 ^ 3148) with (2 ^ 2074 * 2 ^ 1074).
    apply Z.mul_lt_mono_pos_r; [ reflexivity | exact Hbound ].
Qed.

(** [int(x)] of a double from 0 to below 2^31 is the integer part of its
    value. *)
Lemma to_int_value x :
  Double.valid x = true -> 0 <= Double.value x < 2 ^ 31 * 2 ^ 1074 ->
  Double.to_int x = Some (Double.value x / 2 ^ 1074).
Proof.
  intros Hx Hr.
  destruct (valid_cases x Hx) as [[s ->]|(s & m & e & -> & Hm & He & _)].
  - reflexivity.
  - unfold Double.to_int. cbn [Double.value] in Hr |- *.
    pose proof (pow2_pos (e + 1074) ltac:(lia)) as Hp.
    destruct s; [ lia | ].
    rewrite Z.mul_1_l in Hr |- *.
    assert (Ha : (if 0 <=? e then Z.pos m * 2 ^ e else Z.pos m / 2 ^ (- e))
                 = Z.pos m * 2 ^ (e + 1074) / 2 ^ 1074).
    { destruct (Z.leb_spec 0 e).
      - rewrite Z.pow_add_r, Z.mul_assoc, Z.div_mul by lia. reflexivity.
      - replace 1074 with ((- e) + (e + 1074)) at 2 by lia.
        rewrite (Z.pow_add_r 2 (- e) (e + 1074)) by lia.
        rewrite Z.div_mul_cancel_r; [ reflexivity | | lia ].
        pose proof (pow2_pos (- e) ltac:(lia)). lia. }
    rewrite Ha.
    set (v := Z.pos m * 2 ^ (e + 1074) / 2 ^ 1074).
    assert (Hv : 0 <= v < 2 ^ 31).
    { unfold v. split.
      - apply Z.div_pos; [ lia | reflexivity ].
      - apply Z.div_lt_upper_bound; [ reflexivity | lia ]. }
    unfold Machine.INT_MIN, Machine.INT_MAX.
    destruct (Z.leb_spec (- 2 ^ 31) v); [ | lia ].
    destruct (Z.leb_spec v (2 ^ 31 - 1)); [ | lia ].
    reflexivity.
Qed.

(** *** The occupancy estimate *)

Section OccupancyRange.
Context `{E : Engine}.

(** The argument of [log] in [full] lies between 1/2 and 1 for every size
    [set_size] can give. *)
Lemma log_argument_range j :
  0 <= j <= 29 ->
  let a := Double.sub (Double.of_Z 1)
             (Double.div (Double.of_Z 1)
                (Double.mul (Double.of_Z (2 ^ j)) (Double.of_Z 4))) in
  Double.valid a = true /\
  SFleb (Double.div (Double.of_Z 1) (Double.of_Z 2)) a = true /\
  SFleb a (Double.of_Z 1) = true.
Proof.
  intros Hj.
  assert (Hall : forallb (fun n =>
            let a := Double.sub (Double.of_Z 1)
                       (Double.div (Double.of_Z 1)
                          (Double.mul (Double.of_Z (2 ^ Z.of_nat n)) (Double.of_Z 4))) in
            Double.valid a && SFleb (Double.div (Double.of_Z 1) (Double.of_Z 2)) a
            && SFleb a (Double.of_Z 1))
            (seq 0 30) = true) by (vm_compute; reflexivity).
  rewrite forallb_forall in Hall.
  specialize (Hall (Z.to_nat j)). rewrite Z2Nat.id in Hall by lia.
  cbv zeta in Hall |- *.
  destruct (andb_prop _ _ (Hall ltac:(apply in_seq; lia))) as [H12 H3].
  destruct (andb_prop _ _ H12) as [H1 H2]. auto.
Qed.

(** [full], step by step: the logarithm [L], the product [P], the
    exponential [X], and the result as the integer part of a rounded
    value. *)
Lemma full_eval t :
  sized t -> 0 <= writes t < 2 ^ 32 ->
  (forall x, Double.valid x = true ->
     SFleb (Double.div (Double.of_Z 1) (Double.of_Z 2)) x = true ->
     SFleb x (Double.of_Z 1) = true ->
     Double.valid (log x) = true /\
     SFleb (Double.of_Z (-1)) (log x) = true /\
     SFleb (log x) (Double.of_Z 0) = true) ->
  (forall a, Double.valid a = true -> SFleb a (Double.of_Z 0) = true ->
     Double.valid (exp a) = true /\
     SFleb (Double.of_Z 0) (exp a) = true /\
     SFleb (exp a) (Double.of_Z 1) = true) ->
  let L := log (Double.sub (Double.of_Z 1)
                  (Double.div (Double.of_Z 1)
                     (Double.mul (Double.of_Z (size t)) (Double.of_Z 4)))) in
  let P := Double.mul (Double.of_Z (writes t)) L in
  let X := exp P in
  let r := Double.round (1000 * 2 ^ 1074 * Double.round ((2 ^ 1074 - Double.value X) * 2 ^ 1074)) in
  Double.value L <= 0 /\
  Double.valid P = true /\ Double.value P = Double.round (writes t * 2 ^ 1074 * Double.value L) /\
  Double.value P <= 0 /\
  Double.valid X = true /\ 0 <= Double.value X <= 2 ^ 1074 /\
  0 <= r <= 1000 * 2 ^ 1074 /\
  full t = Some (r / 2 ^ 1074).
Proof.
  intros (j & Hj & Hs & _) Hw Hlog Hexp L P X r.
  set (c := 2 ^ 1074) in *.
  assert (Hc : 0 < c) by reflexivity.
  assert (Hc52 : 2 ^ 52 <= c) by (apply Z.pow_le_mono_r; lia).
  destruct (of_Z_value 0 ltac:(reflexivity)) as [Hv0 Hval0].
  destruct (of_Z_value 1 ltac:(reflexivity)) as [Hv1 Hval1].
  destruct (of_Z_value (-1) ltac:(reflexivity)) as [Hvm1 Hvalm1].
  destruct (of_Z_value 1000 ltac:(reflexivity)) as [Hv1000 Hval1000].
  destruct (of_Z_value (writes t) ltac:(lia)) as [Hvw Hvalw].
  fold c in Hval0, Hval1, Hvalm1, Hval1000, Hvalw.
  (* the logarithm *)
  pose proof (log_argument_range j Hj) as Harg. cbv zeta in Harg.
  rewrite <- Hs in Harg. destruct Harg as (Ha & Ha1 & Ha2).
  destruct (Hlog _ Ha Ha1 Ha2) as (HvL & HL1 & HL2). fold L in HvL, HL1, HL2.
  apply (SFleb_le _ _ Hvm1 HvL) in HL1. apply (SFleb_le _ _ HvL Hv0) in HL2.
  rewrite Hvalm1 in HL1. rewrite Hval0 in HL2.
  (* the product *)
  assert (Hcc : c * c = 2 ^ 2148) by reflexivity.
  assert (HwL : - (2 ^ 32 * 2 ^ 2148) <= writes t * c * Double.value L <= 0) by nia.
  destruct (mul_value (Double.of_Z (writes t)) L Hvw HvL) as [HvP HvalP].
  { rewrite Hvalw. destruct (Z.eq_dec (writes t) 0) as [->|]; [ now left | right ].
    rewrite Z.abs_eq by nia. nia. }
  { rewrite Hvalw.
    assert (2 ^ 32 * 2 ^ 2148 < 2 ^ 3148) by reflexivity. lia. }
  fold P in HvP, HvalP. rewrite Hvalw in HvalP.
  assert (HP0 : Double.value P <= 0).
  { rewrite HvalP. rewrite <- round_0. apply round_mono. lia. }
  (* the exponential *)
  destruct (Hexp P HvP) as (HvX & HX0 & HX1).
  { apply (SFleb_le _ _ HvP Hv0). rewrite Hval0. lia. }
  fold X in HvX, HX0, HX1.
  apply (SFleb_le _ _ Hv0 HvX) in HX0. apply (SFleb_le _ _ HvX Hv1) in HX1.
  rewrite Hval0 in HX0. rewrite Hval1 in HX1.
  (* the difference *)
  destruct (sub_value (Double.of_Z 1) X Hv1 HvX) as [HvD HvalD].
  { rewrite Hval1. assert (c < 2 ^ 2074) by reflexivity. lia. }
  rewrite Hval1 in HvalD. replace (1 * c) with c in HvalD by lia.
  change (2 ^ 1074) with c in HvalD.
  set (vD := Double.round ((c - Double.value X) * c)) in *.
  assert (HD : 0 <= vD <= c).
  { unfold vD. split.
    - rewrite <- round_0. apply round_mono.
      apply Z.mul_nonneg_nonneg; lia.
    - replace c with (1 * 2 ^ (2148 - 1074)) at 3 by reflexivity.
      rewrite <- (round_exact 1 2148) by lia.
      apply round_mono. change (1 * 2 ^ 2148) with (c * c).
      apply Z.mul_le_mono_nonneg_r; lia. }
  (* the product with 1000 *)
  assert (H1000 : 1000 * c * c < 2 ^ 3148) by reflexivity.
  destruct (mul_value (Double.of_Z 1000) _ Hv1000 HvD) as [HvR HvalR].
  { right. rewrite Hval1000. rewrite Z.abs_eq by lia. lia. }
  { rewrite Hval1000, HvalD.
    assert (0 <= 1000 * c * vD) by (apply Z.mul_nonneg_nonneg; lia).
    assert (1000 * c * vD <= 1000 * c * c) by (apply Z.mul_le_mono_nonneg_l; lia).
    rewrite Z.abs_eq by assumption. lia. }
  rewrite Hval1000, HvalD in HvalR. fold r in HvalR.
  assert (Hr : 0 <= r <= 1000 * c).
  { unfold r. split.
    - rewrite <- round_0. apply round_mono.
      apply Z.mul_nonneg_nonneg; lia.
    - replace (1000 * c) with (1000 * 2 ^ (2148 - 1074)) at 2 by reflexivity.
      rewrite <- (round_exact 1000 2148) by lia.
      apply round_mono. change (1000 * 2 ^ 2148) with (1000 * c * c).
      apply Z.mul_le_mono_nonneg_l; lia. }
  repeat (split; [ first [ assumption | lia ] | ]).
  unfold full. fold L. fold P. fold X.
  rewrite (to_int_value _ HvR); rewrite HvalR; [ reflexivity | ].
  change (2 ^ 1074) with c. lia.
Qed.

End OccupancyRange.

Section OccupancyResult.
Context `{E : Engine}.

(** C8, as the code has it.  For a sized table and a write counter below
    2^32, [full] returns the integer part of 1000 * (1 - x) evaluated in
    double precision, each operation rounded to the nearest double, where
    [x] is the double [exp] returns for [writes * log(1 - 1/N)]; the result
    lies in [0, 1000], is 0 when the write counter is 0, and does not
    decrease when the write counter grows in a table of the same size.  The
    functions of <cmath> enter through four facts, the hypotheses: [exp]
    maps a zero to 1, maps the finite numbers up to 0 into [0, 1] and is
    monotone there, and [log] maps [1/2, 1] into [-1, 0]. *)
Theorem full_range_monotone t1 t2 :
  sized t1 -> sized t2 -> size t1 = size t2 ->
  0 <= writes t1 <= writes t2 -> writes t2 < 2 ^ 32 ->
  (forall s, exp (S754_zero s) = Double.of_Z 1) ->
  (forall x, Double.valid x = true ->
     SFleb (Double.div (Double.of_Z 1) (Double.of_Z 2)) x = true ->
     SFleb x (Double.of_Z 1) = true ->
     Double.valid (log x) = true /\
     SFleb (Double.of_Z (-1)) (log x) = true /\
     SFleb (log x) (Double.of_Z 0) = true) ->
  (forall a, Double.valid a = true -> SFleb a (Double.of_Z 0) = true ->
     Double.valid (exp a) = true /\
     SFleb (Double.of_Z 0) (exp a) = true /\
     SFleb (exp a) (Double.of_Z 1) = true) ->
  (forall a b, Double.valid a = true -> Double.valid b = true ->
     SFleb a b = true -> SFleb b (Double.of_Z 0) = true ->
     SFleb (exp a) (exp b) = true) ->
  exists r1 r2,
    full t1 = Some r1 /\ full t2 = Some r2 /\
    r1 = Double.round
           (1000 * 2 ^ 1074
            * Double.round
                ((2 ^ 1074 - Double.value (survival t1)) * 2 ^ 1074))
         / 2 ^ 1074 /\
    r2 = Double.round
           (1000 * 2 ^ 1074
            * Double.round
                ((2 ^ 1074 - Double.value (survival t2)) * 2 ^ 1074))
         / 2 ^ 1074 /\
    0 <= r1 /\ r1 <= r2 /\ r2 <= 1000 /\
    (writes t1 = 0 -> r1 = 0).
Proof.
  intros Hs1 Hs2 Hsize Hw Hw2 Hexp0 Hlog Hexp Hmono.
  pose proof (full_eval t1 Hs1 ltac:(lia) Hlog Hexp) as H1.
  pose proof (full_eval t2 Hs2 ltac:(lia) Hlog Hexp) as H2.
  cbv zeta in H1, H2. rewrite <- Hsize in H2.
  fold (survival t1) in H1. unfold survival. rewrite <- Hsize.
  set (L := log (Double.sub (Double.of_Z 1)
                   (Double.div (Double.of_Z 1)
                      (Double.mul (Double.of_Z (size t1)) (Double.of_Z 4))))) in *.
  unfold survival in H1.
  fold L in H1.
  set (P1 := Double.mul (Double.of_Z (writes t1)) L) in *.
  set (P2 := Double.mul (Double.of_Z (writes t2)) L) in *.
  set (c := 2 ^ 1074) in *.
  assert (Hc : 0 < c) by reflexivity.
  destruct H1 as (HL & HvP1 & HvalP1 & HP1 & HvX1 & HX1 & Hr1 & Hfull1).
  destruct H2 as (_ & HvP2 & HvalP2 & HP2 & HvX2 & HX2 & Hr2 & Hfull2).
  destruct (of_Z_value 0 ltac:(reflexivity)) as [Hv0 Hval0].
  (* the products, and the exponentials, are ordered *)
  assert (HP : Double.value P2 <= Double.value P1).
  { rewrite HvalP1, HvalP2. apply round_mono.
    apply Z.mul_le_mono_nonpos_r; [ exact HL | ].
    apply Z.mul_le_mono_nonneg_r; lia. }
  assert (HX : Double.value (exp P2) <= Double.value (exp P1)).
  { apply (SFleb_le _ _ HvX2 HvX1). apply Hmono; try assumption.
    - apply (SFleb_le _ _ HvP2 HvP1). exact HP.
    - apply (SFleb_le _ _ HvP1 Hv0). rewrite Hval0. lia. }
  set (x1 := Double.value (exp P1)) in *. set (x2 := Double.value (exp P2)) in *.
  set (r1 := Double.round (1000 * c * Double.round ((c - x1) * c))) in *.
  set (r2 := Double.round (1000 * c * Double.round ((c - x2) * c))) in *.
  assert (Hr : r1 <= r2).
  { unfold r1, r2. apply round_mono.
    apply Z.mul_le_mono_nonneg_l; [ lia | ].
    apply round_mono. apply Z.mul_le_mono_nonneg_r; lia. }
  exists (r1 / c), (r2 / c).
  split; [ exact Hfull1 | ]. split; [ exact Hfull2 | ].
  split; [ reflexivity | ]. split; [ reflexivity | ].
  split; [ apply Z.div_pos; lia | ].
  split; [ apply Z.div_le_mono; lia | ].
  split.
  - apply Z.div_le_upper_bound; lia.
  - intros Hw0.
    assert (HvP0 : Double.value P1 = 0).
    { rewrite HvalP1, Hw0. reflexivity. }
    destruct (value_zero P1 HvP1 HvP0) as [s HPz].
    assert (Hx1 : x1 = c).
    { unfold x1. rewrite HPz, Hexp0.
      destruct (of_Z_value 1 ltac:(reflexivity)) as [_ ->]. fold c. lia. }
    unfold r1. rewrite Hx1, Z.sub_diag, Z.mul_0_l, round_0, Z.mul_0_r, round_0.
    reflexivity.
Qed.

End OccupancyResult.

(** *** The occupancy estimate: instances *)

Lemma coarse_engine_exp_zero s :
  exp (Engine := coarse_engine) (S754_zero s) = Double.of_Z 1.
Proof. destruct s; reflexivity. Qed.

Lemma coarse_engine_log x :
  Double.valid x = true ->
  SFleb (Double.div (Double.of_Z 1) (Double.of_Z 2)) x = true ->
  SFleb x (Double.of_Z 1) = true ->
  Double.valid (log (Engine := coarse_engine) x) = true /\
  SFleb (Double.of_Z (-1)) (log (Engine := coarse_engine) x) = true /\
  SFleb (log (Engine := coarse_engine) x) (Double.of_Z 0) = true.
Proof. intros _ _ _. vm_compute. auto. Qed.

Lemma coarse_engine_exp_range a :
  Double.valid a = true -> SFleb a (Double.of_Z 0) = true ->
  Double.valid (exp (Engine := coarse_engine) a) = true /\
  SFleb (Double.of_Z 0) (exp (Engine := coarse_engine) a) = true /\
  SFleb (exp (Engine := coarse_engine) a) (Double.of_Z 1) = true.
Proof.
  intros _ _. cbn [exp coarse_engine].
  destruct (SFleb a (Double.of_Z (-1))); [ vm_compute; auto | ].
  destruct (SFleb (Double.of_Z 0) a); vm_compute; auto.
Qed.

Lemma coarse_engine_exp_mono a b :
  Double.valid a = true -> Double.valid b = true ->
  SFleb a b = true -> SFleb b (Double.of_Z 0) = true ->
  SFleb (exp (Engine := coarse_engine) a) (exp (Engine := coarse_engine) b) = true.
Proof.
  intros Ha Hb Hab _. cbn [exp coarse_engine].
  destruct (of_Z_value 0 ltac:(reflexivity)) as [Hv0 Hval0].
  destruct (of_Z_value (-1) ltac:(reflexivity)) as [Hv1 Hval1].
  apply (SFleb_le _ _ Ha Hb) in Hab.
  rewrite (SFleb_value a _ Ha Hv1), (SFleb_value b _ Hb Hv1).
  rewrite (SFleb_value _ a Hv0 Ha), (SFleb_value _ b Hv0 Hb).
  rewrite Hval0, Hval1.
  set (c := 2 ^ 1074). assert (Hc : 0 < c) by reflexivity.
  destruct (Z.leb_spec (Double.value a) (-1 * c));
    destruct (Z.leb_spec (Double.value b) (-1 * c));
    destruct (Z.leb_spec (0 * c) (Double.value a));
    destruct (Z.leb_spec (0 * c) (Double.value b));
    try (exfalso; lia); reflexivity.
Qed.

Lemma evicted_table_sized : sized evicted_table.
Proof. exists 0. split; [ lia | split; reflexivity ]. Qed.

Lemma full_range_monotone_witness :
  sized sample_table /\ sized evicted_table /\
  size sample_table = size evicted_table /\
  0 <= writes sample_table <= writes evicted_table /\
  writes evicted_table < 2 ^ 32 /\
  exists r1 r2,
    full (E := coarse_engine) sample_table = Some r1 /\
    full (E := coarse_engine) evicted_table = Some r2 /\
    0 <= r1 /\ r1 <= r2 /\ r2 <= 1000 /\ r1 = 0.
Proof.
  assert (Hs1 : sized sample_table)
    by (exists 0; split; [ lia | split; reflexivity ]).
  assert (Hsize : size sample_table = size evicted_table) by reflexivity.
  assert (Hw : 0 <= writes sample_table <= writes evicted_table)
    by (vm_compute; split; discriminate).
  assert (Hw2 : writes evicted_table < 2 ^ 32) by reflexivity.
  split; [ exact Hs1 | ]. split; [ exact evicted_table_sized | ].
  split; [ exact Hsize | ]. split; [ exact Hw | ]. split; [ exact Hw2 | ].
  destruct (full_range_monotone (E := coarse_engine) sample_table evicted_table
              Hs1 evicted_table_sized Hsize Hw Hw2
              coarse_engine_exp_zero coarse_engine_log
              coarse_engine_exp_range coarse_engine_exp_mono)
    as (r1 & r2 & H1 & H2 & _ & _ & H0 & H12 & H1000 & Hzero).
  exists r1, r2. repeat (split; [ assumption | ]).
  apply Hzero. reflexivity.
Defined.

(** With the step functions of [coarse_engine]: 0 before the first
    eviction, 500 after it. *)
Example full_coarse_engine :
  full (E := coarse_engine) sample_table = Some 0 /\
  full (E := coarse_engine) evicted_table = Some 500.
Proof. vm_compute. auto. Qed.

(** *** The specification's formula *)

Lemma occupancy_formula_999 N w :
  0 < (N - 1) ^ w -> 1000 * (N - 1) ^ w <= N ^ w ->
  occupancy_formula N w = 999.
Proof.
  unfold occupancy_formula.
  set (A := N ^ w). set (B := (N - 1) ^ w). intros HB HA.
  symmetry. apply (Z.div_unique_pos _ A 999 (A - 1000 * B)); lia.
Qed.

(** Bernoulli's inequality, on integers. *)
Lemma pow_succ_bernoulli a n :
  0 <= a -> 0 <= n -> a ^ (n + 1) + (n + 1) * a ^ n <= (a + 1) ^ (n + 1).
Proof.
  intros Ha Hn. revert n Hn. apply natlike_ind.
  - change (0 + 1) with 1. rewrite !Z.pow_1_r, Z.pow_0_r. lia.
  - intros n Hn IH. unfold Z.succ.
    rewrite (Z.pow_add_r a (n + 1) 1), (Z.pow_add_r (a + 1) (n + 1) 1) by lia.
    rewrite !Z.pow_1_r.
    rewrite (Z.pow_add_r a n 1) in IH |- * by lia. rewrite Z.pow_1_r in IH |- *.
    assert (HX : 0 <= a ^ n) by (apply Z.pow_nonneg; lia).
    set (X := a ^ n) in *. set (Y := (a + 1) ^ (n + 1)) in *.
    assert (H1 : (X * a + (n + 1) * X) * (a + 1) <= Y * (a + 1))
      by (apply Z.mul_le_mono_nonneg_r; lia).
    nia.
Qed.

(** (1 - 1/N)^N is at most 1/2. *)
Lemma pow_ratio_half N : 1 < N -> 2 * (N - 1) ^ N <= N ^ N.
Proof.
  intros HN.
  pose proof (pow_succ_bernoulli (N - 1) (N - 1) ltac:(lia) ltac:(lia)) as HB.
  replace (N - 1 + 1) with N in HB by lia.
  assert (Hsplit : (N - 1) ^ N = (N - 1) ^ (N - 1) * (N - 1)).
  { replace N with ((N - 1) + 1) at 2 by lia.
    rewrite Z.pow_add_r, Z.pow_1_r by lia. reflexivity. }
  assert (HX : 0 <= (N - 1) ^ (N - 1)) by (apply Z.pow_nonneg; lia).
  set (X := (N - 1) ^ (N - 1)) in *. nia.
Qed.

(** Ten times [N] writes bring (1 - 1/N)^w below 1/1000, and the formula
    to 999. *)
Lemma occupancy_formula_saturated N j i :
  1 < N -> 10 <= j -> 0 <= i ->
  occupancy_formula N (N * j + i) = 999.
Proof.
  intros HN Hj Hi. pose proof (pow_ratio_half N HN) as Hhalf.
  assert (HB : 0 < (N - 1) ^ (N * j + i)) by (apply Z.pow_pos_nonneg; nia).
  apply occupancy_formula_999; [ exact HB | ].
  rewrite !Z.pow_add_r, !Z.pow_mul_r by lia.
  assert (Hb : 0 < (N - 1) ^ N) by (apply Z.pow_pos_nonneg; lia).
  assert (Hbi : 0 < (N - 1) ^ i) by (apply Z.pow_pos_nonneg; lia).
  assert (Hi' : (N - 1) ^ i <= N ^ i) by (apply Z.pow_le_mono_l; lia).
  assert (Hj' : (2 * (N - 1) ^ N) ^ j <= (N ^ N) ^ j)
    by (apply Z.pow_le_mono_l; lia).
  rewrite Z.pow_mul_l in Hj'.
  assert (H2 : 1000 <= 2 ^ j).
  { apply Z.le_trans with (2 ^ 10); [ discriminate | ].
    apply Z.pow_le_mono_r; lia. }
  set (a := N ^ N) in *. set (b := (N - 1) ^ N) in *.
  assert (Hbj : 0 < b ^ j) by (apply Z.pow_pos_nonneg; lia).
  apply Z.le_trans with ((2 ^ j * b ^ j) * (N - 1) ^ i).
  - rewrite (Z.mul_assoc 1000). apply Z.mul_le_mono_nonneg_r; [ lia | ].
    apply Z.mul_le_mono_nonneg_r; lia.
  - apply Z.mul_le_mono_nonneg; lia.
Qed.

Example occupancy_formula_4096 : occupancy_formula 4096 200000 = 999.
Proof.
  change 200000 with (4096 * 48 + 3392).
  apply occupancy_formula_saturated.
  - reflexivity.
  - discriminate.
  - discriminate.
Qed.

(** C8, what fails.  A table of 1024 clusters with the write counter at
    200000: (1 - 1/4096)^200000 is about 6.2e-22, so the integer part of
    1000 * (1 - (1 - 1/4096)^200000) is 999; in double precision
    1 - 6.2e-22 is 1, and [full] returns 1000. *)
Lemma full_integer_part_counterexample :
  sized saturated_table /\
  size saturated_table = 1024 /\ writes saturated_table = 200000 /\
  survival (E := tabulated_engine) saturated_table
  = S754_finite false 6581353209811518 (-123) /\
  full (E := tabulated_engine) saturated_table = Some 1000 /\
  occupancy_formula (4 * size saturated_table) (writes saturated_table) = 999.
Proof.
  split; [ exists 10; split; [ lia | split; reflexivity ] | ].
  split; [ reflexivity | ]. split; [ reflexivity | ].
  split; [ vm_compute; reflexivity | ].
  split; [ vm_compute; reflexivity | ].
  exact occupancy_formula_4096.
Qed.

(** ** Sizing *)

Example double_conversions :
  Double.to_int (Double.of_Z 1000) = Some 1000 /\
  Double.to_int (Double.div (Double.of_Z 7) (Double.of_Z 2)) = Some 3 /\
  Double.to_int (Double.div (Double.of_Z (-7)) (Double.of_Z 2)) = Some (-3) /\
  Double.to_int (Double.div (Double.of_Z 1) (Double.of_Z 0)) = None.
Proof. vm_compute. auto. Qed.

Section Sizing.
Context `{E : Engine}.

(** The loop of [set_size] ends, at the largest power of two of clusters
    that fits the budget. *)
Lemma set_size_loop_spec fuel : forall mbSize p,
  2 <= sizeof_TTEntry <= 1024 ->
  0 <= mbSize * 2 ^ 20 < 2 ^ 32 ->
  (exists j, 10 <= j /\ p = 2 ^ j) ->
  p * 4 * sizeof_TTEntry <= mbSize * 2 ^ 20 ->
  2 ^ 33 <= p * 2 ^ Z.of_nat fuel ->
  exists c, set_size_loop fuel mbSize p = Some c /\
    (exists j, 10 <= j /\ c = 2 ^ j) /\
    c * 4 * sizeof_TTEntry <= mbSize * 2 ^ 20 < (2 * c) * 4 * sizeof_TTEntry.
Proof.
  induction fuel as [|fuel IH]; intros mbSize p Hsz Hmb (j & Hj & Hp) Hfit Hfuel.
  - exfalso. simpl in Hfuel.
    assert (0 < p) by (rewrite Hp; apply Z.pow_pos_nonneg; lia). nia.
  - assert (Hpos : 0 < p) by (rewrite Hp; apply Z.pow_pos_nonneg; lia).
    assert (Hp29 : p < 2 ^ 29) by nia.
    cbn [set_size_loop]. unfold Machine.u64, Machine.u32.
    rewrite Z.shiftl_mul_pow2 by lia.
    rewrite (Z.mod_small (2 * p)) by lia.
    rewrite (Z.mod_small (2 * p * 4)) by lia.
    rewrite (Z.mod_small (2 * p * 4 * sizeof_TTEntry)) by nia.
    rewrite (Z.mod_small (mbSize * 2 ^ 20)) by lia.
    rewrite (Z.mod_small (p * 2)) by lia.
    destruct (Z.leb_spec (2 * p * 4 * sizeof_TTEntry) (mbSize * 2 ^ 20)) as [Hle|Hgt].
    + apply IH; auto.
      * exists (j + 1). split; [ lia | ]. rewrite Z.pow_add_r by lia. lia.
      * lia.
      * rewrite Nat2Z.inj_succ, Z.pow_succ_r in Hfuel by lia. lia.
    + exists p. split; [ reflexivity | ]. split; [ exists j; auto | lia ].
Qed.

(** A cleared table answers "not found" for every signature other than 0. *)
Lemma retrieve_clear t k : sized t -> k <> 0 -> retrieve (clear t) k = None.
Proof.
  intros Hs Hk. pose proof (clear_sized t Hs) as Hs'.
  pose proof (retrieve_cases (clear t) k Hs') as H. cbv zeta in H.
  pose proof (cluster_of_range (clear t) k Hs') as Hc.
  destruct (retrieve (clear t) k); [ | reflexivity ].
  destruct H as (i & Hi & _ & Hki & _).
  rewrite clear_slot in Hki by auto. simpl in Hki. congruence.
Qed.

(** C5, as the code has it.  For a budget from 4 to 4095 megabytes (and an
    entry of 2 to 1024 bytes), [set_size] ends with [size] the largest
    power of two of clusters, from 1024 on, whose [4 * size] entries fit
    the budget.  When that differs from the size the table had, the table
    has [4 * size] entries, all empty, and [retrieve] finds no signature
    other than 0; when it is the size the table had, the table is left as
    it is. *)
Theorem set_size_spec t mbSize :
  2 <= sizeof_TTEntry <= 1024 -> 4 <= mbSize <= 4095 ->
  exists t',
    set_size mbSize t = Some t' /\
    (exists j, 10 <= j /\ size t' = 2 ^ j) /\
    size t' * 4 * sizeof_TTEntry <= mbSize * 2 ^ 20 /\
    (forall j, 0 <= j -> 2 ^ j * 4 * sizeof_TTEntry <= mbSize * 2 ^ 20 ->
               2 ^ j <= size t') /\
    (size t' <> size t ->
       sized t' /\ length (entries t') = Z.to_nat (4 * size t') /\
       entries t' = replicate (Z.to_nat (4 * size t')) TTEntry.zero /\
       forall k, k <> 0 -> retrieve t' k = None) /\
    (size t' = size t -> t' = t).
Proof.
  intros Hsz Hmb. unfold set_size.
  destruct (Z.leb_spec 4 mbSize); [ | lia ].
  destruct (Z.leb_spec mbSize 4096); [ | lia ]. cbn [andb negb].
  destruct (set_size_loop_spec 64 mbSize 1024 Hsz) as (c & -> & (j & Hj & Hc) & Hfit & Hmax).
  { lia. } { exists 10. split; [ lia | reflexivity ]. } { nia. } { simpl. lia. }
  cbn [mbind option_bind].
  assert (Hcpos : 0 < c) by (rewrite Hc; apply Z.pow_pos_nonneg; lia).
  assert (Hlargest : forall j', 0 <= j' ->
            2 ^ j' * 4 * sizeof_TTEntry <= mbSize * 2 ^ 20 -> 2 ^ j' <= c).
  { intros j' Hj' Hfit'. destruct (Z.le_gt_cases j' j) as [Hle|Hgt].
    - rewrite Hc. apply Z.pow_le_mono_r; lia.
    - exfalso. assert (2 ^ (j + 1) <= 2 ^ j') by (apply Z.pow_le_mono_r; lia).
      rewrite Z.pow_add_r in * by lia. nia. }
  destruct (Z.eqb_spec c (size t)) as [Heq|Hne]; cbn [negb].
  - exists t. rewrite <- Heq. split; [ reflexivity | ].
    split; [ exists j; auto | ]. split; [ exact Hfit | ].
    split; [ exact Hlargest | ]. split; [ intros Hn; now destruct Hn | auto ].
  - set (fresh := mkTT c (writes t) _ (generation t)).
    assert (Hj29 : j <= 29).
    { destruct (Z.le_gt_cases j 29) as [Hle|Hgt]; [ exact Hle | exfalso ].
      assert (2 ^ 30 <= 2 ^ j) by (apply Z.pow_le_mono_r; lia). nia. }
    assert (Hfresh : sized fresh).
    { exists j. split; [ lia | ]. split; [ exact Hc | ]. subst fresh; simpl.
      rewrite length_replicate. unfold Machine.u32.
      assert (c <= 2 ^ 29) by (rewrite Hc; apply Z.pow_le_mono_r; lia).
      rewrite Z.mod_small by lia. f_equal. lia. }
    exists (clear fresh). split; [ reflexivity | ].
    change (size (clear fresh)) with c.
    split; [ exists j; auto | ]. split; [ exact Hfit | ].
    split; [ exact Hlargest | ]. split.
    + intros _. split; [ auto with tt | ]. split; [ | split ].
      * rewrite clear_entries by assumption. now rewrite length_replicate.
      * exact (clear_entries fresh Hfresh).
      * intros k Hk. now apply retrieve_clear.
    + intros Heq. contradiction.
Qed.

End Sizing.

Lemma set_size_spec_witness :
  2 <= sizeof_TTEntry (Engine := sample_engine) <= 1024 /\ 4 <= 4 <= 4095 /\
  exists t',
    set_size (E := sample_engine) 4 TranspositionTable_new = Some t' /\
    size t' * 4 * 16 <= 4 * 2 ^ 20.
Proof.
  assert (Hsz : 2 <= sizeof_TTEntry (Engine := sample_engine) <= 1024)
    by (simpl; lia).
  split; [ exact Hsz | ]. split; [ lia | ].
  destruct (set_size_spec (E := sample_engine) TranspositionTable_new 4 Hsz)
    as (t' & Hset & _ & Hfit & _); [ lia | ].
  exists t'. split; [ exact Hset | exact Hfit ].
Defined.

(** With an entry of 16 bytes, a budget of 4 megabytes gives 65536 clusters
    whatever the table was. *)
Example set_size_4_clusters :
  set_size_loop (E := sample_engine) 64 4 1024 = Some 65536.
Proof. vm_compute. reflexivity. Qed.

(** The budget [mbSize << 20] of the largest size the assertion admits does
    not fit 32 bits: the table gets the smallest size. *)
Example set_size_4096_clusters :
  set_size_loop (E := sample_engine) 64 4096 1024 = Some 1024.
Proof. vm_compute. reflexivity. Qed.

(** C5, what fails.  [set_size 4] on a new table, a [store] for the
    signature 1, and [set_size 4] again: the second call computes the size
    the table has and leaves it as it is, so [retrieve] still finds the
    entry. *)
Lemma set_size_keeps_content_counterexample :
  set_size (E := sample_engine) 4 TranspositionTable_new = Some new_table_4mb /\
  table_4mb = store (E := sample_engine) new_table_4mb 1 40 VALUE_TYPE_EXACT 6 11 /\
  set_size (E := sample_engine) 4 table_4mb = Some table_4mb /\
  1 <> 0 /\
  retrieve table_4mb 1 = Some 4%nat /\
  retrieve_entry table_4mb 1 = Some (TTEntry.make 1 40 VALUE_TYPE_EXACT 6 11 0).
Proof.
  split; [ | split; [ | split; [ | split; [ | split ] ] ] ].
  - unfold set_size. cbn [Z.leb Z.compare Pos.compare Pos.compare_cont andb negb].
    rewrite set_size_4_clusters. reflexivity.
  - reflexivity.
  - unfold set_size. cbn [Z.leb Z.compare Pos.compare Pos.compare_cont andb negb].
    rewrite set_size_4_clusters. cbn [mbind option_bind].
    unfold table_4mb. rewrite store_size. reflexivity.
  - discriminate.
  - vm_compute. reflexivity.
  - vm_compute. reflexivity.
Qed.

(** * Further properties of the table *)

(** ** Addressing and lookup *)

Section Addressing.
Context `{E : Engine}.

Lemma cluster_of_mod t k : sized t -> cluster_of t k = k mod size t.
Proof.
  intros (j & Hj & Hs & _). unfold cluster_of. rewrite Hs.
  replace (2 ^ j - 1) with (Z.ones j) by (rewrite Z.ones_equiv; lia).
  apply Z.land_ones. lia.
Qed.

(** X1.  In a sized table, whatever the signature, [first_entry] is four
    times the signature modulo the number of clusters, and the four entries
    [store] and [retrieve] scan from there are entries of the array. *)
Theorem first_entry_in_bounds t k :
  sized t ->
  first_entry t k = 4 * (k mod size t) /\
  0 <= first_entry t k /\
  forall i, (i < 4)%nat ->
    (Z.to_nat (first_entry t k) + i < length (entries t))%nat.
Proof.
  intros Hs. pose proof (cluster_of_range t k Hs) as Hc.
  rewrite (first_entry_sized t k Hs), <- (cluster_of_mod t k Hs).
  split; [ reflexivity | ]. split; [ lia | ].
  intros i Hi. now apply slot_in_range.
Qed.

(** X2.  What [retrieve] answers: a returned entry is one of the four
    entries from [first_entry] on, it holds the signature, and no entry
    before it in the cluster does; [NULL] is returned exactly when none of
    the four entries holds the signature. *)
Theorem retrieve_found_iff t k :
  let first := Z.to_nat (first_entry t k) in
  (forall tte, retrieve t k = Some tte ->
     exists i, (i < 4)%nat /\ tte = (first + i)%nat /\
       TTEntry.key (entries t !!! tte) = k /\
       forall j, (j < i)%nat -> TTEntry.key (entries t !!! (first + j)%nat) <> k) /\
  (retrieve t k = None <->
   forall i, (i < 4)%nat -> TTEntry.key (entries t !!! (first + i)%nat) <> k).
Proof.
  intros first. unfold retrieve. fold first.
  pose proof (retrieve_scan_spec (entries t) k first) as H. cbv zeta in H.
  destruct (retrieve_scan (entries t) k first 0 4) as [tte|].
  - destruct H as (i & Hi & -> & Hk & Hbefore). split.
    + intros tte' [= <-]. exists i. auto.
    + split; [ discriminate | ]. intros Hnone. now destruct (Hnone i Hi).
  - split; [ discriminate | ]. split; auto.
Qed.

(** X3.  [clear] keeps the size, the write counter and the generation and
    empties every entry: afterwards no signature other than 0 is found, the
    signature 0 "finds" the first, empty entry of cluster 0, and a second
    [clear] changes nothing. *)
Theorem clear_spec t :
  sized t ->
  size (clear t) = size t /\ writes (clear t) = writes t /\
  generation (clear t) = generation t /\
  length (entries (clear t)) = length (entries t) /\
  (forall idx, (idx < length (entries t))%nat ->
     entries (clear t) !!! idx = TTEntry.zero) /\
  (forall k, k <> 0 -> retrieve (clear t) k = None) /\
  retrieve (clear t) 0 = Some 0%nat /\
  clear (clear t) = clear t.
Proof.
  intros Hs. pose proof (clear_entries t Hs) as He.
  pose proof (clear_sized t Hs) as Hs'.
  pose proof Hs as (j & Hj & Hsz & Hl).
  repeat (split; [ reflexivity | ]).
  split; [ rewrite He, length_replicate; lia | ].
  split; [ intros idx Hidx; rewrite He; apply lookup_total_replicate_2; lia | ].
  split; [ intros k Hk; now apply retrieve_clear | ].
  split.
  - pose proof (retrieve_cases (clear t) 0 Hs') as H. cbv zeta in H.
    pose proof (cluster_of_range (clear t) 0 Hs') as Hc.
    assert (Hc0 : cluster_of (clear t) 0 = 0) by apply Z.land_0_l.
    rewrite Hc0 in *.
    destruct (retrieve (clear t) 0) as [tte|].
    + destruct H as (i & Hi & -> & _ & Hbefore). f_equal.
      destruct i as [|i]; [ reflexivity | exfalso ].
      apply (Hbefore 0%nat); [ lia | ]. now rewrite clear_slot by (auto; lia).
    + exfalso. apply (H 0%nat); [ lia | ]. now rewrite clear_slot by (auto; lia).
  - unfold clear at 1. rewrite He. simpl.
    unfold clear. simpl. f_equal.
    pose proof (sized_bounds t Hs) as Hb.
    unfold Machine.u32. rewrite Z.mod_small by lia.
    replace (size t * 4) with (4 * size t) by lia.
    rewrite !drop_ge by (rewrite ?length_replicate; lia).
    reflexivity.
Qed.

End Addressing.

(** ** What [store] changes *)

Section StoreChanges.
Context `{E : Engine}.

(** X4.  [store] keeps the size, the generation and the length of the array,
    and changes at most one entry, one of the four from [first_entry] on. *)
Theorem store_frame t k v ty d m :
  let first := Z.to_nat (first_entry t k) in
  size (store t k v ty d m) = size t /\
  generation (store t k v ty d m) = generation t /\
  length (entries (store t k v ty d m)) = length (entries t) /\
  exists i, (i < 4)%nat /\
    forall idx, idx <> (first + i)%nat ->
      entries (store t k v ty d m) !!! idx = entries t !!! idx.
Proof.
  intros first.
  split; [ apply store_size | ]. split; [ apply store_generation | ].
  split; [ apply store_length | ].
  pose proof (store_cases t k v ty d m) as Hcases. cbv zeta in Hcases.
  fold first in Hcases.
  destruct Hcases as [[-> _] | [(i & Hi & -> & _) | (i & Hi & -> & _)]].
  - exists 0%nat. split; [ lia | reflexivity ].
  - exists i. split; [ exact Hi | ]. intros idx Hidx. simpl.
    apply list_lookup_total_insert_ne. congruence.
  - exists i. split; [ exact Hi | ]. intros idx Hidx. simpl.
    apply list_lookup_total_insert_ne. congruence.
Qed.

(** X5.  The write counter counts evictions only: [store] leaves it as it
    is when one of the four entries is empty or holds the signature, and
    adds one, modulo 2^32, when none is. *)
Theorem store_counts_evictions t k v ty d m :
  let first := Z.to_nat (first_entry t k) in
  let e i := entries t !!! (first + i)%nat in
  ((exists i, (i < 4)%nat /\ (TTEntry.key (e i) = 0 \/ TTEntry.key (e i) = k)) ->
   writes (store t k v ty d m) = writes t) /\
  ((forall i, (i < 4)%nat -> TTEntry.key (e i) <> 0 /\ TTEntry.key (e i) <> k) ->
   writes (store t k v ty d m) = (writes t + 1) mod 2 ^ 32).
Proof.
  intros first e.
  pose proof (store_cases t k v ty d m) as Hcases. cbv zeta in Hcases.
  fold first in Hcases. fold e in Hcases.
  destruct Hcases as [[-> (i & Hi & Hki & _)]
                     | [(i & Hi & -> & Hhit & _) | (i & Hi & -> & Hall & _)]].
  - split; [ reflexivity | ]. intros Hfull. destruct (Hfull i Hi). contradiction.
  - split; [ reflexivity | ]. intros Hfull. destruct (Hfull i Hi). tauto.
  - split; [ | reflexivity ].
    intros (j & Hj & Hhit). destruct (Hall j Hj). tauto.
Qed.

(** The loop of [retrieve] looks at the four signatures only. *)
Lemma retrieve_scan_ext es es' k first :
  (forall j, (j < 4)%nat ->
     (TTEntry.key (es !!! (first + j)%nat) =? k)
     = (TTEntry.key (es' !!! (first + j)%nat) =? k)) ->
  retrieve_scan es k first 0 4 = retrieve_scan es' k first 0 4.
Proof.
  intros H. cbn [retrieve_scan].
  rewrite (H 0%nat), (H 1%nat), (H 2%nat), (H 3%nat) by lia. reflexivity.
Qed.

Lemma retrieve_key t k tte :
  retrieve t k = Some tte -> TTEntry.key (entries t !!! tte) = k.
Proof.
  intros Hret. unfold retrieve in Hret.
  pose proof (retrieve_scan_spec (entries t) k (Z.to_nat (first_entry t k))) as H.
  cbv zeta in H. rewrite Hret in H. destruct H as (i & _ & -> & Hk & _). exact Hk.
Qed.

(** Overwriting an entry that does not hold [k'] with one that does not
    either changes nothing for [k']. *)
Lemma retrieve_insert_other t w idx x k' :
  TTEntry.key x <> k' -> TTEntry.key (entries t !!! idx) <> k' ->
  let t' := mkTT (size t) w (<[idx := x]> (entries t)) (generation t) in
  retrieve t' k' = retrieve t k' /\ retrieve_entry t' k' = retrieve_entry t k'.
Proof.
  intros Hx Hold t'.
  assert (Hret : retrieve t' k' = retrieve t k').
  { unfold retrieve. change (first_entry t' k') with (first_entry t k').
    apply retrieve_scan_ext. intros j Hj. subst t'; simpl.
    rewrite list_lookup_total_insert. case_decide as Hd; [ | reflexivity ].
    destruct Hd as [<- _].
    destruct (Z.eqb_spec (TTEntry.key x) k'),
             (Z.eqb_spec (TTEntry.key (entries t !!! idx)) k'); congruence. }
  split; [ exact Hret | ].
  unfold retrieve_entry. rewrite Hret.
  pose proof (retrieve_key t k') as Hfound.
  destruct (retrieve t k') as [tte|]; [ | reflexivity ]. simpl. f_equal.
  subst t'; simpl. apply list_lookup_total_insert_ne.
  intros ->. apply Hold. now apply Hfound.
Qed.


(** X6.  A [store] that does not evict (one of the four entries is empty or
    holds the signature) changes nothing for any other signature [k'], other
    than 0: [retrieve] returns the same entry with the same content. *)
Theorem store_keeps_other_signatures t k v ty d m k' :
  let first := Z.to_nat (first_entry t k) in
  let e i := entries t !!! (first + i)%nat in
  (exists i, (i < 4)%nat /\ (TTEntry.key (e i) = 0 \/ TTEntry.key (e i) = k)) ->
  k' <> k -> k' <> 0 ->
  retrieve (store t k v ty d m) k' = retrieve t k' /\
  retrieve_entry (store t k v ty d m) k' = retrieve_entry t k'.
Proof.
  intros first e (i0 & Hi0 & Hhit0) Hk' Hk'0.
  pose proof (store_cases t k v ty d m) as Hcases. cbv zeta in Hcases.
  fold first in Hcases. fold e in Hcases.
  destruct Hcases as [[-> _]
                     | [(i & Hi & -> & Hhit & _) | (i & Hi & _ & Hall & _)]].
  - auto.
  - apply retrieve_insert_other; simpl; [ congruence | ].
    fold (e i). destruct Hhit; congruence.
  - destruct (Hall i0 Hi0). tauto.
Qed.

(** X7.  When the four entries hold other signatures, the victim is the
    first entry that no entry of the cluster is more evictable than: every
    entry before it is strictly less evictable.  So among entries of equal
    staleness and depth the earliest one is replaced. *)
Theorem store_evicts_first_minimum t k v ty d m :
  let first := Z.to_nat (first_entry t k) in
  let e i := entries t !!! (first + i)%nat in
  (forall i, (i < 4)%nat -> TTEntry.key (e i) <> 0 /\ TTEntry.key (e i) <> k) ->
  exists i, (i < 4)%nat /\
    entries (store t k v ty d m)
    = <[(first + i)%nat := TTEntry.make k v ty d m (generation t)]> (entries t) /\
    (forall j, (j < 4)%nat -> ~ more_evictable (generation t) (e j) (e i)) /\
    (forall j, (j < i)%nat -> more_evictable (generation t) (e i) (e j)) /\
    ((forall j, (j < 4)%nat -> ~ more_evictable (generation t) (e j) (e 0%nat)) ->
     i = 0%nat).
Proof.
  intros first e Hfull.
  pose proof (store_cases t k v ty d m) as Hcases. cbv zeta in Hcases.
  fold first in Hcases. fold e in Hcases.
  destruct Hcases as [[_ (i & Hi & Hki & _)]
                     | [(i & Hi & _ & Hhit & _)
                       | (i & Hi & Hst & _ & Hmin & Hfirst)]].
  - destruct (Hfull i Hi). contradiction.
  - destruct (Hfull i Hi). tauto.
  - exists i. split; [ exact Hi | ]. split; [ now rewrite Hst | ].
    split; [ exact Hmin | ]. split; [ exact Hfirst | ].
    intros H0. destruct i as [|i]; [ reflexivity | exfalso ].
    apply (H0 (S i) Hi). apply Hfirst. lia.
Qed.

End StoreChanges.

(** ** Placement *)

Section Placement.
Context `{E : Engine}.

Lemma store_cluster_of t k v ty d m k' :
  cluster_of (store t k v ty d m) k' = cluster_of t k'.
Proof. unfold cluster_of. now rewrite store_size. Qed.

Lemma store_placed t k v ty d m :
  sized t -> placed t -> placed (store t k v ty d m).
Proof.
  intros Hs Hpl c i Hc Hi. rewrite store_size in Hc.
  rewrite store_cluster_of.
  pose proof (cluster_of_range t k Hs) as Hc0.
  pose proof (store_cases t k v ty d m) as Hcases. cbv zeta in Hcases.
  rewrite (first_entry_sized t k Hs) in Hcases.
  destruct Hcases as [[-> _] | [(i0 & Hi0 & -> & _) | (i0 & Hi0 & -> & _)]].
  - now apply Hpl.
  - rewrite slot_insert by (auto; lia). case_decide as Hd.
    + destruct Hd as [-> ->]. reflexivity.
    + now apply Hpl.
  - rewrite slot_insert by (auto; lia). case_decide as Hd.
    + destruct Hd as [-> ->]. reflexivity.
    + now apply Hpl.
Qed.

Lemma insert_pv_sized pv : forall t p t',
  sized t -> insert_pv t p pv = Some t' -> sized t'.
Proof.
  induction pv as [|m pv IH]; intros t p t' Hs Hrun; simpl in *.
  - discriminate.
  - destruct (m =? MOVE_NONE); [ congruence | ].
    eapply IH; [ | exact Hrun ]. now apply store_sized.
Qed.

Lemma insert_pv_placed pv : forall t p t',
  sized t -> placed t -> insert_pv t p pv = Some t' -> placed t'.
Proof.
  induction pv as [|m pv IH]; intros t p t' Hs Hpl Hrun; simpl in Hrun.
  - discriminate.
  - destruct (m =? MOVE_NONE); [ injection Hrun as <-; exact Hpl | ].
    eapply IH; [ | | exact Hrun ]; [ now apply store_sized | now apply store_placed ].
Qed.

Lemma reachable_placed t : reachable t -> placed t.
Proof.
  induction 1 as [ t Hs | t k v ty d m Hr IH Hk | t _ IH | t p pv t' Hr IH Hkeys Hrun ].
  - intros c i Hc Hi Hnz. change (size (clear t)) with (size t) in Hc.
    rewrite clear_slot in Hnz by auto. now destruct Hnz.
  - apply store_placed; [ now apply reachable_sized | exact IH ].
  - exact IH.
  - eapply insert_pv_placed; [ | exact IH | exact Hrun ]. now apply reachable_sized.
Qed.

Lemma occupied_entry_is_retrieved_aux t idx :
  reachable t -> (idx < length (entries t))%nat ->
  TTEntry.key (entries t !!! idx) <> 0 ->
  retrieve t (TTEntry.key (entries t !!! idx)) = Some idx.
Proof.
  intros Hr Hidx Hnz.
  pose proof (reachable_inv t Hr) as [Hs Hinv].
  pose proof (reachable_placed t Hr) as Hpl.
  pose proof Hs as (j & Hj & Hsz & Hl).
  set (c := Z.of_nat idx / 4). set (i := Z.to_nat (Z.of_nat idx mod 4)).
  pose proof (Z.mod_pos_bound (Z.of_nat idx) 4 ltac:(lia)) as Hmod.
  pose proof (Z.div_mod (Z.of_nat idx) 4 ltac:(lia)) as Hdm.
  assert (Hi : (i < 4)%nat) by (subst i; lia).
  assert (Hidx' : idx = (Z.to_nat (4 * c) + i)%nat).
  { subst c i. assert (0 <= Z.of_nat idx / 4) by (apply Z.div_pos; lia). lia. }
  assert (Hc : 0 <= c < size t).
  { subst c. split; [ apply Z.div_pos; lia | ].
    apply Z.div_lt_upper_bound; lia. }
  assert (Hslot : entries t !!! idx = slot t c i) by (unfold slot; now rewrite <- Hidx').
  rewrite Hslot in *.
  pose proof (Hpl c i Hc Hi Hnz) as Hcl.
  pose proof (retrieve_cases t (TTEntry.key (slot t c i)) Hs) as H. cbv zeta in H.
  rewrite Hcl in H. destruct (Hinv c Hc) as [_ Hd].
  destruct (retrieve t (TTEntry.key (slot t c i))) as [tte|].
  - destruct H as (i' & Hi' & -> & Hk & _). f_equal.
    assert (i = i') by (apply Hd; auto). lia.
  - now destruct (H i Hi).
Qed.

(** X8.  In a reachable table every occupied entry of the array is the
    entry [retrieve] returns for its signature: entries sit in the cluster
    their signature is mapped to, and no signature sits twice. *)
Theorem occupied_entry_is_retrieved t idx :
  reachable t -> (idx < length (entries t))%nat ->
  TTEntry.key (entries t !!! idx) <> 0 ->
  cluster_of t (TTEntry.key (entries t !!! idx)) = Z.of_nat idx / 4 /\
  retrieve t (TTEntry.key (entries t !!! idx)) = Some idx.
Proof.
  intros Hr Hidx Hnz. split; [ | now apply occupied_entry_is_retrieved_aux ].
  pose proof (reachable_sized t Hr) as Hs.
  pose proof (occupied_entry_is_retrieved_aux t idx Hr Hidx Hnz) as Hret.
  pose proof (retrieve_cases t (TTEntry.key (entries t !!! idx)) Hs) as H.
  cbv zeta in H. rewrite Hret in H.
  destruct H as (i & Hi & Heq & _).
  pose proof (cluster_of_range t (TTEntry.key (entries t !!! idx)) Hs) as Hc.
  set (c := cluster_of t (TTEntry.key (entries t !!! idx))) in *.
  apply (Z.div_unique (Z.of_nat idx) 4 c (Z.of_nat i)); lia.
Qed.

(** X9.  An eviction in a reachable table loses one signature and no
    other: the signature of the victim is not found any more, the stored
    one is found in its place, and every other signature is found as
    before. *)
Theorem store_eviction_loses_one t k v ty d m :
  reachable t -> k <> 0 ->
  let c := cluster_of t k in
  (forall i, (i < 4)%nat ->
     TTEntry.key (slot t c i) <> 0 /\ TTEntry.key (slot t c i) <> k) ->
  exists tte,
    let x := TTEntry.key (entries t !!! tte) in
    let t' := store t k v ty d m in
    retrieve t x = Some tte /\ x <> 0 /\ x <> k /\
    retrieve t' k = Some tte /\
    retrieve t' x = None /\
    forall k', k' <> 0 -> k' <> x ->  k' <> k ->
      retrieve t' k' = retrieve t k' /\ retrieve_entry t' k' = retrieve_entry t k'.
Proof.
  intros Hr Hk c Hfull.
  pose proof (reachable_inv t Hr) as [Hs Hinv].
  pose proof (cluster_of_range t k Hs) as Hc. fold c in Hc.
  pose proof (store_cases t k v ty d m) as Hcases. cbv zeta in Hcases.
  rewrite (first_entry_sized t k Hs) in Hcases.
  fold (slot t (cluster_of t k)) in Hcases. fold c in Hcases.
  destruct Hcases as [[_ (i & Hi & Hki & _)]
                     | [(i & Hi & _ & Hhit & _) | (i & Hi & Hst & _)]].
  - destruct (Hfull i Hi). contradiction.
  - destruct (Hfull i Hi). tauto.
  - exists (Z.to_nat (4 * c) + i)%nat. cbv zeta.
    fold (slot t c i). destruct (Hfull i Hi) as [Hnz Hne].
    assert (Hlen : (Z.to_nat (4 * c) + i < length (entries t))%nat)
      by now apply slot_in_range.
    assert (Hx : retrieve t (TTEntry.key (slot t c i)) = Some (Z.to_nat (4 * c) + i)%nat)
      by (apply (occupied_entry_is_retrieved_aux t _ Hr Hlen Hnz)).
    split; [ exact Hx | ]. split; [ exact Hnz | ]. split; [ exact Hne | ].
    rewrite Hst. split; [ | split ].
    + apply retrieve_insert; auto. intros j Hj. apply Hfull. lia.
    + set (t' := mkTT _ _ _ _).
      assert (Hr' : reachable t') by (subst t'; rewrite <- Hst; now constructor).
      destruct (retrieve t' (TTEntry.key (slot t c i))) as [tte|] eqn:Hret;
        [ exfalso | reflexivity ].
      pose proof (retrieve_key t' _ _ Hret) as Hkey.
      destruct (decide (tte = (Z.to_nat (4 * c) + i)%nat)) as [->|Hne'].
      * subst t'; simpl in Hkey. rewrite list_lookup_total_insert_eq in Hkey by exact Hlen.
        simpl in Hkey. congruence.
      * assert (Hold : TTEntry.key (entries t !!! tte) = TTEntry.key (slot t c i)).
        { subst t'; simpl in Hkey.
          rewrite list_lookup_total_insert_ne in Hkey by congruence. exact Hkey. }
        assert (Hlt : (tte < length (entries t))%nat).
        { destruct (Nat.lt_ge_cases tte (length (entries t))) as [?|Hge]; [ assumption | ].
          rewrite list_lookup_total_alt, lookup_ge_None_2 in Hold by exact Hge.
          simpl in Hold. congruence. }
        pose proof (occupied_entry_is_retrieved_aux t tte Hr Hlt) as Hfound.
        rewrite Hold in Hfound. specialize (Hfound Hnz). congruence.
    + intros k' Hk'0 Hk'x Hk'k.
      apply retrieve_insert_other; [ simpl; congruence | unfold slot in *; congruence ].
Qed.

End Placement.

(** ** How stores compose *)

Section StoreCompose.
Context `{E : Engine}.

(** After a [store] for [k] that did not abort, the first of the four
    entries that is empty or holds [k] is the entry just written. *)
Lemma store_then_scan t k v ty d m :
  sized t ->
  let c := cluster_of t k in
  (store t k v ty d m = t /\ ty = VALUE_TYPE_EVAL /\
   exists i, (i < 4)%nat /\ TTEntry.key (slot t c i) = k) \/
  exists i w m', (i < 4)%nat /\
    store t k v ty d m =
      mkTT (size t) w
        (<[(Z.to_nat (4 * c) + i)%nat := TTEntry.make k v ty d m' (generation t)]>
           (entries t))
        (generation t) /\
    (m <> MOVE_NONE -> m' = m) /\
    (forall j, (j < i)%nat ->
       TTEntry.key (slot t c j) <> 0 /\ TTEntry.key (slot t c j) <> k).
Proof.
  intros Hs c.
  pose proof (store_cases t k v ty d m) as Hcases. cbv zeta in Hcases.
  rewrite (first_entry_sized t k Hs) in Hcases.
  fold (slot t (cluster_of t k)) in Hcases. fold c in Hcases.
  destruct Hcases as [[Hst (i & Hi & Hki & _ & Hev & _)]
                     | [(i & Hi & Hst & _ & _ & Hbefore)
                       | (i & Hi & Hst & Hall & _)]].
  - left. split; [ exact Hst | ]. split; [ exact Hev | ]. exists i. auto.
  - right. exists i, (writes t),
      (if m =? MOVE_NONE then TTEntry.move (slot t c i) else m).
    split; [ exact Hi | ]. split; [ exact Hst | ]. split; [ | exact Hbefore ].
    intros Hm. destruct (Z.eqb_spec m MOVE_NONE); congruence.
  - right. exists i, (Machine.u32 (writes t + 1)), m.
    split; [ exact Hi | ]. split; [ exact Hst | ]. split; [ auto | ].
    intros j Hj. apply Hall. lia.
Qed.

(** A second [store] for the signature of the entry at the head of the
    scan: it aborts or overwrites that entry, and never evicts. *)
Lemma store_on_written t k i v ty d m :
  sized t -> (i < 4)%nat ->
  let c := cluster_of t k in
  TTEntry.key (slot t c i) = k ->
  (forall j, (j < i)%nat ->
     TTEntry.key (slot t c j) <> 0 /\ TTEntry.key (slot t c j) <> k) ->
  (store t k v ty d m = t /\ ty = VALUE_TYPE_EVAL /\ k <> 0) \/
  store t k v ty d m =
    mkTT (size t) (writes t)
      (<[(Z.to_nat (4 * c) + i)%nat :=
           TTEntry.make k v ty d
             (if m =? MOVE_NONE then TTEntry.move (slot t c i) else m)
             (generation t)]> (entries t))
      (generation t).
Proof.
  intros Hs Hi c Hki Hbefore.
  pose proof (store_cases t k v ty d m) as Hcases. cbv zeta in Hcases.
  rewrite (first_entry_sized t k Hs) in Hcases.
  fold (slot t (cluster_of t k)) in Hcases. fold c in Hcases.
  destruct Hcases as [[Hst (_ & _ & _ & Hk & Hty & _)]
                     | [(i2 & Hi2 & Hst & Hhit & _ & Hbefore2)
                       | (i2 & Hi2 & _ & Hall & _)]].
  - left. auto.
  - right. destruct (Nat.lt_trichotomy i2 i) as [Hlt|[->|Hgt]].
    + destruct (Hbefore i2 Hlt). tauto.
    + exact Hst.
    + destruct (Hbefore2 i Hgt). contradiction.
  - exfalso. destruct (Hall i Hi). contradiction.
Qed.

Lemma inserted_table_sized t w idx x :
  sized t -> sized (mkTT (size t) w (<[idx := x]> (entries t)) (generation t)).
Proof.
  intros (j & Hj & Hs & Hl). exists j. simpl. rewrite length_insert. auto.
Qed.

(** The table after an entry for [k] was written at slot [i] of its
    cluster, seen from a second [store] for [k]. *)
Lemma store_after_write t k i w x v ty d m :
  sized t -> (i < 4)%nat -> TTEntry.key x = k ->
  let c := cluster_of t k in
  (forall j, (j < i)%nat ->
     TTEntry.key (slot t c j) <> 0 /\ TTEntry.key (slot t c j) <> k) ->
  let idx := (Z.to_nat (4 * c) + i)%nat in
  let t1 := mkTT (size t) w (<[idx := x]> (entries t)) (generation t) in
  (store t1 k v ty d m = t1 /\ ty = VALUE_TYPE_EVAL /\ k <> 0) \/
  store t1 k v ty d m =
    mkTT (size t) w
      (<[idx := TTEntry.make k v ty d
                  (if m =? MOVE_NONE then TTEntry.move x else m)
                  (generation t)]> (entries t))
      (generation t).
Proof.
  intros Hs Hi Hx c Hbefore idx t1.
  pose proof (cluster_of_range t k Hs) as Hc. fold c in Hc.
  assert (Hs1 : sized t1) by (apply inserted_table_sized; exact Hs).
  assert (Hslot : forall j, (j < 4)%nat ->
            slot t1 c j = if decide (j = i) then x else slot t c j).
  { intros j Hj. subst t1 idx. rewrite slot_insert by (auto; lia).
    destruct (decide (j = i)) as [->|].
    - rewrite decide_True by auto. reflexivity.
    - rewrite decide_False by tauto. reflexivity. }
  destruct (store_on_written t1 k i v ty d m Hs1 Hi) as [Hab|Hst].
  - change (cluster_of t1 k) with c. rewrite Hslot by lia.
    now rewrite decide_True by reflexivity.
  - change (cluster_of t1 k) with c. intros j Hj. rewrite Hslot by lia.
    rewrite decide_False by lia. now apply Hbefore.
  - left. exact Hab.
  - right. rewrite Hst. change (cluster_of t1 k) with c.
    rewrite Hslot by lia. rewrite decide_True by reflexivity.
    subst t1 idx. simpl. now rewrite list_insert_insert_eq.
Qed.

(** X10.  [store] is idempotent on a sized table: the same call made twice
    leaves the table the first call made; the second call does not count as
    an eviction. *)
Theorem store_idempotent t k v ty d m :
  sized t ->
  store (store t k v ty d m) k v ty d m = store t k v ty d m.
Proof.
  intros Hs.
  destruct (store_then_scan t k v ty d m Hs)
    as [[Hst _] | (i & w & m' & Hi & Hst & Hm' & Hbefore)].
  - now rewrite !Hst.
  - rewrite Hst.
    destruct (store_after_write t k i w (TTEntry.make k v ty d m' (generation t))
                v ty d m Hs Hi eq_refl Hbefore) as [[Hab _]|Hst2].
    + exact Hab.
    + rewrite Hst2. simpl. do 4 f_equal.
      destruct (Z.eqb_spec m MOVE_NONE); [ reflexivity | symmetry; auto ].
Qed.

(** X11.  Two stores for one signature: when the first one writes and the
    second one is not a static evaluation, the second overwrites the entry
    of the first in place, without eviction, keeping the move of the first
    when it brings none.  [retrieve] then returns the values of the second
    call. *)
Theorem store_twice_same_signature t k v1 ty1 d1 m1 v2 ty2 d2 m2 :
  sized t ->
  (ty1 = VALUE_TYPE_EVAL -> retrieve t k = None) ->
  ty2 <> VALUE_TYPE_EVAL ->
  let t1 := store t k v1 ty1 d1 m1 in
  let t2 := store t1 k v2 ty2 d2 m2 in
  exists tte e1,
    retrieve t1 k = Some tte /\ retrieve_entry t1 k = Some e1 /\
    retrieve t2 k = Some tte /\
    retrieve_entry t2 k
    = Some (TTEntry.make k v2 ty2 d2
              (if m2 =? MOVE_NONE then TTEntry.move e1 else m2) (generation t)) /\
    writes t2 = writes t1 /\
    forall idx, idx <> tte -> entries t2 !!! idx = entries t1 !!! idx.
Proof.
  intros Hs Hty1 Hty2 t1 t2.
  pose proof (cluster_of_range t k Hs) as Hc.
  destruct (store_then_scan t k v1 ty1 d1 m1 Hs)
    as [(_ & Hev & i & Hi & Hki) | (i & w & m' & Hi & Hst & Hm' & Hbefore)].
  - exfalso. pose proof (retrieve_cases t k Hs) as H. cbv zeta in H.
    rewrite (Hty1 Hev) in H. now apply (H i Hi).
  - set (c := cluster_of t k) in *. set (idx := (Z.to_nat (4 * c) + i)%nat) in *.
    set (e1 := TTEntry.make k v1 ty1 d1 m' (generation t)) in *.
    assert (Hlen : (idx < length (entries t))%nat) by now apply slot_in_range.
    assert (Hret1 : retrieve t1 k = Some idx).
    { unfold t1. rewrite Hst. apply retrieve_insert; auto.
      intros j Hj. now apply Hbefore. }
    destruct (store_after_write t k i w e1 v2 ty2 d2 m2 Hs Hi eq_refl Hbefore)
      as [(_ & Hev & _)|Hst2]; [ contradiction | ].
    fold c idx in Hst2. rewrite <- Hst in Hst2. fold t1 in Hst2. fold t2 in Hst2.
    exists idx, e1. split; [ exact Hret1 | ]. split.
    { unfold retrieve_entry. rewrite Hret1. simpl. unfold t1. rewrite Hst. simpl.
      now rewrite list_lookup_total_insert_eq. }
    split; [ rewrite Hst2; apply retrieve_insert; auto;
             intros j Hj; now apply Hbefore | ].
    split.
    { unfold retrieve_entry.
      replace (retrieve t2 k) with (Some idx)
        by (rewrite Hst2; symmetry; apply retrieve_insert; auto;
            intros j Hj; now apply Hbefore).
      simpl. rewrite Hst2. simpl. now rewrite list_lookup_total_insert_eq. }
    split; [ rewrite Hst2; unfold t1; rewrite Hst; reflexivity | ].
    intros idx' Hne. rewrite Hst2. unfold t1. rewrite Hst. simpl.
    rewrite !list_lookup_total_insert_ne by congruence. reflexivity.
Qed.

End StoreCompose.

Section StoreCommute.
Context `{E : Engine}.

(** The loop of [store] reads the four entries from [first] on and nothing
    else. *)
Lemma store_scan_agree es es' gen k ty m first : forall n i r,
  (forall j, (first <= j < first + 4)%nat -> es !!! j = es' !!! j) ->
  (i + n <= 4)%nat -> (first <= r < first + 4)%nat ->
  store_scan es gen k ty m first i r n = store_scan es' gen k ty m first i r n.
Proof.
  induction n as [|n IH]; intros i r Hag Hin Hr; [ reflexivity | ].
  cbn [store_scan]. rewrite <- (Hag (first + i)%nat) by lia.
  rewrite <- (Hag r) by lia.
  destruct ((TTEntry.key (es !!! (first + i)%nat) =? 0)
            || (TTEntry.key (es !!! (first + i)%nat) =? k)); [ reflexivity | ].
  destruct (i =? 0)%nat; [ apply IH; auto; lia | ].
  match goal with |- context [if ?c then _ else r] => destruct c end;
    apply IH; auto; lia.
Qed.

(** [store] written as the scan followed by the write it decides. *)
Lemma store_unfold t k v ty d m :
  store t k v ty d m =
    let first := Z.to_nat (first_entry t k) in
    match store_scan (entries t) (generation t) k ty m first 0 first 4 with
    | Abort => t
    | Write tte m' =>
        mkTT (size t) (writes t)
             (<[tte := TTEntry.make k v ty d m' (generation t)]> (entries t))
             (generation t)
    | Evict replace =>
        mkTT (size t) (Machine.u32 (writes t + 1))
             (<[replace := TTEntry.make k v ty d m (generation t)]> (entries t))
             (generation t)
    end.
Proof. reflexivity. Qed.

(** The scan for a signature of another cluster, after a store. *)
Lemma store_scan_after_store t k v ty d m k' ty' m' :
  sized t -> cluster_of t k <> cluster_of t k' ->
  let t1 := store t k v ty d m in
  let first := Z.to_nat (first_entry t k') in
  store_scan (entries t1) (generation t1) k' ty' m' first 0 first 4
  = store_scan (entries t) (generation t) k' ty' m' first 0 first 4.
Proof.
  intros Hs Hne t1 first. unfold t1. rewrite store_generation.
  symmetry. apply store_scan_agree; [ | lia | lia ].
  intros j Hj. subst first. rewrite (first_entry_sized t k' Hs) in Hj.
  pose proof (cluster_of_range t k Hs). pose proof (cluster_of_range t k' Hs).
  pose proof (store_cases t k v ty d m) as Hcases. cbv zeta in Hcases.
  rewrite (first_entry_sized t k Hs) in Hcases.
  destruct Hcases as [[-> _] | [(i & Hi & -> & _) | (i & Hi & -> & _)]];
    [ reflexivity | | ]; simpl;
    symmetry; apply list_lookup_total_insert_ne; lia.
Qed.

(** X12.  Stores for signatures of different clusters commute. *)
Theorem store_commute t k1 v1 ty1 d1 m1 k2 v2 ty2 d2 m2 :
  sized t -> cluster_of t k1 <> cluster_of t k2 ->
  store (store t k1 v1 ty1 d1 m1) k2 v2 ty2 d2 m2
  = store (store t k2 v2 ty2 d2 m2) k1 v1 ty1 d1 m1.
Proof.
  intros Hs Hne.
  pose proof (cluster_of_range t k1 Hs) as Hc1.
  pose proof (cluster_of_range t k2 Hs) as Hc2.
  rewrite (store_unfold (store t k1 v1 ty1 d1 m1) k2).
  rewrite (store_unfold (store t k2 v2 ty2 d2 m2) k1).
  cbv zeta. rewrite !store_first_entry.
  rewrite (store_scan_after_store t k1 v1 ty1 d1 m1 k2 ty2 m2 Hs Hne).
  rewrite (store_scan_after_store t k2 v2 ty2 d2 m2 k1 ty1 m1 Hs)
    by congruence.
  rewrite !store_size, !store_generation.
  pose proof (store_scan_spec (entries t) (generation t) k1 ty1 m1
                (Z.to_nat (first_entry t k1))) as H1.
  pose proof (store_scan_spec (entries t) (generation t) k2 ty2 m2
                (Z.to_nat (first_entry t k2))) as H2.
  cbv zeta in H1, H2.
  rewrite (store_unfold t k1), (store_unfold t k2). cbv zeta.
  rewrite (first_entry_sized t k1 Hs), (first_entry_sized t k2 Hs) in *.
  destruct (store_scan (entries t) (generation t) k1 ty1 m1 _ 0 _ 4)
    as [ | tte1 m1' | r1 ];
  destruct (store_scan (entries t) (generation t) k2 ty2 m2 _ 0 _ 4)
    as [ | tte2 m2' | r2 ]; simpl; try reflexivity.
  all: repeat match goal with
       | H : exists _, _ |- _ => destruct H as (? & ? & ? & ?)
       end; subst.
  all: f_equal; apply list_insert_insert_ne; lia.
Qed.

End StoreCommute.

(** ** Searches *)

Section Searches.
Context `{E : Engine}.

Lemma new_search_iter_generation n : forall t,
  0 <= generation t < 2 ^ 8 ->
  generation (Nat.iter n new_search t) = (generation t + Z.of_nat n) mod 2 ^ 8.
Proof.
  induction n as [|n IH]; intros t Hg.
  - simpl. rewrite Z.add_0_r, Z.mod_small; lia.
  - cbn [Nat.iter]. unfold new_search at 1. simpl generation.
    rewrite IH by exact Hg. unfold Machine.u8.
    rewrite Z.add_mod_idemp_l by lia. f_equal. lia.
Qed.

Lemma new_search_iter_entries n t :
  entries (Nat.iter n new_search t) = entries t /\
  size (Nat.iter n new_search t) = size t.
Proof. induction n as [|n [IH1 IH2]]; simpl; auto. Qed.

(** X13.  After [n] calls of [new_search] the generation is the old one
    plus [n], modulo 2^8, and the entries are untouched.  So an entry of
    the current search is stale during the next 255 searches, and is taken
    for an entry of the current search again in the 256th. *)
Theorem new_search_wraps t n :
  0 <= generation t < 2 ^ 8 ->
  let t' := Nat.iter n new_search t in
  generation t' = (generation t + Z.of_nat n) mod 2 ^ 8 /\
  entries t' = entries t /\
  (forall e, TTEntry.generation e = generation t ->
     (TTEntry.generation e = generation t' <-> Z.of_nat n mod 2 ^ 8 = 0)).
Proof.
  intros Hg t'. pose proof (new_search_iter_generation n t Hg) as Hgen.
  fold t' in Hgen. split; [ exact Hgen | ].
  split; [ apply new_search_iter_entries | ].
  intros e He. rewrite He, Hgen.
  pose proof (Z.mod_pos_bound (Z.of_nat n) (2 ^ 8) ltac:(lia)) as Hb.
  rewrite Z.add_mod by lia. rewrite (Z.mod_small (generation t)) by lia.
  split.
  - intros Heq.
    destruct (Z.lt_ge_cases (generation t + Z.of_nat n mod 2 ^ 8) (2 ^ 8)) as [Hlt|Hge].
    + rewrite Z.mod_small in Heq by lia. lia.
    + replace (generation t + Z.of_nat n mod 2 ^ 8)
        with ((generation t + Z.of_nat n mod 2 ^ 8 - 2 ^ 8) + 1 * 2 ^ 8) in Heq by lia.
      rewrite Z.mod_add, Z.mod_small in Heq by lia. lia.
  - intros ->. rewrite Z.add_0_r, Z.mod_small; lia.
Qed.

End Searches.

(** ** Sizing, continued *)

Section SizingMore.
Context `{E : Engine}.

(** The two ways [set_size] ends for a budget of 4 to 4095 megabytes. *)
Lemma set_size_cases t mbSize :
  2 <= sizeof_TTEntry <= 1024 -> 4 <= mbSize <= 4095 ->
  exists c j, 10 <= j <= 29 /\ c = 2 ^ j /\
    set_size_loop 64 mbSize 1024 = Some c /\
    c * 4 * sizeof_TTEntry <= mbSize * 2 ^ 20 < (2 * c) * 4 * sizeof_TTEntry /\
    ((c = size t /\ set_size mbSize t = Some t) \/
     (c <> size t /\
      let fresh := mkTT c (writes t)
                     (replicate (Z.to_nat (Machine.u32 (c * 4))) TTEntry.zero)
                     (generation t) in
      sized fresh /\ set_size mbSize t = Some (clear fresh))).
Proof.
  intros Hsz Hmb. unfold set_size.
  destruct (Z.leb_spec 4 mbSize); [ | lia ].
  destruct (Z.leb_spec mbSize 4096); [ | lia ]. cbn [andb negb].
  destruct (set_size_loop_spec 64 mbSize 1024 Hsz)
    as (c & Hloop & (j & Hj & Hc) & Hfit).
  { lia. } { exists 10. split; [ lia | reflexivity ]. } { nia. } { simpl. lia. }
  rewrite Hloop. cbn [mbind option_bind].
  assert (Hcpos : 0 < c) by (rewrite Hc; apply Z.pow_pos_nonneg; lia).
  assert (Hj29 : j <= 29).
  { destruct (Z.le_gt_cases j 29) as [Hle|Hgt]; [ exact Hle | exfalso ].
    assert (2 ^ 30 <= 2 ^ j) by (apply Z.pow_le_mono_r; lia). nia. }
  exists c, j. split; [ lia | ]. split; [ exact Hc | ].
  split; [ reflexivity | ]. split; [ exact Hfit | ].
  destruct (Z.eqb_spec c (size t)) as [Heq|Hne]; cbn [negb].
  - left. auto.
  - right. split; [ exact Hne | ]. cbv zeta. split; [ | reflexivity ].
    exists j. split; [ lia | ]. split; [ exact Hc | ]. simpl.
    rewrite length_replicate. unfold Machine.u32.
    assert (c <= 2 ^ 29) by (rewrite Hc; apply Z.pow_le_mono_r; lia).
    rewrite Z.mod_small by lia. f_equal. lia.
Qed.

(** X14.  [set_size] makes the tables the other functions work on: on the
    table of the constructor it gives a reachable table (sized, all entries
    empty) with the counters at 0, and on a reachable table it gives a
    reachable table. *)
Theorem set_size_reachable mbSize :
  2 <= sizeof_TTEntry <= 1024 -> 4 <= mbSize <= 4095 ->
  (exists t', set_size mbSize TranspositionTable_new = Some t' /\
     reachable t' /\ writes t' = 0 /\ generation t' = 0 /\
     forall k, k <> 0 -> retrieve t' k = None) /\
  (forall t, reachable t ->
     exists t', set_size mbSize t = Some t' /\ reachable t').
Proof.
  intros Hsz Hmb. split.
  - destruct (set_size_cases TranspositionTable_new mbSize Hsz Hmb)
      as (c & j & Hj & Hc & _ & _ & [[Heq _]|(_ & Hfresh & Hset)]).
    + exfalso. simpl in Heq.
      assert (0 < c) by (rewrite Hc; apply Z.pow_pos_nonneg; lia). lia.
    + eexists. split; [ exact Hset | ].
      split; [ now constructor | ]. split; [ reflexivity | ].
      split; [ reflexivity | ]. intros k Hk. now apply retrieve_clear.
  - intros t Hr.
    destruct (set_size_cases t mbSize Hsz Hmb)
      as (c & j & Hj & Hc & _ & _ & [[_ Hset]|(_ & Hfresh & Hset)]).
    + exists t. auto.
    + eexists. split; [ exact Hset | ]. now constructor.
Qed.

(** X15.  For budgets from 4 to 4095 megabytes the size [set_size] gives
    depends on the budget only and grows with it; calling [set_size] again
    with the same budget changes nothing.  The budget 4096 is left out: the
    32-bit [mbSize << 20] wraps there and the size falls back to 1024
    clusters. *)
Theorem set_size_monotone_idempotent t1 t2 mb1 mb2 t1' t2' :
  2 <= sizeof_TTEntry <= 1024 -> 4 <= mb1 <= mb2 -> mb2 <= 4095 ->
  set_size mb1 t1 = Some t1' -> set_size mb2 t2 = Some t2' ->
  size t1' <= size t2' /\
  (mb1 = mb2 -> size t1' = size t2') /\
  set_size mb1 t1' = Some t1'.
Proof.
  intros Hsz Hmb1 Hmb2 Hset1 Hset2.
  assert (Hsize : forall t mb t', 4 <= mb <= 4095 -> set_size mb t = Some t' ->
            exists c j, 10 <= j <= 29 /\ c = 2 ^ j /\ size t' = c /\
              set_size_loop 64 mb 1024 = Some c /\
              c * 4 * sizeof_TTEntry <= mb * 2 ^ 20 < (2 * c) * 4 * sizeof_TTEntry).
  { intros t mb t' Hmb Hset.
    destruct (set_size_cases t mb Hsz Hmb)
      as (c & j & Hj & Hc & Hloop & Hfit & [[Heq Hset']|(_ & _ & Hset')]);
      rewrite Hset' in Hset; injection Hset as <-; exists c, j; auto. }
  destruct (Hsize t1 mb1 t1' ltac:(lia) Hset1)
    as (c1 & j1 & Hj1 & Hc1 & Hs1 & Hloop1 & Hfit1).
  destruct (Hsize t2 mb2 t2' ltac:(lia) Hset2)
    as (c2 & j2 & Hj2 & Hc2 & Hs2 & Hloop2 & Hfit2).
  assert (Hle : forall ja jb ca cb ma mb,
            0 <= ja -> 0 <= jb -> ca = 2 ^ ja -> cb = 2 ^ jb -> ma <= mb ->
            ca * 4 * sizeof_TTEntry <= ma * 2 ^ 20 ->
            mb * 2 ^ 20 < (2 * cb) * 4 * sizeof_TTEntry -> ca <= cb).
  { intros ja jb ca cb ma mb Hja Hjb Hca Hcb Hm Hfa Hfb.
    destruct (Z.le_gt_cases ja jb) as [Hl|Hg].
    - rewrite Hca, Hcb. apply Z.pow_le_mono_r; lia.
    - exfalso. assert (2 ^ (jb + 1) <= 2 ^ ja) by (apply Z.pow_le_mono_r; lia).
      rewrite Z.pow_add_r in * by lia. nia. }
  split; [ | split ].
  - rewrite Hs1, Hs2. apply (Hle j1 j2 c1 c2 mb1 mb2); lia.
  - intros ->. rewrite Hs1, Hs2. apply Z.le_antisymm.
    + apply (Hle j1 j2 c1 c2 mb2 mb2); lia.
    + apply (Hle j2 j1 c2 c1 mb2 mb2); lia.
  - unfold set_size.
    destruct (Z.leb_spec 4 mb1); [ | lia ].
    destruct (Z.leb_spec mb1 4096); [ | lia ]. cbn [andb negb].
    rewrite Hloop1. cbn [mbind option_bind].
    rewrite Hs1, Z.eqb_refl. reflexivity.
Qed.

(** X16.  At the largest budget the assertion admits, 4096 megabytes,
    [mbSize << 20] is 0 in 32 bits: the loop stops at once and the table gets
    the 1024 clusters of the smallest budget, although twice as many would
    fit. *)
Theorem set_size_4096 t :
  2 <= sizeof_TTEntry <= 1024 ->
  exists t', set_size 4096 t = Some t' /\ size t' = 1024 /\
    (2 * 1024) * 4 * sizeof_TTEntry <= 4096 * 2 ^ 20 /\
    (size t = 1024 -> t' = t).
Proof.
  intros Hsz. unfold set_size. cbn [Z.leb Z.compare Pos.compare Pos.compare_cont andb negb].
  assert (Hloop : set_size_loop 64 4096 1024 = Some 1024).
  { cbn [set_size_loop]. unfold Machine.u64, Machine.u32.
    change (Z.shiftl 4096 20 mod 2 ^ 32) with 0.
    change ((2 * 1024) mod 2 ^ 32 * 4 mod 2 ^ 32) with 8192.
    rewrite Z.mod_small by lia.
    destruct (Z.leb_spec (8192 * sizeof_TTEntry) 0); [ lia | reflexivity ]. }
  rewrite Hloop. cbn [mbind option_bind].
  destruct (Z.eqb_spec 1024 (size t)) as [Heq|Hne]; cbn [negb].
  - exists t. split; [ reflexivity | ]. split; [ auto | ]. split; [ lia | auto ].
  - eexists. split; [ reflexivity | ]. split; [ reflexivity | ].
    split; [ lia | ]. intros Heq. congruence.
Qed.

End SizingMore.

(** ** Principal variation, continued *)

Section PrincipalVariationMore.
Context `{E : Engine}.

(** X17.  After [insert_pv], the signature of the state the last move is
    played from is found, and the entry found is the placeholder with that
    move. *)
Theorem insert_pv_last_move_found moves : forall t p m rest,
  sized t -> Forall (fun a => a <> MOVE_NONE) moves -> m <> MOVE_NONE ->
  let last := foldl do_move p moves in
  exists t',
    insert_pv t p (moves ++ m :: MOVE_NONE :: rest) = Some t' /\
    retrieve_entry t' (get_key last)
    = Some (TTEntry.make (get_key last) VALUE_NONE VALUE_TYPE_NONE
              (-127 * OnePly) m (generation t)).
Proof.
  induction moves as [|a moves IH]; intros t p m rest Hs Hmoves Hm last.
  - subst last. simpl. destruct (Z.eqb_spec m MOVE_NONE); [ contradiction | ].
    rewrite Z.eqb_refl. eexists. split; [ reflexivity | ].
    destruct (store_written t (get_key p) VALUE_NONE VALUE_TYPE_NONE
                (-127 * OnePly) m Hs)
      as (i & w & m' & Hi & Hst & Hret & Hm' & _); [ discriminate | ].
    unfold retrieve_entry. rewrite Hret. simpl. rewrite Hst. simpl.
    rewrite inserted_entry by (auto using cluster_of_range).
    destruct Hm' as [->|[? _]]; [ reflexivity | contradiction ].
  - inversion Hmoves as [|? ? Ha Hrest]; subst.
    simpl. destruct (Z.eqb_spec a MOVE_NONE); [ contradiction | ].
    destruct (IH (store t (get_key p) VALUE_NONE VALUE_TYPE_NONE (-127 * OnePly) a)
                 (do_move p a) m rest) as (t' & Hrun & Hfound); auto.
    { now apply store_sized. }
    rewrite store_generation in Hfound. exists t'. auto.
Qed.

End PrincipalVariationMore.

(** ** Occupancy of a table without entries *)

Section OccupancyEdge.
Context `{E : Engine}.

(** X18.  Before [set_size] has given the table a size, [full] has no
    defined result: [N] is 0, [1.0/N] is an infinity, the logarithm of the
    negative infinity is a NaN, and the conversion of a NaN to [int] is
    undefined.  The two facts about <cmath> used are hypotheses. *)
Theorem full_unsized t :
  size t = 0 ->
  log (S754_infinity true) = S754_nan ->
  exp S754_nan = S754_nan ->
  full t = None.
Proof.
  intros Hsize Hlog Hexp. unfold full. rewrite Hsize.
  change (Double.sub (Double.of_Z 1)
            (Double.div (Double.of_Z 1)
               (Double.mul (Double.of_Z 0) (Double.of_Z 4))))
    with (S754_infinity true).
  rewrite Hlog.
  assert (Hnan : Double.mul (Double.of_Z (writes t)) S754_nan = S754_nan)
    by (destruct (Double.of_Z (writes t)); reflexivity).
  rewrite Hnan, Hexp. reflexivity.
Qed.

End OccupancyEdge.

Lemma full_unsized_witness :
  size TranspositionTable_new = 0 /\
  log (Engine := special_values_engine) (S754_infinity true) = S754_nan /\
  exp (Engine := special_values_engine) S754_nan = S754_nan /\
  full (E := special_values_engine) TranspositionTable_new = None.
Proof.
  split; [ reflexivity | ]. split; [ reflexivity | ]. split; [ reflexivity | ].
  apply (full_unsized (E := special_values_engine) TranspositionTable_new);
    reflexivity.
Defined.

(** ** Instances of the properties above *)

Lemma sample_table_sized : sized sample_table.
Proof. exists 0. split; [ lia | split; reflexivity ]. Defined.

Lemma full_table_reachable : reachable (E := sample_engine) full_table.
Proof.
  repeat (apply reach_store; [ | discriminate ]).
  apply reach_clear. exact one_cluster_sized.
Defined.

Lemma two_clusters_sized : sized two_clusters.
Proof. exists 1. split; [ lia | split; reflexivity ]. Defined.

Lemma first_entry_in_bounds_witness :
  sized sample_table /\
  first_entry sample_table 5 = 4 * (5 mod size sample_table) /\
  0 <= first_entry sample_table 5.
Proof.
  split; [ exact sample_table_sized | ].
  destruct (first_entry_in_bounds sample_table 5
              sample_table_sized) as (H1 & H2 & _).
  split; [ exact H1 | exact H2 ].
Defined.

Lemma clear_spec_witness :
  sized sample_table /\
  (forall k, k <> 0 -> retrieve (clear sample_table) k = None) /\
  retrieve (clear sample_table) 0 = Some 0%nat.
Proof.
  split; [ exact sample_table_sized | ].
  destruct (clear_spec sample_table sample_table_sized)
    as (_ & _ & _ & _ & _ & Hmiss & Hzero & _).
  split; [ exact Hmiss | exact Hzero ].
Defined.

Lemma store_counts_evictions_witness :
  (exists i, (i < 4)%nat /\
     (TTEntry.key (entries sample_table !!! (0 + i)%nat) = 0 \/
      TTEntry.key (entries sample_table !!! (0 + i)%nat) = 6)) /\
  writes (store (E := sample_engine) sample_table 6 41 VALUE_TYPE_LOWER 4 12)
  = writes sample_table.
Proof.
  assert (Hhit : exists i, (i < 4)%nat /\
     (TTEntry.key (entries sample_table !!! (0 + i)%nat) = 0 \/
      TTEntry.key (entries sample_table !!! (0 + i)%nat) = 6)).
  { exists 1%nat. split; [ lia | left; reflexivity ]. }
  split; [ exact Hhit | ].
  apply (proj1 (store_counts_evictions (E := sample_engine)
                  sample_table 6 41 VALUE_TYPE_LOWER 4 12) Hhit).
Defined.

Lemma store_keeps_other_signatures_witness :
  (exists i, (i < 4)%nat /\
     (TTEntry.key (entries sample_table !!! (0 + i)%nat) = 0 \/
      TTEntry.key (entries sample_table !!! (0 + i)%nat) = 6)) /\
  5 <> 6 /\ 5 <> 0 /\
  retrieve_entry (store (E := sample_engine) sample_table 6 41 VALUE_TYPE_LOWER 4 12) 5
  = retrieve_entry sample_table 5.
Proof.
  assert (Hhit : exists i, (i < 4)%nat /\
     (TTEntry.key (entries sample_table !!! (0 + i)%nat) = 0 \/
      TTEntry.key (entries sample_table !!! (0 + i)%nat) = 6)).
  { exists 1%nat. split; [ lia | left; reflexivity ]. }
  split; [ exact Hhit | ]. split; [ discriminate | ]. split; [ discriminate | ].
  apply (store_keeps_other_signatures (E := sample_engine)
           sample_table 6 41 VALUE_TYPE_LOWER 4 12 5 Hhit);
    discriminate.
Defined.

Lemma store_evicts_first_minimum_witness :
  (forall i, (i < 4)%nat ->
     TTEntry.key (entries scenario_table !!! (0 + i)%nat) <> 0 /\
     TTEntry.key (entries scenario_table !!! (0 + i)%nat) <> 20) /\
  exists i, (i < 4)%nat /\
    entries (store (E := sample_engine) scenario_table 20 50 VALUE_TYPE_LOWER 3 9)
    = <[(0 + i)%nat := TTEntry.make 20 50 VALUE_TYPE_LOWER 3 9 1]>
        (entries scenario_table).
Proof.
  assert (Hfull : forall i, (i < 4)%nat ->
     TTEntry.key (entries scenario_table !!! (0 + i)%nat) <> 0 /\
     TTEntry.key (entries scenario_table !!! (0 + i)%nat) <> 20).
  { intros i Hi. slots i; vm_compute; split; discriminate. }
  split; [ exact Hfull | ].
  destruct (store_evicts_first_minimum (E := sample_engine)
              scenario_table 20 50 VALUE_TYPE_LOWER 3 9 Hfull)
    as (i & Hi & Hst & _).
  exists i. split; [ exact Hi | exact Hst ].
Defined.

Lemma occupied_entry_is_retrieved_witness :
  reachable (E := sample_engine) full_table /\
  (2 < length (entries full_table))%nat /\
  TTEntry.key (entries full_table !!! 2%nat) <> 0 /\
  retrieve full_table 7 = Some 2%nat.
Proof.
  split; [ exact full_table_reachable | ].
  assert (Hlen : (2 < length (entries full_table))%nat) by (vm_compute; lia).
  assert (Hnz : TTEntry.key (entries full_table !!! 2%nat) <> 0)
    by (vm_compute; discriminate).
  split; [ exact Hlen | ]. split; [ exact Hnz | ].
  apply (proj2 (occupied_entry_is_retrieved (E := sample_engine)
                  full_table 2%nat full_table_reachable Hlen Hnz)).
Defined.

Lemma store_eviction_loses_one_witness :
  reachable (E := sample_engine) full_table /\ 9 <> 0 /\
  (forall i, (i < 4)%nat ->
     TTEntry.key (slot full_table 0 i) <> 0 /\ TTEntry.key (slot full_table 0 i) <> 9) /\
  exists tte,
    retrieve full_table (TTEntry.key (entries full_table !!! tte)) = Some tte /\
    retrieve (store (E := sample_engine) full_table 9 44 VALUE_TYPE_EXACT 1 15) 9
    = Some tte /\
    retrieve (store (E := sample_engine) full_table 9 44 VALUE_TYPE_EXACT 1 15)
      (TTEntry.key (entries full_table !!! tte)) = None.
Proof.
  assert (Hfull : forall i, (i < 4)%nat ->
     TTEntry.key (slot full_table 0 i) <> 0 /\ TTEntry.key (slot full_table 0 i) <> 9).
  { intros i Hi. slots i; vm_compute; split; discriminate. }
  split; [ exact full_table_reachable | ]. split; [ discriminate | ].
  split; [ exact Hfull | ].
  destruct (store_eviction_loses_one (E := sample_engine)
              full_table 9 44 VALUE_TYPE_EXACT 1 15 full_table_reachable)
    as (tte & Hx & _ & _ & Hk & Hlost & _); [ discriminate | exact Hfull | ].
  exists tte. split; [ exact Hx | ]. split; [ exact Hk | exact Hlost ].
Defined.

(** The eviction in [full_table] evaluated: the entry of depth 2 in slot 3
    is replaced. *)
Example full_table_eviction :
  retrieve (store (E := sample_engine) full_table 9 44 VALUE_TYPE_EXACT 1 15) 9
  = Some 3%nat /\
  retrieve (store (E := sample_engine) full_table 9 44 VALUE_TYPE_EXACT 1 15) 8
  = None /\
  retrieve (store (E := sample_engine) full_table 9 44 VALUE_TYPE_EXACT 1 15) 5
  = Some 0%nat.
Proof. vm_compute. auto. Qed.

Lemma store_idempotent_witness :
  sized one_cluster /\
  store (E := sample_engine)
    (store (E := sample_engine) one_cluster 5 40 VALUE_TYPE_EXACT 6 11)
    5 40 VALUE_TYPE_EXACT 6 11
  = store (E := sample_engine) one_cluster 5 40 VALUE_TYPE_EXACT 6 11.
Proof.
  split; [ exact one_cluster_sized | ].
  apply (store_idempotent (E := sample_engine) one_cluster 5 40 VALUE_TYPE_EXACT 6 11
           one_cluster_sized).
Defined.

Lemma store_twice_same_signature_witness :
  sized one_cluster /\ VALUE_TYPE_LOWER <> VALUE_TYPE_EVAL /\
  exists tte e1,
    retrieve_entry (store (E := sample_engine) one_cluster 5 40 VALUE_TYPE_EXACT 6 11) 5
    = Some e1 /\
    retrieve_entry
      (store (E := sample_engine)
         (store (E := sample_engine) one_cluster 5 40 VALUE_TYPE_EXACT 6 11)
         5 41 VALUE_TYPE_LOWER 8 0) 5
    = Some (TTEntry.make 5 41 VALUE_TYPE_LOWER 8 (TTEntry.move e1) 0) /\
    retrieve
      (store (E := sample_engine)
         (store (E := sample_engine) one_cluster 5 40 VALUE_TYPE_EXACT 6 11)
         5 41 VALUE_TYPE_LOWER 8 0) 5 = Some tte.
Proof.
  split; [ exact one_cluster_sized | ]. split; [ discriminate | ].
  destruct (store_twice_same_signature (E := sample_engine)
              one_cluster 5 40 VALUE_TYPE_EXACT 6 11 41 VALUE_TYPE_LOWER 8 0
              one_cluster_sized)
    as (tte & e1 & _ & He1 & Hret & He2 & _); [ discriminate | discriminate | ].
  exists tte, e1. split; [ exact He1 | ]. split; [ exact He2 | exact Hret ].
Defined.

Lemma store_commute_witness :
  sized two_clusters /\ cluster_of two_clusters 2 <> cluster_of two_clusters 3 /\
  store (E := sample_engine)
    (store (E := sample_engine) two_clusters 2 40 VALUE_TYPE_EXACT 6 11)
    3 41 VALUE_TYPE_LOWER 8 12
  = store (E := sample_engine)
      (store (E := sample_engine) two_clusters 3 41 VALUE_TYPE_LOWER 8 12)
      2 40 VALUE_TYPE_EXACT 6 11.
Proof.
  assert (Hne : cluster_of two_clusters 2 <> cluster_of two_clusters 3)
    by (vm_compute; discriminate).
  split; [ exact two_clusters_sized | ]. split; [ exact Hne | ].
  apply (store_commute (E := sample_engine) two_clusters
           2 40 VALUE_TYPE_EXACT 6 11 3 41 VALUE_TYPE_LOWER 8 12
           two_clusters_sized Hne).
Defined.

Lemma new_search_wraps_witness :
  0 <= generation sample_table < 2 ^ 8 /\
  generation (Nat.iter 256 new_search sample_table) = generation sample_table /\
  generation (Nat.iter 255 new_search sample_table) = 255.
Proof.
  assert (Hg : 0 <= generation sample_table < 2 ^ 8) by (simpl; lia).
  split; [ exact Hg | ].
  split.
  - apply (proj1 (new_search_wraps sample_table 256 Hg)).
  - apply (proj1 (new_search_wraps sample_table 255 Hg)).
Defined.

Lemma set_size_reachable_witness :
  2 <= sizeof_TTEntry (Engine := sample_engine) <= 1024 /\ 4 <= 4 <= 4095 /\
  exists t', set_size (E := sample_engine) 4 TranspositionTable_new = Some t' /\
    reachable (E := sample_engine) t'.
Proof.
  assert (Hsz : 2 <= sizeof_TTEntry (Engine := sample_engine) <= 1024)
    by (simpl; lia).
  split; [ exact Hsz | ]. split; [ lia | ].
  destruct (proj1 (set_size_reachable (E := sample_engine) 4 Hsz ltac:(lia)))
    as (t' & Hset & Hr & _).
  exists t'. split; [ exact Hset | exact Hr ].
Defined.

Lemma set_size_new_4mb :
  set_size (E := sample_engine) 4 TranspositionTable_new = Some new_table_4mb.
Proof.
  unfold set_size. cbn [Z.leb Z.compare Pos.compare Pos.compare_cont andb negb].
  rewrite set_size_4_clusters. reflexivity.
Defined.

Lemma set_size_table_4mb :
  set_size (E := sample_engine) 4 table_4mb = Some table_4mb.
Proof.
  unfold set_size. cbn [Z.leb Z.compare Pos.compare Pos.compare_cont andb negb].
  rewrite set_size_4_clusters. cbn [mbind option_bind].
  unfold table_4mb. rewrite store_size. reflexivity.
Defined.

Lemma set_size_monotone_idempotent_witness :
  2 <= sizeof_TTEntry (Engine := sample_engine) <= 1024 /\ 4 <= 4 <= 4 /\ 4 <= 4095 /\
  set_size (E := sample_engine) 4 TranspositionTable_new = Some new_table_4mb /\
  set_size (E := sample_engine) 4 table_4mb = Some table_4mb /\
  size new_table_4mb <= size table_4mb /\
  set_size (E := sample_engine) 4 new_table_4mb = Some new_table_4mb.
Proof.
  assert (Hsz : 2 <= sizeof_TTEntry (Engine := sample_engine) <= 1024)
    by (simpl; lia).
  split; [ exact Hsz | ]. split; [ lia | ]. split; [ lia | ].
  split; [ exact set_size_new_4mb | ]. split; [ exact set_size_table_4mb | ].
  destruct (set_size_monotone_idempotent (E := sample_engine)
              TranspositionTable_new table_4mb 4 4 new_table_4mb table_4mb
              Hsz ltac:(lia) ltac:(lia) set_size_new_4mb set_size_table_4mb)
    as (Hle & _ & Hidem).
  split; [ exact Hle | exact Hidem ].
Defined.

Lemma set_size_4096_witness :
  2 <= sizeof_TTEntry (Engine := sample_engine) <= 1024 /\
  exists t', set_size (E := sample_engine) 4096 TranspositionTable_new = Some t' /\
    size t' = 1024.
Proof.
  assert (Hsz : 2 <= sizeof_TTEntry (Engine := sample_engine) <= 1024)
    by (simpl; lia).
  split; [ exact Hsz | ].
  destruct (set_size_4096 (E := sample_engine) TranspositionTable_new Hsz)
    as (t' & Hset & Hsize & _).
  exists t'. split; [ exact Hset | exact Hsize ].
Defined.

Lemma insert_pv_last_move_found_witness :
  sized one_cluster /\ Forall (fun a => a <> 0) [9] /\ 3 <> 0 /\
  exists t',
    insert_pv (E := sample_engine) one_cluster 5 ([9] ++ 3 :: 0 :: []) = Some t' /\
    retrieve_entry t' 3 = Some (TTEntry.make 3 30002 VALUE_TYPE_NONE (-254) 3 0).
Proof.
  assert (Hmoves : Forall (fun a => a <> 0) [9])
    by (repeat constructor; discriminate).
  split; [ exact one_cluster_sized | ]. split; [ exact Hmoves | ].
  split; [ discriminate | ].
  apply (insert_pv_last_move_found (E := sample_engine) [9] one_cluster 5 3 []
           one_cluster_sized Hmoves).
  discriminate.
Defined.
